(** * p751sidh: the field-arithmetic core of [field.go]

    A shallow embedding of the prime field F_p and of its quadratic
    extension F_{p^2} as implemented in [field.go], with the theorems that
    settle the properties stated about it.

    Layout: definitions first (data, primitives, store and monad, the
    methods of [field.go], the reference definitions the theorems compare
    against), then lemmas and theorems. *)

From Stdlib Require Import ZArith Znumtheory Zpow_facts Lia List Zmod.
From Bignums Require Import BigZ.
From stdpp Require Import base option list.
Import ListNotations.
Local Open Scope Z_scope.

(** ** Residues: limb arrays *)

(** [const fp751NumWords = 12] *)
Definition fp751NumWords : nat := 12.

(** [type fp751Element [fp751NumWords]uint64]: the limbs, least significant
    first, each a 64-bit word held in [Z]. *)
Definition fp751Element : Type := list Z.

(** [type fp751X2 [2*fp751NumWords]uint64].  [field.go] never reads or writes
    a limb of such a buffer: it only hands it from one primitive to the next,
    and both the comments of [field.go] ([= (a*c - b*d)*R*R]) and the
    primitives' contracts speak of the integer it denotes.  The buffer is
    modelled by that integer, unbounded and signed: for operands in [0, 2p),
    the range of field elements, no sum that [field.go] forms reaches
    2^1536, and a difference [ac - bd] that would borrow is kept as the
    negative integer.  The properties of the extension field take their
    operands in that range and are stated modulo p. *)
Definition fp751X2 : Type := Z.

Definition word : Z := 2 ^ 64.

(** The integer a limb array denotes. *)
Definition val (x : fp751Element) : Z :=
  fold_right (fun limb acc => limb + word * acc) 0 x.

(** The [n] low limbs of an integer (wrap-around beyond [n] limbs). *)
Fixpoint limbs (n : nat) (v : Z) : list Z :=
  match n with
  | O => []
  | S k => v mod word :: limbs k (v / word)
  end.

Definition of_Z (v : Z) : fp751Element := limbs fp751NumWords v.

(** A limb array as the Go type admits it: 12 words of 64 bits. *)
Definition wf_elem (x : fp751Element) : Prop :=
  length x = fp751NumWords /\ Forall (fun limb => 0 <= limb < word) x.

(** The zero value [fp751Element{}]. *)
Definition fp751Zero : fp751Element := replicate fp751NumWords 0.

(** Modelled from the spec: the modulus p, a constant of the assembly back
    end that [field.go] does not declare.  The spec fixes the 751-bit prime
    p = 3 (mod 4) of this parameter set; the constants [montgomeryR] and
    [montgomeryRsq] of [field.go] pin its value (lemmas [montgomeryR_val] and
    [montgomeryRsq_val]). *)
Definition p751 : Z := 2 ^ 372 * 3 ^ 239 - 1.

(** The Montgomery radix R = 2^768 (twelve 64-bit words). *)
Definition radix : Z := 2 ^ 768.

(** R^-1 modulo p (lemma [radix_inv_spec]). *)
Definition radix_inv : Z := Eval vm_compute in Z.invmod radix p751.

(** [var montgomeryR = fp751Element{...}]: (2^768) mod p. *)
Definition montgomeryR : fp751Element :=
  [149933; 0; 0; 0; 0; 9444048418595930112; 6136068611055053926;
   7599709743867700432; 14455912356952952366; 5522737203492907350;
   1222606818372667369; 49869481633250].

(** [var montgomeryRsq = fp751Element{...}]: (2^768)^2 mod p. *)
Definition montgomeryRsq : fp751Element :=
  [2535603850726686808; 15780896088201250090; 6788776303855402382;
   17585428585582356230; 5274503137951975249; 2266259624764636289;
   11695651972693921304; 13072885652150159301; 4908312795585420432;
   6229583484603254826; 488927695601805643; 72213483953973].

(** ** Residue primitives

    [field.go] declares these functions and leaves their bodies to the
    assembly back end.  Each is a pure function of the values its pointer
    arguments address; the methods below load those values, apply the
    function, and store the result, so that a destination which aliases an
    operand is read before it is written (as the call sites of [field.go]
    require: [fp751X2AddLazy(&ad_plus_bc, &ad_plus_bc, &ac)],
    [fp751SubReduced(&minus_b, &minus_b, b)]). *)

(** Modelled from the spec: [fp751AddReduced], z = (x+y) mod p, canonical
    range. *)
Definition fp751AddReduced (x y : fp751Element) : fp751Element :=
  of_Z ((val x + val y) mod p751).

(** Modelled from the spec: [fp751SubReduced], z = (x-y) mod p, canonical
    range. *)
Definition fp751SubReduced (x y : fp751Element) : fp751Element :=
  of_Z ((val x - val y) mod p751).

(** Modelled from the spec: [fp751AddLazy], z = x+y without reduction (the
    sum is stored in twelve words). *)
Definition fp751AddLazy (x y : fp751Element) : fp751Element :=
  of_Z (val x + val y).

(** Modelled from the spec: [fp751X2AddLazy], z = x+y on double-width
    values, without reduction. *)
Definition fp751X2AddLazy (x y : fp751X2) : fp751X2 := x + y.

(** Modelled from the spec: [fp751X2SubLazy], z = x-y on double-width
    values, without reduction. *)
Definition fp751X2SubLazy (x y : fp751X2) : fp751X2 := x - y.

(** Modelled from the spec: [fp751Mul], z = x*y, double-width and exact. *)
Definition fp751Mul (x y : fp751Element) : fp751X2 := val x * val y.

(** Modelled from the spec: [fp751MontgomeryReduce], z = x*R^-1 mod p,
    single-width.  The contract fixes z modulo p only, not its
    representative; the model returns the least one.  What the methods
    built on it store is therefore described modulo p (through [to_Fp],
    [reprP] and congruences), which holds whichever representative a
    reduction returns. *)
Definition fp751MontgomeryReduce (x : fp751X2) : fp751Element :=
  of_Z ((x * radix_inv) mod p751).

(** Modelled from the spec: [fp751StrongReduce], which normalizes x from
    [0,2p) to [0,p) in place: one conditional subtraction of p. *)
Definition fp751StrongReduce (x : fp751Element) : fp751Element :=
  of_Z (if p751 <=? val x then val x - p751 else val x).

(** ** Field elements *)

(** [type PrimeFieldElement struct { a fp751Element }] *)
Record PrimeFieldElement : Type := PrimeElt { pf_a : fp751Element }.

(** [type ExtensionFieldElement struct { a, b fp751Element }] *)
Record ExtensionFieldElement : Type := ExtElt { ef_a : fp751Element; ef_b : fp751Element }.

(** ** The store

    Methods receive pointers, and a destination may alias an operand.  The
    store is a stack of objects addressed by position: the caller's objects
    first, then the locals of the running methods whose address is passed
    on ([tmp_x], [xx], [lookup], ...), pushed on entry and popped on return.
    Locals that only the primitives see are let-bound values. *)

Abbreviation loc := nat (only parsing).

Inductive object : Type :=
| OPrime (x : PrimeFieldElement)
| OExt (x : ExtensionFieldElement).

(** A pointer to a field of a struct: [&p.a] for [p *PrimeFieldElement],
    [&e.a] and [&e.b] for [e *ExtensionFieldElement]. *)
Inductive fptr : Type :=
| Pa (l : loc)
| Ea (l : loc)
| Eb (l : loc).

(** What an execution lets an observer of its control flow and of its
    memory-access pattern see: the addresses read and written, the stack
    cells pushed and popped, and the outcome of every branch. *)
Inductive event : Type :=
| EvRead (p : fptr)
| EvWrite (p : fptr)
| EvAlloc (l : loc)
| EvFree (n : nat)
| EvBranch (b : bool).

Record state : Type := State { heap : list object; trace : list event }.

(** State and failure: a nil or ill-typed pointer, or an index out of
    range, panics ([None]). *)
Definition M (A : Type) : Type := state -> option (A * state).

#[export] Instance M_ret : MRet M := fun A a s => Some (a, s).

#[export] Instance M_bind : MBind M := fun A B f m s =>
  match m s with
  | Some (a, s') => f a s'
  | None => None
  end.

Definition panic {A : Type} : M A := fun _ => None.

Definition emit (e : event) : M unit :=
  fun s => Some (tt, State (heap s) (trace s ++ [e])).

Definition get_obj (l : loc) : M object :=
  fun s => match heap s !! l with
           | Some o => Some (o, s)
           | None => None
           end.

Definition put_obj (l : loc) (o : object) : M unit :=
  fun s => if decide (l < length (heap s))%nat
           then Some (tt, State (<[l := o]> (heap s)) (trace s))
           else None.

Definition fptr_loc (p : fptr) : loc :=
  match p with Pa l | Ea l | Eb l => l end.

(** Read through a field pointer. *)
Definition load (p : fptr) : M fp751Element :=
  emit (EvRead p);;
  o ← get_obj (fptr_loc p);
  match p, o with
  | Pa _, OPrime x => mret (pf_a x)
  | Ea _, OExt x => mret (ef_a x)
  | Eb _, OExt x => mret (ef_b x)
  | _, _ => panic
  end.

(** Write through a field pointer; the other field of the struct stays. *)
Definition store (p : fptr) (v : fp751Element) : M unit :=
  emit (EvWrite p);;
  o ← get_obj (fptr_loc p);
  match p, o with
  | Pa l, OPrime _ => put_obj l (OPrime (PrimeElt v))
  | Ea l, OExt x => put_obj l (OExt (ExtElt v (ef_b x)))
  | Eb l, OExt x => put_obj l (OExt (ExtElt (ef_a x) v))
  | _, _ => panic
  end.

(** [*x] for [x *PrimeFieldElement], and [*dest = v]. *)
Definition load_prime (l : loc) : M PrimeFieldElement :=
  v ← load (Pa l); mret (PrimeElt v).

Definition store_prime (l : loc) (v : PrimeFieldElement) : M unit :=
  store (Pa l) (pf_a v).

(** A local variable whose address is taken: pushed on the stack. *)
Definition alloc (o : object) : M loc :=
  fun s => Some (length (heap s),
                 State (heap s ++ [o]) (trace s ++ [EvAlloc (length (heap s))])).

(** A local array [[n]PrimeFieldElement{}]: [n] consecutive cells, the
    address of the first one returned. *)
Definition alloc_array (n : nat) (o : object) : M loc :=
  fun s => Some (length (heap s),
                 State (heap s ++ replicate n o) (trace s ++ [EvAlloc (length (heap s))])).

(** Return: the [n] cells of the frame are popped. *)
Definition release (n : nat) : M unit :=
  fun s => Some (tt, State (take (length (heap s) - n) (heap s)) (trace s ++ [EvFree n])).

(** [&arr[i]] for a local array of [n] cells at [base]; Go panics when the
    index is out of range. *)
Definition elem (base : loc) (n i : nat) : M loc :=
  if decide (i < n)%nat then mret (base + i)%nat else panic.

(** [tbl[i]] for a constant table. *)
Definition index {A : Type} (tbl : list A) (i : nat) : M A :=
  match tbl !! i with
  | Some v => mret v
  | None => panic
  end.

(** [for i := start; i < bound; i++ { body }], the body updating the local
    variables [acc].  The fuel is the largest number of iterations such a
    loop can make; the loop counters of [field.go] stay below 256, so no
    [uint8] counter wraps. *)
Fixpoint for_loop {A : Type} (fuel : nat) (i bound : nat)
    (body : nat -> A -> M A) (acc : A) : M A :=
  match fuel with
  | O => mret acc
  | S fuel' =>
      emit (EvBranch (i <? bound)%nat);;
      if (i <? bound)%nat
      then acc' ← body i acc; for_loop fuel' (S i) bound body acc'
      else mret acc
  end.

Definition for_ {A : Type} (start bound : nat) (body : nat -> A -> M A) (acc : A) : M A :=
  for_loop (S bound) start bound body acc.

(** ** Internals of [field.go] *)

(** [func (x fp751Element) vartimeEq(y fp751Element) bool].  Receiver and
    argument are arrays passed by value: [x] and [y] are the callee's own
    copies, and strong reduction overwrites those copies only. *)
Definition vartimeEq (x y : fp751Element) : M bool :=
  let x := fp751StrongReduce x in
  let y := fp751StrongReduce y in
  for_ 0 fp751NumWords
    (fun i eq =>
       xi ← index x i;
       yi ← index y i;
       emit (EvBranch (xi =? yi));;
       mret ((xi =? yi) && eq))
    true.

(** ** Prime field *)

Definition zeroP : PrimeFieldElement := PrimeElt fp751Zero.

Definition powStrategy : list nat :=
  [5; 7; 6; 2; 10; 4; 6; 9; 8; 5; 9; 4; 7; 5; 5; 4; 8; 3; 9; 5; 5; 4; 10; 4;
   6; 6; 6; 5; 8; 9; 3; 4; 9; 4; 5; 6; 6; 2; 9; 4; 5; 5; 5; 7; 7; 9; 4; 6; 4;
   8; 5; 8; 6; 6; 2; 9; 7; 4; 8; 8; 8; 4; 6; 5; 5; 5; 5; 5; 5; 5; 5; 5; 5; 5;
   5; 5; 5; 5; 5; 5; 5; 5; 5; 5; 5; 5; 5; 5; 5; 5; 5; 5; 5; 5; 5; 5; 5; 5; 5;
   5; 5; 5; 5; 5; 5; 5; 5; 5; 5; 5; 5; 5; 5; 5; 5; 5; 5; 5; 5; 5; 5; 5; 5; 5;
   5; 5; 5; 5; 5; 5; 5; 5; 5; 5; 5; 5; 2]%nat.

Definition mulStrategy : list nat :=
  [31; 23; 21; 1; 31; 7; 7; 7; 9; 9; 19; 15; 23; 23; 11; 7; 25; 5; 21; 17;
   11; 5; 17; 7; 11; 9; 23; 9; 1; 19; 5; 3; 25; 15; 11; 29; 31; 1; 29; 11;
   13; 9; 11; 27; 13; 19; 15; 31; 3; 29; 23; 31; 25; 11; 1; 21; 19; 15; 15;
   21; 29; 13; 23; 31; 31; 31; 31; 31; 31; 31; 31; 31; 31; 31; 31; 31; 31;
   31; 31; 31; 31; 31; 31; 31; 31; 31; 31; 31; 31; 31; 31; 31; 31; 31; 31;
   31; 31; 31; 31; 31; 31; 31; 31; 31; 31; 31; 31; 31; 31; 31; 31; 31; 31;
   31; 31; 31; 31; 31; 31; 31; 31; 31; 31; 31; 31; 31; 31; 31; 31; 31; 31;
   31; 31; 31; 31; 31; 3]%nat.

Definition initialMul : nat := 27.

Module PrimeFieldElement.

(** [func (dest *PrimeFieldElement) SetUint64(x uint64)] *)
Definition SetUint64 (dest : loc) (x : Z) : M unit :=
  store (Pa dest) fp751Zero;;
  v ← load (Pa dest);
  store (Pa dest) (<[0%nat := x mod word]> v);;
  va ← load (Pa dest);
  let xRR := fp751Mul va montgomeryRsq in
  store (Pa dest) (fp751MontgomeryReduce xRR).

(** [func (dest *PrimeFieldElement) Mul(lhs, rhs *PrimeFieldElement)] *)
Definition Mul (dest lhs rhs : loc) : M unit :=
  va ← load (Pa lhs);
  vb ← load (Pa rhs);
  let ab := fp751Mul va vb in
  store (Pa dest) (fp751MontgomeryReduce ab).

(** [func (dest *PrimeFieldElement) Square(x *PrimeFieldElement)] *)
Definition Square (dest x : loc) : M unit :=
  va ← load (Pa x);
  vb ← load (Pa x);
  let ab := fp751Mul va vb in
  store (Pa dest) (fp751MontgomeryReduce ab).

(** [func (dest *PrimeFieldElement) Pow2k(x *PrimeFieldElement, k uint8)] *)
Definition Pow2k (dest x : loc) (k : nat) : M unit :=
  Square dest x;;
  for_ 1 k (fun _ _ => Square dest dest) tt.

(** [func (dest *PrimeFieldElement) Add(lhs, rhs *PrimeFieldElement)] *)
Definition Add (dest lhs rhs : loc) : M unit :=
  vx ← load (Pa lhs);
  vy ← load (Pa rhs);
  store (Pa dest) (fp751AddReduced vx vy).

(** [func (dest *PrimeFieldElement) Sub(lhs, rhs *PrimeFieldElement)] *)
Definition Sub (dest lhs rhs : loc) : M unit :=
  vx ← load (Pa lhs);
  vy ← load (Pa rhs);
  store (Pa dest) (fp751SubReduced vx vy).

(** [func (lhs *PrimeFieldElement) VartimeEq(rhs *PrimeFieldElement) bool] *)
Definition VartimeEq (lhs rhs : loc) : M bool :=
  x ← load (Pa lhs);
  y ← load (Pa rhs);
  vartimeEq x y.

(** [func (dest *PrimeFieldElement) P34(x *PrimeFieldElement)] *)
Definition P34 (dest x : loc) : M unit :=
  lookup ← alloc_array 16 (OPrime zeroP);
  xx ← alloc (OPrime zeroP);
  Square xx x;;
  l0 ← elem lookup 16 0;
  vx ← load_prime x;
  store_prime l0 vx;;
  for_ 1 16
    (fun i _ =>
       li ← elem lookup 16 i;
       lp ← elem lookup 16 (i - 1);
       Mul li lp xx)
    tt;;
  l ← elem lookup 16 (initialMul / 2);
  v ← load_prime l;
  store_prime dest v;;
  for_ 0 137
    (fun i _ =>
       k ← index powStrategy i;
       Pow2k dest dest k;;
       m ← index mulStrategy i;
       lm ← elem lookup 16 (m / 2);
       Mul dest dest lm)
    tt;;
  release 17.

(** [func (dest *PrimeFieldElement) Sqrt(x *PrimeFieldElement)] *)
Definition Sqrt (dest x : loc) : M unit :=
  vx ← load_prime x;
  tmp_x ← alloc (OPrime vx);
  P34 dest x;;
  Mul dest dest tmp_x;;
  release 1.

(** [func (dest *PrimeFieldElement) Inv(x *PrimeFieldElement)] *)
Definition Inv (dest x : loc) : M unit :=
  vx ← load_prime x;
  tmp_x ← alloc (OPrime vx);
  Square dest x;;
  P34 dest dest;;
  Square dest dest;;
  Mul dest dest tmp_x;;
  release 1.

End PrimeFieldElement.

(** ** Extension field *)

Module ExtensionFieldElement.

(** [func (dest *ExtensionFieldElement) Mul(lhs, rhs *ExtensionFieldElement)] *)
Definition Mul (dest lhs rhs : loc) : M unit :=
  let a := Ea lhs in
  let b := Eb lhs in
  let c := Ea rhs in
  let d := Eb rhs in
  va ← load a; vc ← load c;
  let ac := fp751Mul va vc in
  vb ← load b; vd ← load d;
  let bd := fp751Mul vb vd in
  vb ← load b; va ← load a;
  let b_minus_a := fp751SubReduced vb va in
  vc ← load c; vd ← load d;
  let c_minus_d := fp751SubReduced vc vd in
  let ad_plus_bc := fp751Mul b_minus_a c_minus_d in
  let ad_plus_bc := fp751X2AddLazy ad_plus_bc ac in
  let ad_plus_bc := fp751X2AddLazy ad_plus_bc bd in
  store (Eb dest) (fp751MontgomeryReduce ad_plus_bc);;
  let ac_minus_bd := fp751X2SubLazy ac bd in
  store (Ea dest) (fp751MontgomeryReduce ac_minus_bd).

(** [func (dest *ExtensionFieldElement) Inv(x *ExtensionFieldElement)] *)
Definition Inv (dest x : loc) : M unit :=
  let a := Ea x in
  let b := Eb x in
  asq_plus_bsq ← alloc (OPrime zeroP);
  va ← load a; va' ← load a;
  let asq := fp751Mul va va' in
  vb ← load b; vb' ← load b;
  let bsq := fp751Mul vb vb' in
  let asq := fp751X2AddLazy asq bsq in
  store (Pa asq_plus_bsq) (fp751MontgomeryReduce asq);;
  asq_plus_bsq_inv ← alloc (OPrime zeroP);
  PrimeFieldElement.Inv asq_plus_bsq_inv asq_plus_bsq;;
  let c := Pa asq_plus_bsq_inv in
  va ← load a; vc ← load c;
  let ac := fp751Mul va vc in
  store (Ea dest) (fp751MontgomeryReduce ac);;
  let minus_b := fp751Zero in
  vb ← load b;
  let minus_b := fp751SubReduced minus_b vb in
  vc ← load c;
  let minus_bc := fp751Mul minus_b vc in
  store (Eb dest) (fp751MontgomeryReduce minus_bc);;
  release 2.

(** [func (dest *ExtensionFieldElement) Square(x *ExtensionFieldElement)] *)
Definition Square (dest x : loc) : M unit :=
  let a := Ea x in
  let b := Eb x in
  va ← load a; va' ← load a;
  let a2 := fp751AddReduced va va' in
  va ← load a; vb ← load b;
  let a_plus_b := fp751AddReduced va vb in
  va ← load a; vb ← load b;
  let a_minus_b := fp751SubReduced va vb in
  let asq_minus_bsq := fp751Mul a_plus_b a_minus_b in
  vb ← load b;
  let ab2 := fp751Mul a2 vb in
  store (Ea dest) (fp751MontgomeryReduce asq_minus_bsq);;
  store (Eb dest) (fp751MontgomeryReduce ab2).

(** [func (dest *ExtensionFieldElement) Add(lhs, rhs *ExtensionFieldElement)] *)
Definition Add (dest lhs rhs : loc) : M unit :=
  vx ← load (Ea lhs); vy ← load (Ea rhs);
  store (Ea dest) (fp751AddReduced vx vy);;
  vx ← load (Eb lhs); vy ← load (Eb rhs);
  store (Eb dest) (fp751AddReduced vx vy).

(** [func (dest *ExtensionFieldElement) Sub(lhs, rhs *ExtensionFieldElement)] *)
Definition Sub (dest lhs rhs : loc) : M unit :=
  vx ← load (Ea lhs); vy ← load (Ea rhs);
  store (Ea dest) (fp751SubReduced vx vy);;
  vx ← load (Eb lhs); vy ← load (Eb rhs);
  store (Eb dest) (fp751SubReduced vx vy).

(** [func (lhs *ExtensionFieldElement) VartimeEq(rhs *ExtensionFieldElement) bool];
    [&&] evaluates its right operand only when the left one is true. *)
Definition VartimeEq (lhs rhs : loc) : M bool :=
  xa ← load (Ea lhs);
  ya ← load (Ea rhs);
  r ← vartimeEq xa ya;
  emit (EvBranch r);;
  if (r : bool)
  then (xb ← load (Eb lhs); yb ← load (Eb rhs); vartimeEq xb yb)
  else mret false.

End ExtensionFieldElement.

(** ** What the methods leave in their destination

    The value each method stores, as a function of the values its operands
    hold on entry (lemmas [Mul_exec], [P34_exec], ... relate the methods to
    these functions, whatever the aliasing). *)

Definition mulP (x y : PrimeFieldElement) : PrimeFieldElement :=
  PrimeElt (fp751MontgomeryReduce (fp751Mul (pf_a x) (pf_a y))).

Definition squareP (x : PrimeFieldElement) : PrimeFieldElement := mulP x x.

Definition pow2kP (x : PrimeFieldElement) (k : nat) : PrimeFieldElement :=
  Nat.iter (k - 1) squareP (squareP x).

Definition addP (x y : PrimeFieldElement) : PrimeFieldElement :=
  PrimeElt (fp751AddReduced (pf_a x) (pf_a y)).

Definition subP (x y : PrimeFieldElement) : PrimeFieldElement :=
  PrimeElt (fp751SubReduced (pf_a x) (pf_a y)).

(** The lookup table of [P34]: [cur], [cur*xx], [cur*xx*xx], ... *)
Fixpoint odd_powers (n : nat) (cur xx : PrimeFieldElement) : list PrimeFieldElement :=
  match n with
  | O => []
  | S k => cur :: odd_powers k (mulP cur xx) xx
  end.

Definition chain_step (tbl : list PrimeFieldElement) (acc : PrimeFieldElement)
    (km : nat * nat) : PrimeFieldElement :=
  mulP (pow2kP acc (fst km)) (nth (snd km / 2) tbl zeroP).

Definition p34P (x : PrimeFieldElement) : PrimeFieldElement :=
  let tbl := odd_powers 16 x (squareP x) in
  fold_left (chain_step tbl) (zip powStrategy mulStrategy)
    (nth (initialMul / 2) tbl zeroP).

Definition sqrtP (x : PrimeFieldElement) : PrimeFieldElement := mulP (p34P x) x.

Definition invP (x : PrimeFieldElement) : PrimeFieldElement :=
  mulP (squareP (p34P (squareP x))) x.

Definition mulE (x y : ExtensionFieldElement) : ExtensionFieldElement :=
  let ac := fp751Mul (ef_a x) (ef_a y) in
  let bd := fp751Mul (ef_b x) (ef_b y) in
  let b_minus_a := fp751SubReduced (ef_b x) (ef_a x) in
  let c_minus_d := fp751SubReduced (ef_a y) (ef_b y) in
  let ad_plus_bc :=
    fp751X2AddLazy (fp751X2AddLazy (fp751Mul b_minus_a c_minus_d) ac) bd in
  ExtElt (fp751MontgomeryReduce (fp751X2SubLazy ac bd))
         (fp751MontgomeryReduce ad_plus_bc).

Definition squareE (x : ExtensionFieldElement) : ExtensionFieldElement :=
  let a2 := fp751AddReduced (ef_a x) (ef_a x) in
  let a_plus_b := fp751AddReduced (ef_a x) (ef_b x) in
  let a_minus_b := fp751SubReduced (ef_a x) (ef_b x) in
  ExtElt (fp751MontgomeryReduce (fp751Mul a_plus_b a_minus_b))
         (fp751MontgomeryReduce (fp751Mul a2 (ef_b x))).

Definition invE (x : ExtensionFieldElement) : ExtensionFieldElement :=
  let asq := fp751X2AddLazy (fp751Mul (ef_a x) (ef_a x)) (fp751Mul (ef_b x) (ef_b x)) in
  let c := pf_a (invP (PrimeElt (fp751MontgomeryReduce asq))) in
  let minus_b := fp751SubReduced fp751Zero (ef_b x) in
  ExtElt (fp751MontgomeryReduce (fp751Mul (ef_a x) c))
         (fp751MontgomeryReduce (fp751Mul minus_b c)).

Definition addE (x y : ExtensionFieldElement) : ExtensionFieldElement :=
  ExtElt (fp751AddReduced (ef_a x) (ef_a y)) (fp751AddReduced (ef_b x) (ef_b y)).

Definition subE (x y : ExtensionFieldElement) : ExtensionFieldElement :=
  ExtElt (fp751SubReduced (ef_a x) (ef_a y)) (fp751SubReduced (ef_b x) (ef_b y)).

Definition eqP (x y : fp751Element) : bool :=
  bool_decide (fp751StrongReduce x = fp751StrongReduce y).

(** ** Running a method *)

(** [m], started on the store [h], returns [a] and leaves the store [h'],
    whatever was observed before. *)
Definition exec {A : Type} (m : M A) (h : list object) (a : A) (h' : list object) : Prop :=
  forall t, exists t', m (State h t) = Some (a, State h' t').

(** The object a finished call leaves at [l] ([None]: the call panicked, or
    nothing is allocated at [l]). *)
Definition final {A : Type} (m : M A) (h : list object) (l : loc) : option object :=
  match m (State h []) with
  | Some (_, s) => heap s !! l
  | None => None
  end.

Definition is_prime (o : object) : Prop := exists x, o = OPrime x.

Definition is_ext (o : object) : Prop := exists x, o = OExt x.

(** Aliasing safety of a method [op dest x]: a call whose destination may
    alias its operand finishes, and leaves in its destination what a call
    on distinct storage ([dest' <> x']) leaves there, the operand holding
    the same value in both. *)
Definition alias_safe_unary (T : object -> Prop) (op : loc -> loc -> M unit) : Prop :=
  forall (h h' : list object) (dest x dest' x' : loc) (vx d d' : object),
    T vx -> T d -> T d' ->
    h !! x = Some vx -> h !! dest = Some d ->
    h' !! x' = Some vx -> h' !! dest' = Some d' ->
    dest' <> x' ->
    is_Some (final (op dest x) h dest)
    /\ final (op dest x) h dest = final (op dest' x') h' dest'.

(** The same for a method [op dest lhs rhs]: [dest], [lhs] and [rhs] may
    alias one another in any way. *)
Definition alias_safe_binary (T : object -> Prop) (op : loc -> loc -> loc -> M unit) : Prop :=
  forall (h h' : list object) (dest lhs rhs dest' lhs' rhs' : loc) (vl vr d d' : object),
    T vl -> T vr -> T d -> T d' ->
    h !! lhs = Some vl -> h !! rhs = Some vr -> h !! dest = Some d ->
    h' !! lhs' = Some vl -> h' !! rhs' = Some vr -> h' !! dest' = Some d' ->
    dest' <> lhs' -> dest' <> rhs' -> lhs' <> rhs' ->
    is_Some (final (op dest lhs rhs) h dest)
    /\ final (op dest lhs rhs) h dest = final (op dest' lhs' rhs') h' dest'.

(** What a call lets observe ([None]: it panicked). *)
Definition leak {A : Type} (m : M A) (h : list object) : option (list event) :=
  match m (State h []) with
  | Some (_, s) => Some (trace s)
  | None => None
  end.

(** Two stores of one layout: the same cells, holding objects of the same
    types, and any values. *)
Definition kind (o : object) : bool :=
  match o with OPrime _ => true | OExt _ => false end.

Definition same_layout (h1 h2 : list object) : Prop := kind <$> h1 = kind <$> h2.

(** Constant time: on stores of one layout a call is observed the same,
    whatever values the stores hold. *)
Definition constant_time {A : Type} (m : M A) : Prop :=
  forall h1 h2, same_layout h1 h2 -> leak m h1 = leak m h2.

(** The step-wise form of [constant_time]: two computations that, from
    states of one layout and one trace, both panic or both finish in states
    of one layout and one trace. *)
Definition ct_rel {A : Type} (m1 m2 : M A) : Prop :=
  forall s1 s2, same_layout (heap s1) (heap s2) -> trace s1 = trace s2 ->
    match m1 s1, m2 s2 with
    | Some (_, s1'), Some (_, s2') =>
        same_layout (heap s1') (heap s2') /\ trace s1' = trace s2'
    | None, None => True
    | _, _ => False
    end.

(** The same, for computations whose result is public (an address, a table
    entry): the results agree too. *)
Definition ct_pub {A : Type} (m1 m2 : M A) : Prop :=
  forall s1 s2, same_layout (heap s1) (heap s2) -> trace s1 = trace s2 ->
    match m1 s1, m2 s2 with
    | Some (a1, s1'), Some (a2, s2') =>
        a1 = a2 /\ same_layout (heap s1') (heap s2') /\ trace s1' = trace s2'
    | None, None => True
    | _, _ => False
    end.

(** ** What a call writes, and what it costs *)

(** A method [op dest x] writes to its destination only: once the call has
    returned, every other cell of the store holds what it held, and no
    cell of the callee's frame is left ([None] beyond the caller's store). *)
Definition writes_dest_only_unary (T : object -> Prop) (op : loc -> loc -> M unit) : Prop :=
  forall (h : list object) (dest x l : loc) (vx d : object),
    T vx -> T d -> h !! x = Some vx -> h !! dest = Some d ->
    l <> dest -> final (op dest x) h l = h !! l.

Definition writes_dest_only_binary (T : object -> Prop) (op : loc -> loc -> loc -> M unit) : Prop :=
  forall (h : list object) (dest lhs rhs l : loc) (vl vr d : object),
    T vl -> T vr -> T d ->
    h !! lhs = Some vl -> h !! rhs = Some vr -> h !! dest = Some d ->
    l <> dest -> final (op dest lhs rhs) h l = h !! l.

(** The access pattern of a trace, read event by event: a store that
    comes right after two loads or more ends a product (what [Mul] and
    [Square] do around the multiplication primitive), a store right after
    one load ends a copy; any other event starts afresh. *)
Inductive phase : Type := Idle | Loaded1 | Loaded2.

Record tally : Type :=
  Tally { seen : phase; loads : nat; stores : nat; products : nat; copies : nat }.

Definition tally_step (c : tally) (e : event) : tally :=
  match e with
  | EvRead _ =>
      Tally (match seen c with Idle => Loaded1 | _ => Loaded2 end)
            (S (loads c)) (stores c) (products c) (copies c)
  | EvWrite _ =>
      Tally Idle (loads c) (S (stores c))
            (match seen c with Loaded2 => S (products c) | _ => products c end)
            (match seen c with Loaded1 => S (copies c) | _ => copies c end)
  | _ => Tally Idle (loads c) (stores c) (products c) (copies c)
  end.

Definition tally_of (t : list event) : tally :=
  fold_left tally_step t (Tally Idle 0 0 0 0).

(** [m], run after a trace read up to phase [ph], adds [l] loads, [s]
    stores, [p] products and [c] copies to the tally and leaves it in phase
    [ph'], whenever it returns. *)
Definition adds {A : Type} (m : M A) (ph ph' : phase) (l s p c : nat) : Prop :=
  forall st a st', m st = Some (a, st') ->
    exists t, trace st' = trace st ++ t
      /\ forall c0, seen c0 = ph ->
           fold_left tally_step t c0
           = Tally ph' (loads c0 + l) (stores c0 + s) (products c0 + p) (copies c0 + c).

(** f(i) + f(i+1) + ... + f(i+n-1) *)
Fixpoint sum_from (f : nat -> nat) (i n : nat) : nat :=
  match n with
  | O => O
  | S n' => (f i + sum_from f (S i) n')%nat
  end.

(** ** The field, and the reference definitions *)

(** The element of F_p that a residue in Montgomery form represents:
    [x] stands for x*R^-1 mod p. *)
Definition to_Fp (x : fp751Element) : Z := (val x * radix_inv) mod p751.

(** A residue in canonical range, as the reduced primitives return it. *)
Definition canonical (x : fp751Element) : Prop :=
  0 <= val x < p751 /\ x = of_Z (val x).

(** Residues congruent modulo p: they stand for one element of F_p. *)
Definition congruent (x y : fp751Element) : Prop := val x mod p751 = val y mod p751.

Definition congruentE (x y : ExtensionFieldElement) : Prop :=
  congruent (ef_a x) (ef_a y) /\ congruent (ef_b x) (ef_b y).

(** A residue in [0, 2p), the range in which field elements live (the one
    from which [vartimeEq] strong-reduces). *)
Definition in_range (x : fp751Element) : Prop := 0 <= val x < 2 * p751.

Definition in_rangeE (x : ExtensionFieldElement) : Prop :=
  in_range (ef_a x) /\ in_range (ef_b x).

(** The exponent of [P34]. *)
Definition P34_exponent : Z := (p751 - 3) / 4.

(** Naive square-and-multiply, the exponent read from its leading bit
    down: a squaring per bit, and a multiplication by [x] for each bit set. *)
Fixpoint square_and_multiply (x : PrimeFieldElement) (e : positive) : PrimeFieldElement :=
  match e with
  | xH => x
  | xO e' => squareP (square_and_multiply x e')
  | xI e' => mulP (squareP (square_and_multiply x e')) x
  end.

(** The exponent a strategy reaches from [e]: [k] doublings (one at least,
    as [Pow2k] squares once before it looks at [k]) and the addition of [m]
    at each step. *)
Definition chain_exponent (steps : list (nat * nat)) (e : Z) : Z :=
  fold_left (fun e km => e * 2 ^ Z.of_nat (S (fst km - 1)) + (2 * Z.of_nat (snd km / 2) + 1))
    steps e.

(** The product by the direct formula (ac - bd) + (ad + bc)i, with four
    multiplications of the prime field. *)
Definition direct_product (lhs rhs : ExtensionFieldElement) : ExtensionFieldElement :=
  let a := PrimeElt (ef_a lhs) in
  let b := PrimeElt (ef_b lhs) in
  let c := PrimeElt (ef_a rhs) in
  let d := PrimeElt (ef_b rhs) in
  ExtElt (pf_a (subP (mulP a c) (mulP b d)))
         (pf_a (addP (mulP a d) (mulP b c))).

(** The one of the prime field in Montgomery form, and of the extension. *)
Definition oneP : PrimeFieldElement := PrimeElt montgomeryR.

Definition oneE : ExtensionFieldElement := ExtElt montgomeryR fp751Zero.

(** The composite literal [ExtensionFieldElement{1,0}]: limb value 1 in the
    [a] coordinate, 0 in the [b] coordinate. *)
Definition literal_one : ExtensionFieldElement :=
  ExtElt (<[0%nat := 1]> fp751Zero) fp751Zero.

(** [x] represents a square of F_p. *)
Definition quadratic_residue (x : PrimeFieldElement) : Prop :=
  exists r : Z, (r * r) mod p751 = to_Fp (pf_a x).

(** The element of F_p a [PrimeFieldElement] stands for. *)
Definition reprP (x : PrimeFieldElement) : Z := to_Fp (pf_a x).

(** [y] stands for the [e]-th power of [b] in F_p. *)
Definition is_power (b : Z) (y : PrimeFieldElement) (e : Z) : Prop :=
  0 <= e /\ reprP y = b ^ e mod p751.

(** Two in Montgomery form, and stores to run the methods on. *)
Definition twoP : PrimeFieldElement := addP oneP oneP.

Definition prime_store : list object := [OPrime twoP; OPrime oneP; OPrime zeroP].

Definition ext_store : list object :=
  [OExt (ExtElt (pf_a twoP) montgomeryR); OExt oneE; OExt oneE; OExt literal_one].

(** ** A primality certificate for p

    p + 1 = 2^372 * 3^239 is smooth.  In the ring Z[i]/(p) an element of
    order p + 1 certifies that p is prime; the arithmetic of the ring is
    run on machine words ([BigZ]) and read back in [Z]. *)

Definition gi_mul (x y : Z * Z) : Z * Z :=
  (fst x * fst y - snd x * snd y, fst x * snd y + snd x * fst y).

Definition gi_red (m : Z) (x : Z * Z) : Z * Z := (fst x mod m, snd x mod m).

Definition gi_one : Z * Z := (1, 0).

Fixpoint gi_pow (x : Z * Z) (n : nat) : Z * Z :=
  match n with
  | O => gi_one
  | S k => gi_mul x (gi_pow x k)
  end.

Fixpoint gi_powm (m : Z) (x : Z * Z) (e : positive) : Z * Z :=
  match e with
  | xH => gi_red m x
  | xO e' => let h := gi_powm m x e' in gi_red m (gi_mul h h)
  | xI e' => let h := gi_powm m x e' in gi_red m (gi_mul (gi_red m (gi_mul h h)) x)
  end.

Definition gi_gap (x : Z * Z) : Z := (fst x - 1) * (fst x - 1) + snd x * snd x.

Definition zbox (r : Z) : list (Z * Z) :=
  let side := map Z.of_nat (seq 0 (Z.to_nat r)) in list_prod side side.

Definition unit_power (r : Z) (g : Z * Z) (k : nat) : Prop :=
  gi_red r (gi_pow g k) = gi_one.

Definition big_mul (x y : bigZ * bigZ) : bigZ * bigZ :=
  (BigZ.sub (BigZ.mul (fst x) (fst y)) (BigZ.mul (snd x) (snd y)),
   BigZ.add (BigZ.mul (fst x) (snd y)) (BigZ.mul (snd x) (fst y))).

Definition big_red (m : bigZ) (x : bigZ * bigZ) : bigZ * bigZ :=
  (BigZ.modulo (fst x) m, BigZ.modulo (snd x) m).

Fixpoint big_powm (m : bigZ) (x : bigZ * bigZ) (e : positive) : bigZ * bigZ :=
  match e with
  | xH => big_red m x
  | xO e' => let h := big_powm m x e' in big_red m (big_mul h h)
  | xI e' => let h := big_powm m x e' in big_red m (big_mul (big_red m (big_mul h h)) x)
  end.

Definition big_val (x : bigZ * bigZ) : Z * Z := (BigZ.to_Z (fst x), BigZ.to_Z (snd x)).

Definition big_of (x : Z * Z) : bigZ * bigZ := (BigZ.of_Z (fst x), BigZ.of_Z (snd x)).

Definition gi_eqb (x y : Z * Z) : bool := (fst x =? fst y) && (snd x =? snd y).

Definition lucas_check (N : Z) (g : Z * Z) (e e2 e3 : positive) : bool :=
  let m := BigZ.of_Z N in
  let b := big_of g in
  gi_eqb (big_val (big_powm m b e)) gi_one
  && (Z.gcd (gi_gap (big_val (big_powm m b e2))) N =? 1)
  && (Z.gcd (gi_gap (big_val (big_powm m b e3))) N =? 1).

Definition p751_succ_pos : positive := Eval vm_compute in Z.to_pos (p751 + 1).

Definition p751_half_pos : positive := Eval vm_compute in Z.to_pos ((p751 + 1) / 2).

Definition p751_third_pos : positive := Eval vm_compute in Z.to_pos ((p751 + 1) / 3).

(** An element of order p + 1: (2 + 3i)^(p-1). *)
Definition p751_gen : Z * Z :=
  Eval vm_compute in
    big_val (big_powm (BigZ.of_Z p751) (big_of (2, 3)) (Z.to_pos (p751 - 1))).

(** * Lemmas *)

(** ** Limb arrays *)

Lemma word_pos : 0 < word.
Proof. reflexivity. Qed.

Lemma val_cons d x : val (d :: x) = d + word * val x.
Proof. reflexivity. Qed.

Lemma val_limbs n v : val (limbs n v) = v mod word ^ Z.of_nat n.
Proof.
  revert v. induction n as [|n IH]; intros v.
  - simpl. rewrite Z.mod_1_r. reflexivity.
  - cbn [limbs]. rewrite val_cons, IH, Nat2Z.inj_succ, Z.pow_succ_r by lia.
    rewrite Z.rem_mul_r; [reflexivity|discriminate|].
    apply Z.pow_pos_nonneg; [reflexivity|lia].
Qed.

Lemma word_pow_radix : word ^ Z.of_nat fp751NumWords = radix.
Proof. reflexivity. Qed.

Lemma val_of_Z v : 0 <= v < radix -> val (of_Z v) = v.
Proof.
  intros Hv. unfold of_Z. rewrite val_limbs, word_pow_radix.
  apply Z.mod_small, Hv.
Qed.

Lemma limbs_length n v : length (limbs n v) = n.
Proof. revert v. induction n as [|n IH]; intros v; simpl; [reflexivity|]. rewrite IH. reflexivity. Qed.

Lemma limbs_range n v : Forall (fun limb => 0 <= limb < word) (limbs n v).
Proof.
  revert v. induction n as [|n IH]; intros v; simpl; constructor.
  - apply Z.mod_pos_bound, word_pos.
  - apply IH.
Qed.

Lemma wf_of_Z v : wf_elem (of_Z v).
Proof. split; [apply limbs_length|apply limbs_range]. Qed.

Lemma limbs_val x :
  Forall (fun limb => 0 <= limb < word) x -> limbs (length x) (val x) = x.
Proof.
  induction 1 as [|d x Hd Hx IH]; [reflexivity|].
  cbn [length limbs]. rewrite val_cons. pose proof word_pos as Hw.
  replace (d + word * val x) with (d + val x * word) by ring. f_equal.
  - rewrite Z.mod_add by lia. apply Z.mod_small, Hd.
  - rewrite Z.div_add by lia.
    rewrite (Z.div_small d) by exact Hd. exact IH.
Qed.

Lemma of_Z_val x : wf_elem x -> of_Z (val x) = x.
Proof. intros [Hlen Hx]. unfold of_Z. rewrite <- Hlen. apply limbs_val, Hx. Qed.

Lemma val_nonneg x : Forall (fun limb => 0 <= limb < word) x -> 0 <= val x.
Proof.
  induction 1 as [|d x Hd Hx IH]; [reflexivity|].
  rewrite val_cons. pose proof word_pos. nia.
Qed.

Lemma val_bound x :
  Forall (fun limb => 0 <= limb < word) x -> val x < word ^ Z.of_nat (length x).
Proof.
  induction 1 as [|d x Hd Hx IH]; [reflexivity|].
  rewrite val_cons. cbn [length]. rewrite Nat2Z.inj_succ, Z.pow_succ_r by lia.
  pose proof word_pos. nia.
Qed.

Lemma val_range x : wf_elem x -> 0 <= val x < radix.
Proof.
  intros [Hlen Hx]. split; [apply val_nonneg, Hx|].
  rewrite <- word_pow_radix, <- Hlen. apply val_bound, Hx.
Qed.

Lemma val_zero : val fp751Zero = 0.
Proof. reflexivity. Qed.

(** ** The modulus is prime *)

Lemma gi_mul_comm x y : gi_mul x y = gi_mul y x.
Proof. destruct x, y; unfold gi_mul; simpl; f_equal; ring. Qed.

Lemma gi_mul_assoc x y z : gi_mul x (gi_mul y z) = gi_mul (gi_mul x y) z.
Proof. destruct x, y, z; unfold gi_mul; simpl; f_equal; ring. Qed.

Lemma gi_mul_1_l x : gi_mul gi_one x = x.
Proof. destruct x; unfold gi_mul, gi_one; simpl; f_equal; ring. Qed.

Lemma gi_mul_1_r x : gi_mul x gi_one = x.
Proof. rewrite gi_mul_comm. apply gi_mul_1_l. Qed.

Lemma gi_red_mul_l m x y : gi_red m (gi_mul (gi_red m x) y) = gi_red m (gi_mul x y).
Proof.
  destruct x as [a b], y as [c d]; unfold gi_red, gi_mul; simpl; f_equal.
  - rewrite Zminus_mod, !Zmult_mod_idemp_l, <- Zminus_mod. reflexivity.
  - rewrite Zplus_mod, !Zmult_mod_idemp_l, <- Zplus_mod. reflexivity.
Qed.

Lemma gi_red_mul_r m x y : gi_red m (gi_mul x (gi_red m y)) = gi_red m (gi_mul x y).
Proof. rewrite gi_mul_comm, gi_red_mul_l, gi_mul_comm. reflexivity. Qed.

Lemma gi_red_mul m x y : gi_red m (gi_mul (gi_red m x) (gi_red m y)) = gi_red m (gi_mul x y).
Proof. rewrite gi_red_mul_l, gi_red_mul_r. reflexivity. Qed.

Lemma gi_red_divide r m x : 0 < r -> 0 < m -> (r | m) -> gi_red r (gi_red m x) = gi_red r x.
Proof.
  intros Hr Hm Hd. destruct x as [a b]; unfold gi_red; simpl.
  rewrite !Z.mod_mod_divide by exact Hd. reflexivity.
Qed.

Lemma gi_red_one r : 1 < r -> gi_red r gi_one = gi_one.
Proof.
  intros Hr. unfold gi_red, gi_one; simpl.
  rewrite Z.mod_1_l, Z.mod_0_l by lia. reflexivity.
Qed.

Lemma gi_pow_add x a b : gi_pow x (a + b) = gi_mul (gi_pow x a) (gi_pow x b).
Proof.
  induction a as [|a IH]; simpl.
  - rewrite gi_mul_1_l. reflexivity.
  - rewrite IH, gi_mul_assoc. reflexivity.
Qed.

Lemma gi_pow_mul x a b : gi_pow x (a * b) = gi_pow (gi_pow x a) b.
Proof.
  induction b as [|b IH].
  - rewrite Nat.mul_0_r. reflexivity.
  - rewrite Nat.mul_succ_r, Nat.add_comm, gi_pow_add, IH. reflexivity.
Qed.

Lemma gi_powm_correct m x e : gi_powm m x e = gi_red m (gi_pow x (Pos.to_nat e)).
Proof.
  induction e as [e IH|e IH|]; cbn [gi_powm]; cbv zeta.
  - rewrite IH, gi_red_mul, gi_red_mul_l.
    rewrite Pos2Nat.inj_xI. cbn [gi_pow].
    replace (2 * Pos.to_nat e)%nat with (Pos.to_nat e + Pos.to_nat e)%nat by lia.
    rewrite gi_pow_add, (gi_mul_comm x). reflexivity.
  - rewrite IH, gi_red_mul.
    rewrite Pos2Nat.inj_xO.
    replace (2 * Pos.to_nat e)%nat with (Pos.to_nat e + Pos.to_nat e)%nat by lia.
    rewrite gi_pow_add. reflexivity.
  - cbn [gi_pow]. rewrite Pos2Nat.inj_1. cbn [gi_pow]. rewrite gi_mul_1_r. reflexivity.
Qed.

Section GaussianOrder.
Variables (r : Z) (g : Z * Z).
Hypothesis Hr : 1 < r.

Lemma unit_power_add a b : unit_power r g a -> unit_power r g b -> unit_power r g (a + b).
Proof.
  unfold unit_power. intros Ha Hb.
  rewrite gi_pow_add, <- gi_red_mul_l, Ha, gi_mul_1_l. exact Hb.
Qed.

Lemma unit_power_cancel a b : unit_power r g (a + b) -> unit_power r g a -> unit_power r g b.
Proof.
  unfold unit_power. intros Hab Ha.
  rewrite gi_pow_add, <- gi_red_mul_l, Ha, gi_mul_1_l in Hab. exact Hab.
Qed.

Lemma unit_power_mul a k : unit_power r g a -> unit_power r g (k * a).
Proof.
  intros Ha. induction k as [|k IH]; simpl.
  - unfold unit_power. simpl. apply gi_red_one, Hr.
  - apply unit_power_add; assumption.
Qed.

Lemma unit_power_gcd k n :
  (0 < k)%nat -> unit_power r g k -> unit_power r g n -> unit_power r g (Nat.gcd k n).
Proof.
  intros Hk Sk Sn.
  destruct (Nat.gcd_bezout_pos k n Hk) as (u & v & Huv).
  apply (unit_power_cancel (v * n)).
  - rewrite Nat.add_comm, <- Huv. apply unit_power_mul, Sk.
  - apply unit_power_mul, Sn.
Qed.

Lemma unit_power_collision n i j :
  (i < j)%nat -> (j <= n)%nat -> unit_power r g n ->
  gi_red r (gi_pow g i) = gi_red r (gi_pow g j) -> unit_power r g (j - i).
Proof.
  intros Hij Hjn Sn Heq.
  apply (unit_power_cancel n); [|exact Sn].
  unfold unit_power.
  replace (n + (j - i))%nat with ((n - i) + j)%nat by lia.
  rewrite gi_pow_add, <- gi_red_mul_r, <- Heq, gi_red_mul_r, <- gi_pow_add.
  replace (n - i + i)%nat with n by lia. exact Sn.
Qed.

Lemma gi_red_in_zbox x : In (gi_red r x) (zbox r).
Proof.
  assert (Hin : forall a, In (a mod r) (map Z.of_nat (seq 0 (Z.to_nat r)))).
  { intros a. apply in_map_iff. exists (Z.to_nat (a mod r)).
    pose proof (Z.mod_pos_bound a r ltac:(lia)) as Hb.
    split; [apply Z2Nat.id; lia|]. apply in_seq. lia. }
  destruct x as [a b]. unfold zbox, gi_red; simpl. apply in_prod; apply Hin.
Qed.

Lemma zbox_length : Z.of_nat (length (zbox r)) = r * r.
Proof.
  unfold zbox. rewrite length_prod, length_map, length_seq. lia.
Qed.

Lemma distinct_powers_bound n :
  (forall i j, (i < j < n)%nat -> gi_red r (gi_pow g i) <> gi_red r (gi_pow g j)) ->
  Z.of_nat n <= r * r.
Proof.
  intros Hinj. rewrite <- zbox_length. apply Nat2Z.inj_le.
  rewrite <- (length_seq n 0), <- (length_map (fun k => gi_red r (gi_pow g k))).
  apply NoDup_incl_length.
  - apply NoDup_map_NoDup_ForallPairs; [|apply seq_NoDup].
    intros x y Hx%in_seq Hy%in_seq Hxy.
    destruct (Nat.lt_trichotomy x y) as [Hlt|[Heq|Hgt]]; [|exact Heq|].
    + exfalso. apply (Hinj x y); [lia|exact Hxy].
    + exfalso. apply (Hinj y x); [lia|symmetry; exact Hxy].
  - intros z Hz. apply in_map_iff in Hz as (k & <- & _). apply gi_red_in_zbox.
Qed.

End GaussianOrder.

Section LucasCertificate.
Variables (N : Z) (e e2 e3 : positive) (g : Z * Z).
Hypothesis HN : 1 < N.
Hypothesis He : Z.pos e = N + 1.
Hypothesis Hord : gi_powm N g e = gi_one.
Hypothesis Hmax : forall d : Z, 0 < d -> (d | Z.pos e) -> d <> Z.pos e ->
  (d | Z.pos e2) \/ (d | Z.pos e3).
Hypothesis Hgap2 : Z.gcd (gi_gap (gi_powm N g e2)) N = 1.
Hypothesis Hgap3 : Z.gcd (gi_gap (gi_powm N g e3)) N = 1.

Lemma cert_unit_power r : 1 < r -> (r | N) -> unit_power r g (Pos.to_nat e).
Proof.
  intros Hr Hd. unfold unit_power.
  rewrite <- (gi_red_divide r N) by (try lia; exact Hd).
  rewrite <- gi_powm_correct, Hord. apply gi_red_one, Hr.
Qed.

Lemma cert_gap r c :
  1 < r -> (r | N) -> Z.gcd (gi_gap (gi_powm N g c)) N = 1 ->
  ~ unit_power r g (Pos.to_nat c).
Proof.
  intros Hr Hd Hgap Hc. unfold unit_power in Hc.
  rewrite <- (gi_red_divide r N) in Hc by (try lia; exact Hd).
  rewrite <- gi_powm_correct in Hc.
  destruct (gi_powm N g c) as [a b]. unfold gi_red, gi_one, gi_gap in *. simpl in *.
  injection Hc as Ha Hb.
  assert (Ha' : (r | a - 1)).
  { apply Z.mod_divide; [lia|]. rewrite Zminus_mod, Ha, Z.mod_1_l by lia. apply Z.mod_0_l. lia. }
  assert (Hb' : (r | b)) by (apply Z.mod_divide; [lia|exact Hb]).
  assert (Hg : (r | 1)).
  { rewrite <- Hgap. apply Z.gcd_greatest; [|exact Hd].
    apply Z.divide_add_r; apply Z.divide_mul_l; assumption. }
  apply Z.divide_1_r in Hg. lia.
Qed.

Lemma nat_divide_of_Z (d : nat) (c : positive) :
  (Z.of_nat d | Z.pos c) -> Nat.divide d (Pos.to_nat c).
Proof.
  intros [k Hk]. exists (Z.to_nat k).
  apply Nat2Z.inj. rewrite positive_nat_Z, Nat2Z.inj_mul, Z2Nat.id; [exact Hk|].
  destruct (Z_lt_le_dec k 0); [|assumption]. exfalso. nia.
Qed.

Lemma cert_divisor_bound r : 1 < r -> (r | N) -> N + 1 <= r * r.
Proof.
  intros Hr Hd. rewrite <- He, <- positive_nat_Z.
  apply (distinct_powers_bound r g Hr). intros i j Hij Heq.
  pose proof (cert_unit_power r Hr Hd) as Sn.
  assert (Sk : unit_power r g (j - i))
    by (apply unit_power_collision with (n := Pos.to_nat e); [lia|lia|exact Sn|exact Heq]).
  pose proof (unit_power_gcd r g Hr (j - i) (Pos.to_nat e) ltac:(lia) Sk Sn) as Sd.
  set (d := Nat.gcd (j - i) (Pos.to_nat e)) in *.
  assert (Hdn : Nat.divide d (Pos.to_nat e)) by apply Nat.gcd_divide_r.
  assert (Hdk : Nat.divide d (j - i)) by apply Nat.gcd_divide_l.
  assert (Hle : (d <= j - i)%nat) by (apply Nat.divide_pos_le; [lia|exact Hdk]).
  assert (Hpos : (0 < d)%nat).
  { destruct (Nat.eq_dec d 0%nat) as [E|]; [|lia]. rewrite E in Hdk.
    destruct Hdk as [q Hq]. lia. }
  destruct (Hmax (Z.of_nat d)) as [H2|H3].
  - lia.
  - destruct Hdn as [q Hq]. exists (Z.of_nat q).
    rewrite <- positive_nat_Z, Hq. lia.
  - rewrite <- positive_nat_Z. lia.
  - apply nat_divide_of_Z in H2 as [q Hq].
    apply (cert_gap r e2 Hr Hd Hgap2). rewrite Hq. apply unit_power_mul; assumption.
  - apply nat_divide_of_Z in H3 as [q Hq].
    apply (cert_gap r e3 Hr Hd Hgap3). rewrite Hq. apply unit_power_mul; assumption.
Qed.

Lemma lucas_certificate_prime : Z.prime N.
Proof.
  split; [exact HN|]. intros n Hn [k Hk].
  assert (Hkpos : 1 < k < N) by nia.
  destruct (Z_le_gt_dec n k) as [Hle|Hgt].
  - pose proof (cert_divisor_bound n ltac:(lia) ltac:(exists k; exact Hk)). nia.
  - pose proof (cert_divisor_bound k ltac:(lia) ltac:(exists n; lia)). nia.
Qed.

End LucasCertificate.

Lemma smooth_cofactor (a b : nat) : forall m d : Z,
  0 < m -> 0 < d -> m * d = 2 ^ Z.of_nat a * 3 ^ Z.of_nat b -> m <> 1 ->
  (2 | m) \/ (3 | m).
Proof.
  induction a as [|a IHa].
  - induction b as [|b IHb]; intros m d Hm Hd Heq Hne.
    + simpl in Heq. exfalso. nia.
    + rewrite Nat2Z.inj_succ, Z.pow_succ_r in Heq by lia.
      assert (H3 : (3 | m * d)) by (exists (2 ^ Z.of_nat 0 * 3 ^ Z.of_nat b); lia).
      apply (Z.divide_prime_mul _ _ 3 Z.prime_3) in H3 as [H3|[q Hq]]; [right; exact H3|].
      apply (IHb m q); try lia; nia.
  - intros m d Hm Hd Heq Hne.
    rewrite Nat2Z.inj_succ, Z.pow_succ_r in Heq by lia.
    assert (H2 : (2 | m * d)) by (exists (2 ^ Z.of_nat a * 3 ^ Z.of_nat b); lia).
    apply (Z.divide_prime_mul _ _ 2 Z.prime_2) in H2 as [H2|[q Hq]]; [left; exact H2|].
    apply (IHa m q); try lia; nia.
Qed.

Lemma smooth_proper_divisor (a b : nat) (E E2 E3 d : Z) :
  E = 2 ^ Z.of_nat a * 3 ^ Z.of_nat b -> E = 2 * E2 -> E = 3 * E3 ->
  0 < d -> (d | E) -> d <> E -> (d | E2) \/ (d | E3).
Proof.
  intros HE H2 H3 Hd [m Hm] Hne.
  assert (HEpos : 0 < E).
  { rewrite HE. apply Z.mul_pos_pos; apply Z.pow_pos_nonneg; lia. }
  assert (Hmpos : 0 < m) by nia.
  destruct (smooth_cofactor a b m d Hmpos Hd) as [[q Hq]|[q Hq]].
  - rewrite <- HE. lia.
  - intros ->. lia.
  - left. exists q. nia.
  - right. exists q. nia.
Qed.

Lemma big_val_mul x y : big_val (big_mul x y) = gi_mul (big_val x) (big_val y).
Proof.
  unfold big_val, big_mul, gi_mul; simpl.
  rewrite BigZ.spec_sub, BigZ.spec_add, !BigZ.spec_mul. reflexivity.
Qed.

Lemma big_val_red m x : big_val (big_red m x) = gi_red (BigZ.to_Z m) (big_val x).
Proof. unfold big_val, big_red, gi_red; simpl. rewrite !BigZ.spec_modulo. reflexivity. Qed.

Lemma big_val_powm m x e :
  big_val (big_powm m x e) = gi_powm (BigZ.to_Z m) (big_val x) e.
Proof.
  induction e as [e IH|e IH|]; simpl.
  - rewrite !big_val_red, !big_val_mul, !big_val_red, !big_val_mul, IH. reflexivity.
  - rewrite !big_val_red, !big_val_mul, IH. reflexivity.
  - apply big_val_red.
Qed.

Lemma big_val_of x : big_val (big_of x) = x.
Proof. destruct x; unfold big_val, big_of; simpl. rewrite !BigZ.spec_of_Z. reflexivity. Qed.

Lemma lucas_check_sound N g e e2 e3 :
  lucas_check N g e e2 e3 = true ->
  gi_powm N g e = gi_one /\
  Z.gcd (gi_gap (gi_powm N g e2)) N = 1 /\
  Z.gcd (gi_gap (gi_powm N g e3)) N = 1.
Proof.
  unfold lucas_check. rewrite !big_val_powm, big_val_of, BigZ.spec_of_Z.
  rewrite !andb_true_iff, !Z.eqb_eq. unfold gi_eqb. rewrite andb_true_iff, !Z.eqb_eq.
  intros [[[H1 H2] H3] H4]. repeat split; try assumption.
  destruct (gi_powm N g e); simpl in *; subst; reflexivity.
Qed.

Lemma p751_lucas_check :
  lucas_check p751 p751_gen p751_succ_pos p751_half_pos p751_third_pos = true.
Proof. vm_compute. reflexivity. Qed.

Lemma p751_prime : Z.prime p751.
Proof.
  destruct (lucas_check_sound _ _ _ _ _ p751_lucas_check) as (Hord & Hg2 & Hg3).
  apply (lucas_certificate_prime p751 p751_succ_pos p751_half_pos p751_third_pos p751_gen);
    try assumption.
  - vm_compute. reflexivity.
  - vm_compute. reflexivity.
  - intros d. apply (smooth_proper_divisor 372 239); vm_compute; reflexivity.
Qed.

(** ** Montgomery arithmetic *)

Lemma p751_range : 1 < p751 < radix.
Proof. split; vm_compute; reflexivity. Qed.

Lemma p751_mod4 : p751 mod 4 = 3.
Proof. vm_compute. reflexivity. Qed.

Lemma radix_inv_spec : (radix * radix_inv) mod p751 = 1.
Proof. vm_compute. reflexivity. Qed.

Lemma montgomeryR_val : val montgomeryR = radix mod p751.
Proof. vm_compute. reflexivity. Qed.

Lemma montgomeryRsq_val : val montgomeryRsq = (radix * radix) mod p751.
Proof. vm_compute. reflexivity. Qed.

Lemma mod_p751_range v : 0 <= v mod p751 < p751.
Proof. apply Z.mod_pos_bound. pose proof p751_range. lia. Qed.

Lemma val_reduced v : val (of_Z (v mod p751)) = v mod p751.
Proof.
  apply val_of_Z. pose proof (mod_p751_range v). pose proof p751_range. lia.
Qed.

Lemma canonical_reduced v : canonical (of_Z (v mod p751)).
Proof.
  unfold canonical. rewrite val_reduced. split; [apply mod_p751_range|reflexivity].
Qed.

Lemma val_MontgomeryReduce v :
  val (fp751MontgomeryReduce v) = (v * radix_inv) mod p751.
Proof. apply val_reduced. Qed.

Lemma val_AddReduced x y : val (fp751AddReduced x y) = (val x + val y) mod p751.
Proof. apply val_reduced. Qed.

Lemma val_SubReduced x y : val (fp751SubReduced x y) = (val x - val y) mod p751.
Proof. apply val_reduced. Qed.

Lemma to_Fp_range x : 0 <= to_Fp x < p751.
Proof. apply mod_p751_range. Qed.

Lemma to_Fp_mod x : to_Fp x mod p751 = to_Fp x.
Proof. apply Z.mod_small, to_Fp_range. Qed.

Lemma val_of_to_Fp x : (to_Fp x * radix) mod p751 = val x mod p751.
Proof.
  unfold to_Fp. rewrite Zmult_mod_idemp_l.
  replace (val x * radix_inv * radix) with (val x * (radix * radix_inv)) by ring.
  rewrite <- Zmult_mod_idemp_r, radix_inv_spec, Z.mul_1_r. reflexivity.
Qed.

Lemma to_Fp_zero_iff x : to_Fp x = 0 <-> val x mod p751 = 0.
Proof.
  split; intros H.
  - rewrite <- val_of_to_Fp, H. reflexivity.
  - unfold to_Fp. rewrite <- Zmult_mod_idemp_l, H. reflexivity.
Qed.

Lemma to_Fp_MontgomeryReduce v :
  to_Fp (fp751MontgomeryReduce v) = (v * radix_inv * radix_inv) mod p751.
Proof. unfold to_Fp. rewrite val_MontgomeryReduce, Zmult_mod_idemp_l. reflexivity. Qed.

Lemma to_Fp_AddReduced x y :
  to_Fp (fp751AddReduced x y) = (to_Fp x + to_Fp y) mod p751.
Proof.
  unfold to_Fp. rewrite val_AddReduced, Zmult_mod_idemp_l, <- Zplus_mod.
  f_equal. ring.
Qed.

Lemma to_Fp_SubReduced x y :
  to_Fp (fp751SubReduced x y) = (to_Fp x - to_Fp y) mod p751.
Proof.
  unfold to_Fp. rewrite val_SubReduced, Zmult_mod_idemp_l, <- Zminus_mod.
  f_equal. ring.
Qed.

Lemma reprP_mulP x y : reprP (mulP x y) = (reprP x * reprP y) mod p751.
Proof.
  unfold reprP, mulP. cbn [pf_a]. rewrite to_Fp_MontgomeryReduce.
  unfold to_Fp, fp751Mul. rewrite <- Zmult_mod. f_equal. ring.
Qed.

Lemma reprP_addP x y : reprP (addP x y) = (reprP x + reprP y) mod p751.
Proof. apply to_Fp_AddReduced. Qed.

Lemma reprP_subP x y : reprP (subP x y) = (reprP x - reprP y) mod p751.
Proof. apply to_Fp_SubReduced. Qed.

(** ** Powers in F_p *)

Lemma powm_mul a m n :
  0 <= m -> 0 <= n -> ((a ^ m mod p751) * (a ^ n mod p751)) mod p751 = a ^ (m + n) mod p751.
Proof. intros Hm Hn. rewrite <- Zmult_mod, <- Z.pow_add_r by assumption. reflexivity. Qed.

Lemma powm_pow a m n :
  0 <= m -> 0 <= n -> (a ^ m mod p751) ^ n mod p751 = a ^ (m * n) mod p751.
Proof. intros Hm Hn. rewrite Z.mod_pow_l, <- Z.pow_mul_r by assumption. reflexivity. Qed.

Lemma is_power_base x : is_power (reprP x) x 1.
Proof. split; [lia|]. rewrite Z.pow_1_r. symmetry. apply to_Fp_mod. Qed.

Lemma is_power_mulP b y1 y2 e1 e2 :
  is_power b y1 e1 -> is_power b y2 e2 -> is_power b (mulP y1 y2) (e1 + e2).
Proof.
  intros [H1 E1] [H2 E2]. split; [lia|].
  rewrite reprP_mulP, E1, E2. apply powm_mul; assumption.
Qed.

Lemma is_power_squareP b y e : is_power b y e -> is_power b (squareP y) (2 * e).
Proof.
  intros H. replace (2 * e) with (e + e) by ring. apply is_power_mulP; exact H.
Qed.

Lemma is_power_iter_squareP b y e n :
  is_power b y e -> is_power b (Nat.iter n squareP y) (e * 2 ^ Z.of_nat n).
Proof.
  intros H. induction n as [|n IH].
  - simpl. rewrite Z.mul_1_r. exact H.
  - cbn [Nat.iter]. rewrite Nat2Z.inj_succ, Z.pow_succ_r by lia.
    replace (e * (2 * 2 ^ Z.of_nat n)) with (2 * (e * 2 ^ Z.of_nat n)) by ring.
    apply is_power_squareP, IH.
Qed.

Lemma pow2kP_iter x k : pow2kP x k = Nat.iter (S (k - 1)) squareP x.
Proof. unfold pow2kP. rewrite Nat.iter_succ_r. reflexivity. Qed.

Lemma is_power_pow2kP b y e k :
  is_power b y e -> is_power b (pow2kP y k) (e * 2 ^ Z.of_nat (S (k - 1))).
Proof. intros H. rewrite pow2kP_iter. apply is_power_iter_squareP, H. Qed.

Lemma is_power_odd_powers b xx n : forall cur c i,
  is_power b cur c -> is_power b xx 2 -> (i < n)%nat ->
  is_power b (nth i (odd_powers n cur xx) zeroP) (c + 2 * Z.of_nat i).
Proof.
  induction n as [|n IH]; intros cur c i Hcur Hxx Hi; [lia|].
  destruct i as [|i]; cbn [odd_powers nth].
  - rewrite Z.add_0_r. exact Hcur.
  - replace (c + 2 * Z.of_nat (S i)) with ((c + 2) + 2 * Z.of_nat i) by lia.
    apply IH; [apply is_power_mulP; assumption|exact Hxx|lia].
Qed.

Lemma is_power_chain b tbl steps : forall acc e,
  (forall i, (i < 16)%nat -> is_power b (nth i tbl zeroP) (2 * Z.of_nat i + 1)) ->
  Forall (fun km => (snd km / 2 < 16)%nat) steps ->
  is_power b acc e ->
  is_power b (fold_left (chain_step tbl) steps acc) (chain_exponent steps e).
Proof.
  induction steps as [|[k m] steps IH]; intros acc e Htbl Hsteps Hacc; [exact Hacc|].
  apply Forall_cons in Hsteps as [Hm Hsteps]. cbn [fold_left chain_exponent].
  apply IH; [exact Htbl|exact Hsteps|]. unfold chain_step. cbn [fst snd] in *.
  apply is_power_mulP; [apply is_power_pow2kP, Hacc|apply Htbl, Hm].
Qed.

Lemma strategy_in_table :
  Forall (fun km => (snd km / 2 < 16)%nat) (zip powStrategy mulStrategy).
Proof. apply (bool_decide_unpack _). vm_compute. exact I. Qed.

Lemma strategy_exponent :
  chain_exponent (zip powStrategy mulStrategy) (2 * Z.of_nat (initialMul / 2) + 1)
  = P34_exponent.
Proof. vm_compute. reflexivity. Qed.

Lemma is_power_table x i :
  (i < 16)%nat ->
  is_power (reprP x) (nth i (odd_powers 16 x (squareP x)) zeroP) (2 * Z.of_nat i + 1).
Proof.
  intros Hi. rewrite Z.add_comm.
  apply is_power_odd_powers; [apply is_power_base| |exact Hi].
  apply (is_power_squareP _ _ 1), is_power_base.
Qed.

Lemma is_power_p34P x : is_power (reprP x) (p34P x) P34_exponent.
Proof.
  unfold p34P. rewrite <- strategy_exponent.
  apply is_power_chain.
  - intros i Hi. apply is_power_table, Hi.
  - apply strategy_in_table.
  - apply is_power_table. vm_compute. lia.
Qed.

Lemma is_power_square_and_multiply x e :
  is_power (reprP x) (square_and_multiply x e) (Z.pos e).
Proof.
  induction e as [e IH|e IH|]; cbn [square_and_multiply].
  - rewrite Pos2Z.inj_xI. apply is_power_mulP; [|apply is_power_base].
    apply is_power_squareP, IH.
  - rewrite Pos2Z.inj_xO. apply is_power_squareP, IH.
  - apply is_power_base.
Qed.

Lemma P34_exponent_pos : Z.pos (Z.to_pos P34_exponent) = P34_exponent.
Proof. vm_compute. reflexivity. Qed.

Lemma P34_exponent_facts :
  4 * P34_exponent + 1 = p751 - 2 /\ P34_exponent + 1 = (p751 + 1) / 4
  /\ 2 * ((p751 + 1) / 4) = (p751 - 1) / 2 + 1 /\ 2 * ((p751 - 1) / 2) = p751 - 1.
Proof. vm_compute. repeat split; reflexivity. Qed.

(** ** Running the monad *)

Lemma exec_ret {A : Type} (a : A) h : exec (mret a) h a h.
Proof. intros t. exists t. reflexivity. Qed.

Lemma exec_bind {A B : Type} (m : M A) (k : A -> M B) h a h1 b h2 :
  exec m h a h1 -> exec (k a) h1 b h2 -> exec (m ≫= k) h b h2.
Proof.
  intros H1 H2 t. destruct (H1 t) as [t1 E1]. destruct (H2 t1) as [t2 E2].
  exists t2. unfold mbind, M_bind. rewrite E1. exact E2.
Qed.

Lemma exec_det {A : Type} (m : M A) h a1 h1 a2 h2 :
  exec m h a1 h1 -> exec m h a2 h2 -> a1 = a2 /\ h1 = h2.
Proof.
  intros H1 H2. destruct (H1 []) as [t1 E1]. destruct (H2 []) as [t2 E2].
  rewrite E1 in E2. injection E2 as -> -> _. split; reflexivity.
Qed.

Lemma exec_final {A : Type} (m : M A) h a h' l :
  exec m h a h' -> final m h l = h' !! l.
Proof. intros H. destruct (H []) as [t E]. unfold final. rewrite E. reflexivity. Qed.

Lemma exec_emit e h : exec (emit e) h tt h.
Proof. intros t. eexists. reflexivity. Qed.

Lemma exec_get_obj h l o : h !! l = Some o -> exec (get_obj l) h o h.
Proof. intros H t. exists t. unfold get_obj. cbn [heap]. rewrite H. reflexivity. Qed.

Lemma exec_put_obj h l o : (l < length h)%nat -> exec (put_obj l o) h tt (<[l := o]> h).
Proof.
  intros H t. exists t. unfold put_obj. cbn [heap trace].
  destruct (decide (l < length h)%nat); [reflexivity|contradiction].
Qed.

Lemma exec_load_Pa h l x : h !! l = Some (OPrime x) -> exec (load (Pa l)) h (pf_a x) h.
Proof.
  intros H. unfold load.
  eapply exec_bind; [apply exec_emit|].
  eapply exec_bind; [apply exec_get_obj; exact H|]. apply exec_ret.
Qed.

Lemma exec_load_Ea h l x : h !! l = Some (OExt x) -> exec (load (Ea l)) h (ef_a x) h.
Proof.
  intros H. unfold load.
  eapply exec_bind; [apply exec_emit|].
  eapply exec_bind; [apply exec_get_obj; exact H|]. apply exec_ret.
Qed.

Lemma exec_load_Eb h l x : h !! l = Some (OExt x) -> exec (load (Eb l)) h (ef_b x) h.
Proof.
  intros H. unfold load.
  eapply exec_bind; [apply exec_emit|].
  eapply exec_bind; [apply exec_get_obj; exact H|]. apply exec_ret.
Qed.

Lemma exec_store_Pa h l x v :
  h !! l = Some (OPrime x) -> exec (store (Pa l) v) h tt (<[l := OPrime (PrimeElt v)]> h).
Proof.
  intros H. unfold store.
  eapply exec_bind; [apply exec_emit|].
  eapply exec_bind; [apply exec_get_obj; exact H|].
  apply exec_put_obj. eapply lookup_lt_Some, H.
Qed.

Lemma exec_store_Ea h l x v :
  h !! l = Some (OExt x) ->
  exec (store (Ea l) v) h tt (<[l := OExt (ExtElt v (ef_b x))]> h).
Proof.
  intros H. unfold store.
  eapply exec_bind; [apply exec_emit|].
  eapply exec_bind; [apply exec_get_obj; exact H|].
  apply exec_put_obj. eapply lookup_lt_Some, H.
Qed.

Lemma exec_store_Eb h l x v :
  h !! l = Some (OExt x) ->
  exec (store (Eb l) v) h tt (<[l := OExt (ExtElt (ef_a x) v)]> h).
Proof.
  intros H. unfold store.
  eapply exec_bind; [apply exec_emit|].
  eapply exec_bind; [apply exec_get_obj; exact H|].
  apply exec_put_obj. eapply lookup_lt_Some, H.
Qed.

Lemma exec_load_prime h l x : h !! l = Some (OPrime x) -> exec (load_prime l) h x h.
Proof.
  intros H. unfold load_prime.
  eapply exec_bind; [apply exec_load_Pa; exact H|]. destruct x. apply exec_ret.
Qed.

Lemma exec_store_prime h l x v :
  h !! l = Some (OPrime x) -> exec (store_prime l v) h tt (<[l := OPrime v]> h).
Proof. intros H. destruct v. eapply exec_store_Pa, H. Qed.

Lemma exec_alloc h o : exec (alloc o) h (length h) (h ++ [o]).
Proof. intros t. eexists. reflexivity. Qed.

Lemma exec_alloc_array h n o : exec (alloc_array n o) h (length h) (h ++ replicate n o).
Proof. intros t. eexists. reflexivity. Qed.

Lemma exec_release h n : exec (release n) h tt (take (length h - n) h).
Proof. intros t. eexists. reflexivity. Qed.

Lemma exec_release_frame h fr : exec (release (length fr)) (h ++ fr) tt h.
Proof.
  pose proof (exec_release (h ++ fr) (length fr)) as H.
  rewrite length_app, Nat.add_sub, take_app_length in H. exact H.
Qed.

Lemma exec_elem h base n i : (i < n)%nat -> exec (elem base n i) h (base + i)%nat h.
Proof.
  intros H. unfold elem. destruct (decide (i < n)%nat); [apply exec_ret|contradiction].
Qed.

Lemma exec_index {A : Type} (tbl : list A) i v h :
  tbl !! i = Some v -> exec (index tbl i) h v h.
Proof. intros H. unfold index. rewrite H. apply exec_ret. Qed.

Lemma exec_for_loop_done {A : Type} fuel i bound (body : nat -> A -> M A) acc h :
  (bound <= i)%nat -> exec (for_loop fuel i bound body acc) h acc h.
Proof.
  intros Hi. destruct fuel as [|fuel]; cbn [for_loop]; [apply exec_ret|].
  eapply exec_bind; [apply exec_emit|].
  destruct (Nat.ltb_spec i bound); [lia|apply exec_ret].
Qed.

Lemma exec_for_loop {A : Type} (body : nat -> A -> M A)
    (I : nat -> A -> list object -> Prop) bound :
  (forall i acc h, (i < bound)%nat -> I i acc h ->
     exists acc' h', exec (body i acc) h acc' h' /\ I (S i) acc' h') ->
  forall fuel i acc h, (i <= bound)%nat -> (bound - i < fuel)%nat -> I i acc h ->
    exists acc' h', exec (for_loop fuel i bound body acc) h acc' h' /\ I bound acc' h'.
Proof.
  intros Hbody. induction fuel as [|fuel IH]; intros i acc h Hi Hfuel HI; [lia|].
  cbn [for_loop]. destruct (Nat.ltb_spec i bound) as [Hlt|Hge].
  - destruct (Hbody i acc h Hlt HI) as (acc1 & h1 & E1 & I1).
    destruct (IH (S i) acc1 h1 ltac:(lia) ltac:(lia) I1) as (acc2 & h2 & E2 & I2).
    exists acc2, h2. split; [|exact I2].
    eapply exec_bind; [apply exec_emit|].
    eapply exec_bind; [exact E1|exact E2].
  - assert (i = bound) as -> by lia. exists acc, h. split; [|exact HI].
    eapply exec_bind; [apply exec_emit|]. apply exec_ret.
Qed.

Lemma exec_for {A : Type} (body : nat -> A -> M A)
    (I : nat -> A -> list object -> Prop) start bound acc h :
  (start <= bound)%nat -> I start acc h ->
  (forall i acc h, (start <= i < bound)%nat -> I i acc h ->
     exists acc' h', exec (body i acc) h acc' h' /\ I (S i) acc' h') ->
  exists acc' h', exec (for_ start bound body acc) h acc' h' /\ I bound acc' h'.
Proof.
  intros Hle HI Hbody. unfold for_.
  destruct (exec_for_loop body (fun i a h => (start <= i)%nat /\ I i a h) bound)
    with (fuel := S bound) (i := start) (acc := acc) (h := h)
    as (acc' & h' & E & _ & HI'); [|lia|lia|split; [lia|exact HI]|].
  - intros i a h0 Hi [Hs HIi].
    destruct (Hbody i a h0 ltac:(lia) HIi) as (a' & h1 & E & HI1).
    exists a', h1. split; [exact E|split; [lia|exact HI1]].
  - exists acc', h'. split; assumption.
Qed.

(** ** The methods of the prime field, on any store *)

Lemma Mul_exec h dest lhs rhs x y d :
  h !! lhs = Some (OPrime x) -> h !! rhs = Some (OPrime y) -> h !! dest = Some (OPrime d) ->
  exec (PrimeFieldElement.Mul dest lhs rhs) h tt (<[dest := OPrime (mulP x y)]> h).
Proof.
  intros Hl Hr Hd. unfold PrimeFieldElement.Mul.
  eapply exec_bind; [apply exec_load_Pa; exact Hl|].
  eapply exec_bind; [apply exec_load_Pa; exact Hr|].
  eapply exec_store_Pa, Hd.
Qed.

Lemma Square_exec h dest x vx d :
  h !! x = Some (OPrime vx) -> h !! dest = Some (OPrime d) ->
  exec (PrimeFieldElement.Square dest x) h tt (<[dest := OPrime (squareP vx)]> h).
Proof.
  intros Hx Hd. unfold PrimeFieldElement.Square.
  eapply exec_bind; [apply exec_load_Pa; exact Hx|].
  eapply exec_bind; [apply exec_load_Pa; exact Hx|].
  eapply exec_store_Pa, Hd.
Qed.

Lemma Add_exec h dest lhs rhs x y d :
  h !! lhs = Some (OPrime x) -> h !! rhs = Some (OPrime y) -> h !! dest = Some (OPrime d) ->
  exec (PrimeFieldElement.Add dest lhs rhs) h tt (<[dest := OPrime (addP x y)]> h).
Proof.
  intros Hl Hr Hd. unfold PrimeFieldElement.Add.
  eapply exec_bind; [apply exec_load_Pa; exact Hl|].
  eapply exec_bind; [apply exec_load_Pa; exact Hr|].
  eapply exec_store_Pa, Hd.
Qed.

Lemma Sub_exec h dest lhs rhs x y d :
  h !! lhs = Some (OPrime x) -> h !! rhs = Some (OPrime y) -> h !! dest = Some (OPrime d) ->
  exec (PrimeFieldElement.Sub dest lhs rhs) h tt (<[dest := OPrime (subP x y)]> h).
Proof.
  intros Hl Hr Hd. unfold PrimeFieldElement.Sub.
  eapply exec_bind; [apply exec_load_Pa; exact Hl|].
  eapply exec_bind; [apply exec_load_Pa; exact Hr|].
  eapply exec_store_Pa, Hd.
Qed.

Lemma lookup_written (h : list object) l o o' :
  h !! l = Some o -> <[l := o']> h !! l = Some o'.
Proof. intros H. apply list_lookup_insert_eq. eapply lookup_lt_Some, H. Qed.

Lemma Pow2k_exec h dest x k vx d :
  h !! x = Some (OPrime vx) -> h !! dest = Some (OPrime d) ->
  exec (PrimeFieldElement.Pow2k dest x k) h tt (<[dest := OPrime (pow2kP vx k)]> h).
Proof.
  intros Hx Hd. unfold PrimeFieldElement.Pow2k.
  eapply exec_bind; [eapply Square_exec; eassumption|].
  destruct (Nat.le_gt_cases 1 k) as [Hk|Hk].
  - destruct (exec_for (fun _ _ => PrimeFieldElement.Square dest dest)
      (fun i _ h' => h' = <[dest := OPrime (Nat.iter (i - 1) squareP (squareP vx))]> h)
      1%nat k tt (<[dest := OPrime (squareP vx)]> h) Hk eq_refl)
      as ([] & h' & E & ->); [|exact E].
    intros i [] h0 Hi ->. eexists tt, _. split.
    + eapply Square_exec; eapply lookup_written, Hd.
    + rewrite list_insert_insert_eq. do 3 f_equal.
      replace (S i - 1)%nat with (S (i - 1)) by lia. reflexivity.
  - assert (k = 0%nat) as -> by lia. apply exec_for_loop_done. lia.
Qed.

(** ** [P34] on the store *)

Lemma frame_lookup (h : list object) (fr : list PrimeFieldElement) n j :
  length h = n -> (h ++ (OPrime <$> fr)) !! (n + j)%nat = OPrime <$> fr !! j.
Proof.
  intros <-. rewrite lookup_app_r by lia.
  replace (length h + j - length h)%nat with j by lia. apply list_lookup_fmap.
Qed.

Lemma frame_insert (h : list object) (fr : list PrimeFieldElement) n j v :
  length h = n ->
  <[(n + j)%nat := OPrime v]> (h ++ (OPrime <$> fr)) = h ++ (OPrime <$> <[j := v]> fr).
Proof. intros <-. rewrite insert_app_r, list_fmap_insert. reflexivity. Qed.

Lemma base_lookup (h fr : list object) l o : h !! l = Some o -> (h ++ fr) !! l = Some o.
Proof. intros H. apply lookup_app_l_Some, H. Qed.

Lemma base_insert (h fr : list object) l o o' :
  h !! l = Some o -> <[l := o']> (h ++ fr) = <[l := o']> h ++ fr.
Proof. intros H. apply insert_app_l. eapply lookup_lt_Some, H. Qed.

Lemma lookup_nth {A : Type} (l : list A) i d :
  (i < length l)%nat -> l !! i = Some (nth i l d).
Proof. intros Hi. destruct (nth_lookup_or_length l i d); [assumption|lia]. Qed.

Lemma exec_release_n h fr n : length fr = n -> exec (release n) (h ++ fr) tt h.
Proof. intros <-. apply exec_release_frame. Qed.

Lemma odd_powers_length n cur xx : length (odd_powers n cur xx) = n.
Proof. revert cur. induction n as [|n IH]; intros cur; simpl; [reflexivity|]. rewrite IH. reflexivity. Qed.

Lemma odd_powers_lookup_S n xx : forall cur i v,
  odd_powers n cur xx !! i = Some v -> (S i < n)%nat ->
  odd_powers n cur xx !! S i = Some (mulP v xx).
Proof.
  induction n as [|n IH]; intros cur i v Hv Hi; [lia|].
  destruct i as [|i]; cbn [odd_powers] in *.
  - injection Hv as <-. destruct n as [|n]; [lia|]. reflexivity.
  - apply (IH (mulP cur xx) i v Hv). lia.
Qed.

Lemma insert_take_drop {A : Type} (T F : list A) i t :
  T !! i = Some t -> (i < length F)%nat ->
  <[i := t]> (take i T ++ drop i F) = take (S i) T ++ drop (S i) F.
Proof.
  intros HT HF. pose proof (lookup_lt_Some _ _ _ HT) as Hi.
  destruct (lookup_lt_is_Some_2 F i HF) as [f Hf].
  rewrite (take_S_r T i t HT), (drop_S F f i Hf), <- app_assoc.
  replace i with (length (take i T) + 0)%nat at 1 by (rewrite length_take; lia).
  rewrite insert_app_r. reflexivity.
Qed.

Lemma lookup_take_drop_l {A : Type} (T F : list A) i j :
  (j < i)%nat -> (i <= length T)%nat -> (take i T ++ drop i F) !! j = T !! j.
Proof.
  intros Hj Hi. rewrite lookup_app_l by (rewrite length_take; lia).
  apply lookup_take_lt, Hj.
Qed.

Lemma lookup_take_drop_r {A : Type} (T F : list A) i j :
  (i <= j)%nat -> (i <= length T)%nat -> (take i T ++ drop i F) !! j = F !! j.
Proof.
  intros Hj Hi. rewrite lookup_app_r by (rewrite length_take; lia).
  rewrite length_take, lookup_drop. f_equal. lia.
Qed.

Lemma strategy_lookup i :
  (i < 137)%nat ->
  exists k m, powStrategy !! i = Some k /\ mulStrategy !! i = Some m
    /\ zip powStrategy mulStrategy !! i = Some (k, m) /\ (m / 2 < 16)%nat.
Proof.
  intros Hi.
  destruct (lookup_lt_is_Some_2 powStrategy i Hi) as [k Hk].
  destruct (lookup_lt_is_Some_2 mulStrategy i Hi) as [m Hm].
  assert (Hz : zip powStrategy mulStrategy !! i = Some (k, m)).
  { apply lookup_zip_with_Some. exists k, m. auto. }
  exists k, m. repeat split; try assumption.
  pose proof strategy_in_table as Hall.
  rewrite Forall_lookup in Hall. apply (Hall i (k, m) Hz).
Qed.

Lemma strategy_length : length (zip powStrategy mulStrategy) = 137%nat.
Proof. vm_compute. reflexivity. Qed.

Lemma P34_exec h dest x vx d :
  h !! x = Some (OPrime vx) -> h !! dest = Some (OPrime d) ->
  exec (PrimeFieldElement.P34 dest x) h tt (<[dest := OPrime (p34P vx)]> h).
Proof.
  intros Hx Hd. unfold PrimeFieldElement.P34.
  set (n := length h). set (sq := squareP vx).
  set (tbl := odd_powers 16 vx sq).
  set (T := tbl ++ [sq]).
  set (F := vx :: replicate 15 zeroP ++ [sq]).
  assert (Htl : length tbl = 16%nat) by apply odd_powers_length.
  assert (HTlen : length T = 17%nat)
    by (unfold T; rewrite length_app, Htl; reflexivity).
  assert (Htbl : forall j, (j < 16)%nat -> T !! j = Some (nth j tbl zeroP)).
  { intros j Hj. unfold T. rewrite lookup_app_l by lia.
    apply lookup_nth. lia. }
  assert (HTxx : T !! 16%nat = Some sq).
  { unfold T. rewrite lookup_app_r by lia. rewrite Htl. reflexivity. }
  eapply exec_bind; [apply exec_alloc_array|].
  eapply exec_bind; [apply exec_alloc|].
  rewrite length_app, length_replicate, <- app_assoc. fold n.
  change (replicate 16 (OPrime zeroP) ++ [OPrime zeroP])
    with (OPrime <$> replicate 17 zeroP).
  (* xx.Square(x) *)
  eapply exec_bind.
  { eapply Square_exec; [apply base_lookup, Hx|].
    rewrite frame_lookup by reflexivity. reflexivity. }
  rewrite frame_insert by reflexivity.
  change (<[16%nat := sq]> (replicate 17 zeroP)) with (replicate 16 zeroP ++ [sq]).
  (* lookup[0] = *x *)
  eapply exec_bind; [apply exec_elem; lia|].
  eapply exec_bind; [apply exec_load_prime, base_lookup, Hx|].
  eapply exec_bind.
  { eapply exec_store_prime. rewrite frame_lookup by reflexivity. reflexivity. }
  rewrite frame_insert by reflexivity.
  change (<[0%nat := vx]> _) with F.
  (* the lookup table *)
  destruct (exec_for
    (fun i (_ : unit) =>
       li ← elem n 16 i; lp ← elem n 16 (i - 1); PrimeFieldElement.Mul li lp (n + 16)%nat)
    (fun i _ h' => h' = h ++ (OPrime <$> (take i T ++ drop i F)))
    1%nat 16%nat tt (h ++ (OPrime <$> F))) as ([] & h1 & E1 & ->); [lia|reflexivity| |].
  { intros i [] h0 Hi ->.
    assert (Hprev : T !! (i - 1)%nat = Some (nth (i - 1) tbl zeroP)) by (apply Htbl; lia).
    assert (Hcur : T !! i = Some (mulP (nth (i - 1) tbl zeroP) sq)).
    { unfold T. rewrite lookup_app_l by lia.
      replace i with (S (i - 1)) at 1 by lia.
      apply odd_powers_lookup_S; [|lia].
      apply lookup_nth. fold tbl. lia. }
    destruct (lookup_lt_is_Some_2 F i ltac:(cbn; lia)) as [f Hf].
    eexists tt, _. split.
    - eapply exec_bind; [apply exec_elem; lia|].
      eapply exec_bind; [apply exec_elem; lia|].
      eapply Mul_exec.
      + rewrite frame_lookup by reflexivity.
        rewrite lookup_take_drop_l by lia. rewrite Hprev. reflexivity.
      + rewrite frame_lookup by reflexivity.
        rewrite lookup_take_drop_r by lia. reflexivity.
      + rewrite frame_lookup by reflexivity.
        rewrite lookup_take_drop_r by lia. rewrite Hf. reflexivity.
    - rewrite frame_insert by reflexivity. f_equal. f_equal.
      apply insert_take_drop; [exact Hcur|cbn; lia]. }
  eapply exec_bind; [exact E1|]. clear E1.
  replace (take 16 T ++ drop 16 F) with T
    by (unfold T; rewrite take_app_length' by exact Htl; reflexivity).
  (* *dest = lookup[initialMul/2] *)
  eapply exec_bind; [apply exec_elem; cbn; lia|].
  eapply exec_bind.
  { apply exec_load_prime. rewrite frame_lookup by reflexivity.
    rewrite Htbl by (cbn; lia). reflexivity. }
  eapply exec_bind; [eapply exec_store_prime, base_lookup, Hd|].
  rewrite (base_insert _ _ _ _ _ Hd).
  (* the chain *)
  set (steps := zip powStrategy mulStrategy).
  set (acc0 := nth (initialMul / 2) tbl zeroP).
  destruct (exec_for
    (fun i (_ : unit) =>
       k ← index powStrategy i;
       PrimeFieldElement.Pow2k dest dest k;;
       m ← index mulStrategy i;
       lm ← elem n 16 (m / 2);
       PrimeFieldElement.Mul dest dest lm)
    (fun i _ h' =>
       h' = <[dest := OPrime (fold_left (chain_step tbl) (take i steps) acc0)]> h
            ++ (OPrime <$> T))
    0%nat 137%nat tt (<[dest := OPrime acc0]> h ++ (OPrime <$> T)))
    as ([] & h2 & E2 & ->); [lia|reflexivity| |].
  { intros i [] h0 Hi ->.
    destruct (strategy_lookup i ltac:(lia)) as (k & m & Hk & Hm & Hkm & Hm16).
    set (acc := fold_left (chain_step tbl) (take i steps) acc0).
    eexists tt, _. split.
    - eapply exec_bind; [apply exec_index, Hk|].
      eapply exec_bind.
      { eapply Pow2k_exec; apply base_lookup; eapply lookup_written, Hd. }
      rewrite (base_insert _ _ _ _ _ (lookup_written _ _ _ _ Hd)), list_insert_insert_eq.
      eapply exec_bind; [apply exec_index, Hm|].
      eapply exec_bind; [apply exec_elem, Hm16|].
      eapply Mul_exec.
      + apply base_lookup. eapply lookup_written, Hd.
      + rewrite frame_lookup by (rewrite length_insert; reflexivity).
        rewrite Htbl by exact Hm16. reflexivity.
      + apply base_lookup. eapply lookup_written, Hd.
    - rewrite (base_insert _ _ _ _ _ (lookup_written _ _ _ _ Hd)), list_insert_insert_eq.
      do 3 f_equal. rewrite (take_S_r steps i (k, m) Hkm), fold_left_app. reflexivity. }
  eapply exec_bind; [exact E2|]. clear E2.
  rewrite <- strategy_length. unfold steps at 1. rewrite firstn_all.
  apply exec_release_n. rewrite length_fmap. exact HTlen.
Qed.

(** ** [Sqrt] and [Inv] on the store *)

Lemma top_lookup (h : list object) o : (h ++ [o]) !! length h = Some o.
Proof. apply list_lookup_middle. reflexivity. Qed.

Lemma top_lookup_written (h : list object) l o o' :
  (<[l := o]> h ++ [o']) !! length h = Some o'.
Proof. apply list_lookup_middle. symmetry. apply length_insert. Qed.

Lemma Sqrt_exec h dest x vx d :
  h !! x = Some (OPrime vx) -> h !! dest = Some (OPrime d) ->
  exec (PrimeFieldElement.Sqrt dest x) h tt (<[dest := OPrime (sqrtP vx)]> h).
Proof.
  intros Hx Hd. unfold PrimeFieldElement.Sqrt.
  eapply exec_bind; [apply exec_load_prime, Hx|].
  eapply exec_bind; [apply exec_alloc|].
  eapply exec_bind; [eapply P34_exec; apply base_lookup; eassumption|].
  rewrite (base_insert _ _ _ _ _ Hd).
  eapply exec_bind.
  { eapply Mul_exec; [apply base_lookup; eapply lookup_written, Hd
                     |apply top_lookup_written
                     |apply base_lookup; eapply lookup_written, Hd]. }
  rewrite (base_insert _ _ _ _ _ (lookup_written _ _ _ _ Hd)), list_insert_insert_eq.
  apply exec_release_n. reflexivity.
Qed.

Lemma Inv_exec h dest x vx d :
  h !! x = Some (OPrime vx) -> h !! dest = Some (OPrime d) ->
  exec (PrimeFieldElement.Inv dest x) h tt (<[dest := OPrime (invP vx)]> h).
Proof.
  intros Hx Hd. unfold PrimeFieldElement.Inv.
  pose proof (fun o => lookup_written h dest (OPrime d) o Hd) as Hw.
  eapply exec_bind; [apply exec_load_prime, Hx|].
  eapply exec_bind; [apply exec_alloc|].
  eapply exec_bind; [eapply Square_exec; apply base_lookup; eassumption|].
  rewrite (base_insert _ _ _ _ _ Hd).
  eapply exec_bind; [eapply P34_exec; apply base_lookup, Hw|].
  rewrite (base_insert _ _ _ _ _ (Hw _)), list_insert_insert_eq.
  eapply exec_bind; [eapply Square_exec; apply base_lookup, Hw|].
  rewrite (base_insert _ _ _ _ _ (Hw _)), list_insert_insert_eq.
  eapply exec_bind.
  { eapply Mul_exec; [apply base_lookup, Hw|apply top_lookup_written|apply base_lookup, Hw]. }
  rewrite (base_insert _ _ _ _ _ (Hw _)), list_insert_insert_eq.
  apply exec_release_n. reflexivity.
Qed.

(** ** The methods of the extension field, on any store *)

Lemma exec_store_Ea_written h l o x v :
  h !! l = Some o ->
  exec (store (Ea l) v) (<[l := OExt x]> h) tt (<[l := OExt (ExtElt v (ef_b x))]> h).
Proof.
  intros H. pose proof (exec_store_Ea _ l x v (lookup_written h l o (OExt x) H)) as E.
  rewrite list_insert_insert_eq in E. exact E.
Qed.

Lemma exec_store_Eb_written h l o x v :
  h !! l = Some o ->
  exec (store (Eb l) v) (<[l := OExt x]> h) tt (<[l := OExt (ExtElt (ef_a x) v)]> h).
Proof.
  intros H. pose proof (exec_store_Eb _ l x v (lookup_written h l o (OExt x) H)) as E.
  rewrite list_insert_insert_eq in E. exact E.
Qed.

Lemma ExtMul_exec h dest lhs rhs x y d :
  h !! lhs = Some (OExt x) -> h !! rhs = Some (OExt y) -> h !! dest = Some (OExt d) ->
  exec (ExtensionFieldElement.Mul dest lhs rhs) h tt (<[dest := OExt (mulE x y)]> h).
Proof.
  intros Hl Hr Hd. unfold ExtensionFieldElement.Mul. cbv zeta.
  eapply exec_bind; [apply exec_load_Ea, Hl|].
  eapply exec_bind; [apply exec_load_Ea, Hr|].
  eapply exec_bind; [apply exec_load_Eb, Hl|].
  eapply exec_bind; [apply exec_load_Eb, Hr|].
  eapply exec_bind; [apply exec_load_Eb, Hl|].
  eapply exec_bind; [apply exec_load_Ea, Hl|].
  eapply exec_bind; [apply exec_load_Ea, Hr|].
  eapply exec_bind; [apply exec_load_Eb, Hr|].
  eapply exec_bind; [apply exec_store_Eb, Hd|].
  exact (exec_store_Ea_written h dest _ (ExtElt _ _) _ Hd).
Qed.

Lemma ExtSquare_exec h dest x vx d :
  h !! x = Some (OExt vx) -> h !! dest = Some (OExt d) ->
  exec (ExtensionFieldElement.Square dest x) h tt (<[dest := OExt (squareE vx)]> h).
Proof.
  intros Hx Hd. unfold ExtensionFieldElement.Square. cbv zeta.
  eapply exec_bind; [apply exec_load_Ea, Hx|].
  eapply exec_bind; [apply exec_load_Ea, Hx|].
  eapply exec_bind; [apply exec_load_Ea, Hx|].
  eapply exec_bind; [apply exec_load_Eb, Hx|].
  eapply exec_bind; [apply exec_load_Ea, Hx|].
  eapply exec_bind; [apply exec_load_Eb, Hx|].
  eapply exec_bind; [apply exec_load_Eb, Hx|].
  eapply exec_bind; [apply exec_store_Ea, Hd|].
  exact (exec_store_Eb_written h dest _ (ExtElt _ _) _ Hd).
Qed.

(** After [dest.a] is written, the [b] coordinate of every element is what
    it was, also when the element is [dest] itself. *)
Lemma lookup_after_store_a (h : list object) l dest x d v :
  h !! l = Some (OExt x) -> h !! dest = Some (OExt d) ->
  exists x', <[dest := OExt (ExtElt v (ef_b d))]> h !! l = Some (OExt x')
             /\ ef_b x' = ef_b x.
Proof.
  intros Hl Hd. destruct (decide (dest = l)) as [->|Hne].
  - rewrite (lookup_written _ _ _ _ Hd). eexists. split; [reflexivity|].
    rewrite Hd in Hl. injection Hl as <-. reflexivity.
  - rewrite list_lookup_insert_ne by exact Hne. eexists. split; [exact Hl|reflexivity].
Qed.

Lemma ExtAdd_exec h dest lhs rhs x y d :
  h !! lhs = Some (OExt x) -> h !! rhs = Some (OExt y) -> h !! dest = Some (OExt d) ->
  exec (ExtensionFieldElement.Add dest lhs rhs) h tt (<[dest := OExt (addE x y)]> h).
Proof.
  intros Hl Hr Hd. unfold ExtensionFieldElement.Add.
  set (v := fp751AddReduced (ef_a x) (ef_a y)).
  destruct (lookup_after_store_a h lhs dest x d v Hl Hd) as (x' & Hl' & Ex).
  destruct (lookup_after_store_a h rhs dest y d v Hr Hd) as (y' & Hr' & Ey).
  eapply exec_bind; [apply exec_load_Ea, Hl|].
  eapply exec_bind; [apply exec_load_Ea, Hr|].
  eapply exec_bind; [apply exec_store_Ea, Hd|]. fold v.
  eapply exec_bind; [apply exec_load_Eb, Hl'|].
  eapply exec_bind; [apply exec_load_Eb, Hr'|].
  rewrite Ex, Ey. exact (exec_store_Eb_written h dest _ (ExtElt v (ef_b d)) _ Hd).
Qed.

Lemma ExtSub_exec h dest lhs rhs x y d :
  h !! lhs = Some (OExt x) -> h !! rhs = Some (OExt y) -> h !! dest = Some (OExt d) ->
  exec (ExtensionFieldElement.Sub dest lhs rhs) h tt (<[dest := OExt (subE x y)]> h).
Proof.
  intros Hl Hr Hd. unfold ExtensionFieldElement.Sub.
  set (v := fp751SubReduced (ef_a x) (ef_a y)).
  destruct (lookup_after_store_a h lhs dest x d v Hl Hd) as (x' & Hl' & Ex).
  destruct (lookup_after_store_a h rhs dest y d v Hr Hd) as (y' & Hr' & Ey).
  eapply exec_bind; [apply exec_load_Ea, Hl|].
  eapply exec_bind; [apply exec_load_Ea, Hr|].
  eapply exec_bind; [apply exec_store_Ea, Hd|]. fold v.
  eapply exec_bind; [apply exec_load_Eb, Hl'|].
  eapply exec_bind; [apply exec_load_Eb, Hr'|].
  rewrite Ex, Ey. exact (exec_store_Eb_written h dest _ (ExtElt v (ef_b d)) _ Hd).
Qed.

Lemma frame_lookup_at (h : list object) (fr : list PrimeFieldElement) l j :
  l = (length h + j)%nat -> (h ++ (OPrime <$> fr)) !! l = OPrime <$> fr !! j.
Proof. intros ->. apply frame_lookup. reflexivity. Qed.

Lemma frame_insert_at (h : list object) (fr : list PrimeFieldElement) l j v :
  l = (length h + j)%nat ->
  <[l := OPrime v]> (h ++ (OPrime <$> fr)) = h ++ (OPrime <$> <[j := v]> fr).
Proof. intros ->. apply frame_insert. reflexivity. Qed.

Lemma ExtInv_exec h dest x vx d :
  h !! x = Some (OExt vx) -> h !! dest = Some (OExt d) ->
  exec (ExtensionFieldElement.Inv dest x) h tt (<[dest := OExt (invE vx)]> h).
Proof.
  intros Hx Hd. unfold ExtensionFieldElement.Inv. cbv zeta.
  set (norm := PrimeElt (fp751MontgomeryReduce
    (fp751X2AddLazy (fp751Mul (ef_a vx) (ef_a vx)) (fp751Mul (ef_b vx) (ef_b vx))))).
  set (c := pf_a (invP norm)).
  set (va := fp751MontgomeryReduce (fp751Mul (ef_a vx) c)).
  destruct (lookup_after_store_a h x dest vx d va Hx Hd) as (x' & Hx' & Ex).
  eapply exec_bind; [apply exec_alloc|].
  change [OPrime zeroP] with (OPrime <$> [zeroP]).
  eapply exec_bind; [apply exec_load_Ea, base_lookup, Hx|].
  eapply exec_bind; [apply exec_load_Ea, base_lookup, Hx|].
  eapply exec_bind; [apply exec_load_Eb, base_lookup, Hx|].
  eapply exec_bind; [apply exec_load_Eb, base_lookup, Hx|].
  eapply exec_bind.
  { eapply exec_store_Pa. rewrite (frame_lookup_at _ _ _ 0%nat) by lia. reflexivity. }
  rewrite (frame_insert_at _ _ _ 0%nat) by lia. fold norm.
  eapply exec_bind; [apply exec_alloc|].
  rewrite <- app_assoc.
  change ((OPrime <$> <[0%nat := norm]> [zeroP]) ++ [OPrime zeroP])
    with (OPrime <$> [norm; zeroP]).
  eapply exec_bind.
  { eapply Inv_exec.
    - rewrite (frame_lookup_at _ _ _ 0%nat) by lia. reflexivity.
    - rewrite (frame_lookup_at _ _ _ 1%nat)
        by (rewrite length_app, length_fmap; cbn; lia).
      reflexivity. }
  rewrite (frame_insert_at _ _ _ 1%nat) by (rewrite length_app, length_fmap; cbn; lia).
  change (<[1%nat := invP norm]> [norm; zeroP]) with [norm; invP norm].
  eapply exec_bind; [apply exec_load_Ea, base_lookup, Hx|].
  eapply exec_bind.
  { eapply exec_load_Pa. rewrite (frame_lookup_at _ _ _ 1%nat)
      by (rewrite length_app, length_fmap; cbn; lia). reflexivity. }
  eapply exec_bind; [apply exec_store_Ea, base_lookup, Hd|].
  rewrite (base_insert _ _ _ _ _ Hd). fold c va.
  eapply exec_bind; [apply exec_load_Eb, base_lookup, Hx'|].
  eapply exec_bind.
  { eapply exec_load_Pa. rewrite (frame_lookup_at _ _ _ 1%nat)
      by (rewrite length_insert, length_app, length_fmap; cbn; lia). reflexivity. }
  eapply exec_bind.
  { eapply exec_store_Eb, base_lookup. eapply lookup_written, Hd. }
  rewrite (base_insert _ _ _ _ _ (lookup_written _ _ _ _ Hd)), list_insert_insert_eq.
  rewrite Ex. apply exec_release_n. reflexivity.
Qed.

(** ** Variable-time equality *)

Lemma of_Z_inj a b : 0 <= a < radix -> 0 <= b < radix -> of_Z a = of_Z b -> a = b.
Proof.
  intros Ha Hb H. rewrite <- (val_of_Z a Ha), <- (val_of_Z b Hb), H. reflexivity.
Qed.

Lemma val_StrongReduce x :
  0 <= val x < 2 * p751 -> val (fp751StrongReduce x) = val x mod p751.
Proof.
  intros Hx. unfold fp751StrongReduce. pose proof p751_range as Hp.
  destruct (Z.leb_spec p751 (val x)) as [Hge|Hlt].
  - rewrite val_of_Z by lia. symmetry.
    rewrite <- (Z.mod_small (val x - p751) p751) by lia.
    rewrite <- Zminus_mod_idemp_r, Z.mod_same, Z.sub_0_r by lia.
    reflexivity.
  - rewrite val_of_Z by lia. symmetry. apply Z.mod_small. lia.
Qed.

Lemma StrongReduce_eq_iff x y :
  0 <= val x < 2 * p751 -> 0 <= val y < 2 * p751 ->
  fp751StrongReduce x = fp751StrongReduce y <-> val x mod p751 = val y mod p751.
Proof.
  intros Hx Hy. rewrite <- (val_StrongReduce x Hx), <- (val_StrongReduce y Hy).
  split; [intros ->; reflexivity|]. intros H.
  unfold fp751StrongReduce in *. pose proof p751_range as Hp.
  f_equal. revert H.
  destruct (Z.leb_spec p751 (val x)), (Z.leb_spec p751 (val y));
    rewrite !val_of_Z by lia; auto.
Qed.

Lemma eqP_true_iff x y :
  0 <= val x < 2 * p751 -> 0 <= val y < 2 * p751 ->
  eqP x y = true <-> val x mod p751 = val y mod p751.
Proof.
  intros Hx Hy. unfold eqP. rewrite bool_decide_eq_true. apply StrongReduce_eq_iff; assumption.
Qed.

Lemma vartimeEq_exec x y h : exec (vartimeEq x y) h (eqP x y) h.
Proof.
  unfold vartimeEq, eqP. cbv zeta.
  set (x' := fp751StrongReduce x). set (y' := fp751StrongReduce y).
  assert (Hlx : length x' = 12%nat) by apply limbs_length.
  assert (Hly : length y' = 12%nat) by apply limbs_length.
  destruct (exec_for
    (fun i (eq : bool) =>
       xi ← index x' i; yi ← index y' i;
       emit (EvBranch (xi =? yi));; mret ((xi =? yi) && eq))
    (fun i eq h' => h' = h /\ (eq = true <-> forall j, (j < i)%nat -> x' !! j = y' !! j))
    0%nat fp751NumWords true h) as (b & h' & E & -> & Hb).
  - unfold fp751NumWords. lia.
  - split; [reflexivity|]. split; [intros _ j Hj; lia|reflexivity].
  - intros i eq h0 Hi [-> Heq]. unfold fp751NumWords in Hi.
    destruct (lookup_lt_is_Some_2 x' i ltac:(lia)) as [xi Hxi].
    destruct (lookup_lt_is_Some_2 y' i ltac:(lia)) as [yi Hyi].
    exists ((xi =? yi) && eq), h. split.
    + eapply exec_bind; [apply exec_index, Hxi|].
      eapply exec_bind; [apply exec_index, Hyi|].
      eapply exec_bind; [apply exec_emit|]. apply exec_ret.
    + split; [reflexivity|]. rewrite andb_true_iff, Z.eqb_eq, Heq. split.
      * intros [Hxy Hall] j Hj. destruct (decide (j = i)) as [Hji|Hne].
        -- subst j xi. etransitivity; [exact Hxi|symmetry; exact Hyi].
        -- apply Hall. lia.
      * intros Hall. split.
        -- pose proof (Hall i ltac:(lia)) as Hii.
           assert (Some xi = Some yi) as [= ->]; [|reflexivity].
           etransitivity; [symmetry; exact Hxi|]. etransitivity; [exact Hii|exact Hyi].
        -- intros j Hj. apply Hall. lia.
  - replace (bool_decide (x' = y')) with b; [exact E|].
    symmetry. destruct b.
    + apply bool_decide_eq_true. apply list_eq. intros j.
      destruct (Nat.lt_ge_cases j 12) as [Hj|Hj].
      * apply (proj1 Hb eq_refl). exact Hj.
      * rewrite !lookup_ge_None_2 by lia. reflexivity.
    + apply bool_decide_eq_false. intros Heq.
      assert (false = true) by (apply Hb; intros j _; rewrite Heq; reflexivity).
      discriminate.
Qed.

Lemma VartimeEq_exec h lhs rhs x y :
  h !! lhs = Some (OPrime x) -> h !! rhs = Some (OPrime y) ->
  exec (PrimeFieldElement.VartimeEq lhs rhs) h (eqP (pf_a x) (pf_a y)) h.
Proof.
  intros Hl Hr. unfold PrimeFieldElement.VartimeEq.
  eapply exec_bind; [apply exec_load_Pa, Hl|].
  eapply exec_bind; [apply exec_load_Pa, Hr|].
  apply vartimeEq_exec.
Qed.

Lemma ExtVartimeEq_exec h lhs rhs x y :
  h !! lhs = Some (OExt x) -> h !! rhs = Some (OExt y) ->
  exec (ExtensionFieldElement.VartimeEq lhs rhs) h
    (eqP (ef_a x) (ef_a y) && eqP (ef_b x) (ef_b y)) h.
Proof.
  intros Hl Hr. unfold ExtensionFieldElement.VartimeEq.
  eapply exec_bind; [apply exec_load_Ea, Hl|].
  eapply exec_bind; [apply exec_load_Ea, Hr|].
  eapply exec_bind; [apply vartimeEq_exec|].
  eapply exec_bind; [apply exec_emit|].
  destruct (eqP (ef_a x) (ef_a y)); cbn [andb].
  - eapply exec_bind; [apply exec_load_Eb, Hl|].
    eapply exec_bind; [apply exec_load_Eb, Hr|].
    apply vartimeEq_exec.
  - apply exec_ret.
Qed.

Lemma SetUint64_exec h dest x d :
  h !! dest = Some (OPrime d) ->
  exec (PrimeFieldElement.SetUint64 dest x) h tt
    (<[dest := OPrime (PrimeElt (fp751MontgomeryReduce
        (fp751Mul (<[0%nat := x mod word]> fp751Zero) montgomeryRsq)))]> h).
Proof.
  intros Hd. unfold PrimeFieldElement.SetUint64.
  pose proof (fun o => lookup_written h dest (OPrime d) o Hd) as Hw.
  eapply exec_bind; [eapply exec_store_Pa, Hd|].
  eapply exec_bind; [apply exec_load_Pa, Hw|].
  eapply exec_bind; [eapply exec_store_Pa, Hw|].
  rewrite list_insert_insert_eq.
  eapply exec_bind; [apply exec_load_Pa, Hw|].
  pose proof (exec_store_Pa _ dest _
    (fp751MontgomeryReduce (fp751Mul (<[0%nat := x mod word]> fp751Zero) montgomeryRsq))
    (Hw (OPrime (PrimeElt (<[0%nat := x mod word]> fp751Zero))))) as E.
  rewrite list_insert_insert_eq in E. exact E.
Qed.

(** ** Control flow and memory accesses *)

Lemma same_layout_length h1 h2 : same_layout h1 h2 -> length h1 = length h2.
Proof. intros H. apply (f_equal length) in H. rewrite !length_fmap in H. exact H. Qed.

Lemma same_layout_lookup h1 h2 l :
  same_layout h1 h2 -> kind <$> h1 !! l = kind <$> h2 !! l.
Proof. intros H. rewrite <- !list_lookup_fmap. unfold same_layout in H. rewrite H. reflexivity. Qed.

Lemma same_layout_insert h1 h2 l o1 o2 :
  same_layout h1 h2 -> kind o1 = kind o2 -> same_layout (<[l := o1]> h1) (<[l := o2]> h2).
Proof. unfold same_layout. intros H Hk. rewrite !list_fmap_insert, H, Hk. reflexivity. Qed.

Lemma same_layout_app h1 h2 f1 f2 :
  same_layout h1 h2 -> same_layout f1 f2 -> same_layout (h1 ++ f1) (h2 ++ f2).
Proof. unfold same_layout. intros H Hf. rewrite !fmap_app, H, Hf. reflexivity. Qed.

Lemma same_layout_take h1 h2 n :
  same_layout h1 h2 -> same_layout (take n h1) (take n h2).
Proof. unfold same_layout. intros H. rewrite !fmap_take, H. reflexivity. Qed.

Lemma ct_pub_rel {A : Type} (m1 m2 : M A) : ct_pub m1 m2 -> ct_rel m1 m2.
Proof.
  intros H s1 s2 Hl Ht. specialize (H s1 s2 Hl Ht).
  destruct (m1 s1) as [[a1 s1']|], (m2 s2) as [[a2 s2']|]; try exact H. apply H.
Qed.

Lemma ct_ret {A : Type} (a1 a2 : A) : ct_rel (mret a1) (mret a2).
Proof. intros s1 s2 Hl Ht. split; assumption. Qed.

Lemma ct_bind_pub {A B : Type} (m1 m2 : M A) (k1 k2 : A -> M B) :
  ct_pub m1 m2 -> (forall a, ct_rel (k1 a) (k2 a)) -> ct_rel (m1 ≫= k1) (m2 ≫= k2).
Proof.
  intros Hm Hk s1 s2 Hl Ht. unfold mbind, M_bind. specialize (Hm s1 s2 Hl Ht).
  destruct (m1 s1) as [[a1 s1']|], (m2 s2) as [[a2 s2']|];
    try contradiction; [|exact I].
  destruct Hm as (-> & Hl' & Ht'). apply Hk; assumption.
Qed.

Lemma ct_bind {A B : Type} (m1 m2 : M A) (k1 k2 : A -> M B) :
  ct_rel m1 m2 -> (forall a1 a2, ct_rel (k1 a1) (k2 a2)) -> ct_rel (m1 ≫= k1) (m2 ≫= k2).
Proof.
  intros Hm Hk s1 s2 Hl Ht. unfold mbind, M_bind. specialize (Hm s1 s2 Hl Ht).
  destruct (m1 s1) as [[a1 s1']|], (m2 s2) as [[a2 s2']|];
    try contradiction; [|exact I].
  destruct Hm as (Hl' & Ht'). apply Hk; assumption.
Qed.

Lemma ct_emit e : ct_rel (emit e) (emit e).
Proof. intros s1 s2 Hl Ht. cbn. split; [exact Hl|]. rewrite Ht. reflexivity. Qed.

Lemma ct_load p : ct_rel (load p) (load p).
Proof.
  intros s1 s2 Hl Ht. pose proof (same_layout_lookup _ _ (fptr_loc p) Hl) as Hk.
  unfold load, mbind, M_bind, emit, get_obj. cbn [heap trace].
  destruct (heap s1 !! fptr_loc p) as [o1|], (heap s2 !! fptr_loc p) as [o2|];
    cbn in Hk; try discriminate Hk; [|exact I].
  injection Hk as Hk.
  destruct p, o1, o2; try discriminate Hk; cbn; try exact I;
    (split; [exact Hl|rewrite Ht; reflexivity]).
Qed.

Lemma ct_store p v1 v2 : ct_rel (store p v1) (store p v2).
Proof.
  intros s1 s2 Hl Ht. pose proof (same_layout_lookup _ _ (fptr_loc p) Hl) as Hk.
  pose proof (same_layout_length _ _ Hl) as Hlen.
  unfold store, mbind, M_bind, emit, get_obj. cbn [heap trace].
  destruct (heap s1 !! fptr_loc p) as [o1|], (heap s2 !! fptr_loc p) as [o2|];
    cbn in Hk; try discriminate Hk; [|exact I].
  injection Hk as Hk.
  destruct p, o1, o2; try discriminate Hk; cbn; try exact I;
    unfold put_obj; cbn [heap trace]; rewrite Hlen;
    (destruct (decide (l < length (heap s2))%nat); [|exact I]);
    (split; [apply same_layout_insert; [exact Hl|reflexivity]|rewrite Ht; reflexivity]).
Qed.

Lemma ct_load_prime l : ct_rel (load_prime l) (load_prime l).
Proof. unfold load_prime. apply ct_bind; [apply ct_load|intros; apply ct_ret]. Qed.

Lemma ct_store_prime l v1 v2 : ct_rel (store_prime l v1) (store_prime l v2).
Proof. apply ct_store. Qed.

Lemma ct_alloc o1 o2 : kind o1 = kind o2 -> ct_pub (alloc o1) (alloc o2).
Proof.
  intros Hk s1 s2 Hl Ht. pose proof (same_layout_length _ _ Hl) as Hlen.
  cbn. rewrite Hlen, Ht. repeat split.
  apply same_layout_app; [exact Hl|]. unfold same_layout. cbn. rewrite Hk. reflexivity.
Qed.

Lemma ct_alloc_array n o1 o2 : kind o1 = kind o2 -> ct_pub (alloc_array n o1) (alloc_array n o2).
Proof.
  intros Hk s1 s2 Hl Ht. pose proof (same_layout_length _ _ Hl) as Hlen.
  cbn. rewrite Hlen, Ht. repeat split.
  apply same_layout_app; [exact Hl|]. unfold same_layout.
  rewrite !fmap_replicate, Hk. reflexivity.
Qed.

Lemma ct_release n : ct_rel (release n) (release n).
Proof.
  intros s1 s2 Hl Ht. pose proof (same_layout_length _ _ Hl) as Hlen.
  cbn. rewrite Hlen, Ht. split; [apply same_layout_take, Hl|reflexivity].
Qed.

Lemma ct_elem base n i : ct_pub (elem base n i) (elem base n i).
Proof.
  intros s1 s2 Hl Ht. unfold elem.
  destruct (decide (i < n)%nat); cbn; [repeat split; assumption|exact I].
Qed.

Lemma ct_index {A : Type} (tbl : list A) i : ct_pub (index tbl i) (index tbl i).
Proof.
  intros s1 s2 Hl Ht. unfold index.
  destruct (tbl !! i); cbn; [repeat split; assumption|exact I].
Qed.

Lemma ct_for_loop {A : Type} (body1 body2 : nat -> A -> M A) bound :
  (forall i a1 a2, ct_rel (body1 i a1) (body2 i a2)) ->
  forall fuel i a1 a2,
    ct_rel (for_loop fuel i bound body1 a1) (for_loop fuel i bound body2 a2).
Proof.
  intros Hbody. induction fuel as [|fuel IH]; intros i a1 a2; cbn [for_loop].
  - apply ct_ret.
  - apply ct_bind; [apply ct_emit|intros _ _].
    destruct (i <? bound)%nat; [|apply ct_ret].
    apply ct_bind; [apply Hbody|]. intros b1 b2. apply IH.
Qed.

Lemma ct_for {A : Type} (body1 body2 : nat -> A -> M A) start bound a1 a2 :
  (forall i a1 a2, ct_rel (body1 i a1) (body2 i a2)) ->
  ct_rel (for_ start bound body1 a1) (for_ start bound body2 a2).
Proof. intros H. apply ct_for_loop, H. Qed.

Ltac ct_step :=
  lazymatch goal with
  | |- ct_rel (mret _) (mret _) => apply ct_ret
  | |- ct_rel (load _) (load _) => apply ct_load
  | |- ct_rel (store _ _) (store _ _) => apply ct_store
  | |- ct_rel (load_prime _) (load_prime _) => apply ct_load_prime
  | |- ct_rel (store_prime _ _) (store_prime _ _) => apply ct_store_prime
  | |- ct_rel (emit _) (emit _) => apply ct_emit
  | |- ct_rel (release _) (release _) => apply ct_release
  | |- ct_rel (for_ _ _ _ _) (for_ _ _ _ _) => apply ct_for; intros ? ? ?
  | |- ct_rel (alloc _ ≫= _) (alloc _ ≫= _) =>
      apply ct_bind_pub; [apply ct_alloc; reflexivity|intros ?]
  | |- ct_rel (alloc_array _ _ ≫= _) (alloc_array _ _ ≫= _) =>
      apply ct_bind_pub; [apply ct_alloc_array; reflexivity|intros ?]
  | |- ct_rel (elem _ _ _ ≫= _) (elem _ _ _ ≫= _) =>
      apply ct_bind_pub; [apply ct_elem|intros ?]
  | |- ct_rel (index _ _ ≫= _) (index _ _ ≫= _) =>
      apply ct_bind_pub; [apply ct_index|intros ?]
  | |- ct_rel (_ ≫= _) (_ ≫= _) => apply ct_bind; [|intros ? ?]
  end.

Lemma ct_Mul dest lhs rhs :
  ct_rel (PrimeFieldElement.Mul dest lhs rhs) (PrimeFieldElement.Mul dest lhs rhs).
Proof. unfold PrimeFieldElement.Mul. repeat ct_step. Qed.

Lemma ct_Square dest x :
  ct_rel (PrimeFieldElement.Square dest x) (PrimeFieldElement.Square dest x).
Proof. unfold PrimeFieldElement.Square. repeat ct_step. Qed.

Lemma ct_Add dest lhs rhs :
  ct_rel (PrimeFieldElement.Add dest lhs rhs) (PrimeFieldElement.Add dest lhs rhs).
Proof. unfold PrimeFieldElement.Add. repeat ct_step. Qed.

Lemma ct_Sub dest lhs rhs :
  ct_rel (PrimeFieldElement.Sub dest lhs rhs) (PrimeFieldElement.Sub dest lhs rhs).
Proof. unfold PrimeFieldElement.Sub. repeat ct_step. Qed.

Lemma ct_SetUint64 dest x1 x2 :
  ct_rel (PrimeFieldElement.SetUint64 dest x1) (PrimeFieldElement.SetUint64 dest x2).
Proof. unfold PrimeFieldElement.SetUint64. repeat ct_step. Qed.

Lemma ct_Pow2k dest x k :
  ct_rel (PrimeFieldElement.Pow2k dest x k) (PrimeFieldElement.Pow2k dest x k).
Proof.
  unfold PrimeFieldElement.Pow2k.
  apply ct_bind; [apply ct_Square|intros _ _]. ct_step. apply ct_Square.
Qed.

Lemma ct_P34 dest x :
  ct_rel (PrimeFieldElement.P34 dest x) (PrimeFieldElement.P34 dest x).
Proof.
  unfold PrimeFieldElement.P34. do 2 ct_step.
  apply ct_bind; [apply ct_Square|intros _ _].
  do 4 ct_step.
  { ct_step. do 2 ct_step. apply ct_Mul. }
  do 4 ct_step.
  { ct_step. ct_step. apply ct_bind; [apply ct_Pow2k|intros _ _].
    do 2 ct_step. apply ct_Mul. }
  ct_step.
Qed.

Lemma ct_Sqrt dest x :
  ct_rel (PrimeFieldElement.Sqrt dest x) (PrimeFieldElement.Sqrt dest x).
Proof.
  unfold PrimeFieldElement.Sqrt. do 2 ct_step.
  apply ct_bind; [apply ct_P34|intros _ _].
  apply ct_bind; [apply ct_Mul|intros _ _]. ct_step.
Qed.

Lemma ct_Inv dest x :
  ct_rel (PrimeFieldElement.Inv dest x) (PrimeFieldElement.Inv dest x).
Proof.
  unfold PrimeFieldElement.Inv. do 2 ct_step.
  apply ct_bind; [apply ct_Square|intros _ _].
  apply ct_bind; [apply ct_P34|intros _ _].
  apply ct_bind; [apply ct_Square|intros _ _].
  apply ct_bind; [apply ct_Mul|intros _ _]. ct_step.
Qed.

Lemma ct_ExtMul dest lhs rhs :
  ct_rel (ExtensionFieldElement.Mul dest lhs rhs) (ExtensionFieldElement.Mul dest lhs rhs).
Proof. unfold ExtensionFieldElement.Mul. cbv zeta. repeat ct_step. Qed.

Lemma ct_ExtSquare dest x :
  ct_rel (ExtensionFieldElement.Square dest x) (ExtensionFieldElement.Square dest x).
Proof. unfold ExtensionFieldElement.Square. cbv zeta. repeat ct_step. Qed.

Lemma ct_ExtAdd dest lhs rhs :
  ct_rel (ExtensionFieldElement.Add dest lhs rhs) (ExtensionFieldElement.Add dest lhs rhs).
Proof. unfold ExtensionFieldElement.Add. repeat ct_step. Qed.

Lemma ct_ExtSub dest lhs rhs :
  ct_rel (ExtensionFieldElement.Sub dest lhs rhs) (ExtensionFieldElement.Sub dest lhs rhs).
Proof. unfold ExtensionFieldElement.Sub. repeat ct_step. Qed.

Lemma ct_ExtInv dest x :
  ct_rel (ExtensionFieldElement.Inv dest x) (ExtensionFieldElement.Inv dest x).
Proof.
  unfold ExtensionFieldElement.Inv. cbv zeta. do 7 ct_step.
  apply ct_bind; [apply ct_Inv|intros _ _]. repeat ct_step.
Qed.

Lemma ct_rel_leak {A : Type} (m1 m2 : M A) h1 h2 :
  ct_rel m1 m2 -> same_layout h1 h2 -> leak m1 h1 = leak m2 h2.
Proof.
  intros H Hl. specialize (H (State h1 []) (State h2 []) Hl eq_refl). unfold leak.
  destruct (m1 (State h1 [])) as [[a1 s1]|], (m2 (State h2 [])) as [[a2 s2]|];
    try contradiction; [|reflexivity].
  destruct H as [_ ->]. reflexivity.
Qed.

Lemma ct_rel_constant_time {A : Type} (m : M A) : ct_rel m m -> constant_time m.
Proof. intros H h1 h2 Hl. apply ct_rel_leak; assumption. Qed.

(** ** Arithmetic modulo p *)

(** [strip_mod] proves [eqm p751 e ?e'], [?e'] being [e] with every inner
    reduction modulo p removed; [modp] proves an equation between residues
    modulo p whose sides agree as polynomials once the inner reductions are
    removed. *)
Ltac strip_mod :=
  lazymatch goal with
  | |- eqm _ (?a mod p751) _ => eapply eqm_trans; [apply Zmod_eqm | strip_mod]
  | |- eqm _ (?a + ?b) _ => apply Zplus_eqm; strip_mod
  | |- eqm _ (?a - ?b) _ => apply Zminus_eqm; strip_mod
  | |- eqm _ (?a * ?b) _ => apply Zmult_eqm; strip_mod
  | |- eqm _ (- ?a) _ => apply Zopp_eqm; strip_mod
  | |- eqm _ ?a _ => apply eqm_refl
  end.

Ltac modp :=
  lazymatch goal with
  | |- ?l mod p751 = ?r mod p751 =>
      change (eqm p751 l r);
      eapply (eqm_trans p751); [strip_mod|];
      eapply (eqm_trans p751); [|apply eqm_sym; strip_mod];
      unfold eqm; f_equal; ring
  end.

Lemma word_lt_p751 : word < p751.
Proof. apply Z.ltb_lt. vm_compute. reflexivity. Qed.

Lemma word_sq_lt_p751 : word * word < p751.
Proof. apply Z.ltb_lt. vm_compute. reflexivity. Qed.

Lemma p751_gt_2 : 2 < p751.
Proof. pose proof word_lt_p751. unfold word in *. lia. Qed.

Lemma radix_cancel v : (v * radix * radix_inv) mod p751 = v mod p751.
Proof.
  rewrite <- Z.mul_assoc, <- Zmult_mod_idemp_r, radix_inv_spec, Z.mul_1_r. reflexivity.
Qed.

Lemma to_Fp_fp751Zero : to_Fp fp751Zero = 0.
Proof. unfold to_Fp. rewrite val_zero. reflexivity. Qed.

Lemma to_Fp_montgomeryR : to_Fp montgomeryR = 1.
Proof. vm_compute. reflexivity. Qed.

(** Congruent residues are those that stand for one element of F_p. *)
Lemma congruent_to_Fp x y : congruent x y <-> to_Fp x = to_Fp y.
Proof.
  unfold congruent. split; intros H.
  - unfold to_Fp. rewrite <- Zmult_mod_idemp_l, H, Zmult_mod_idemp_l. reflexivity.
  - rewrite <- !val_of_to_Fp, H. reflexivity.
Qed.

Lemma reprP_eq_val x y : reprP x = reprP y -> val (pf_a x) mod p751 = val (pf_a y) mod p751.
Proof. intros H. apply (proj2 (congruent_to_Fp (pf_a x) (pf_a y))), H. Qed.

Lemma reprP_range x : 0 <= reprP x < p751.
Proof. apply to_Fp_range. Qed.

Lemma reprP_zero_iff x : reprP x = 0 <-> val (pf_a x) mod p751 = 0.
Proof. apply to_Fp_zero_iff. Qed.

(** p is prime: a product vanishes modulo p only when a factor does. *)
Lemma mod_p751_mul_zero a b :
  (a * b) mod p751 = 0 -> a mod p751 = 0 \/ b mod p751 = 0.
Proof.
  pose proof p751_range as Hp.
  intros H. apply Z.mod_divide in H; [|lia].
  apply (Z.divide_prime_mul a b p751 p751_prime) in H as [Ha|Hb].
  - left. apply Z.mod_divide; [lia|exact Ha].
  - right. apply Z.mod_divide; [lia|exact Hb].
Qed.

(** The square roots of a square of F_p: s^2 = y^2 only for s = y and
    s = -y. *)
Lemma mod_p751_square_eq s y :
  0 <= s < p751 -> (s * s) mod p751 = (y * y) mod p751 ->
  s = y mod p751 \/ s = (- y) mod p751.
Proof.
  intros Hs H. pose proof p751_gt_2 as Hp.
  assert (H0 : ((s - y) * (s + y)) mod p751 = 0).
  { replace ((s - y) * (s + y)) with (s * s - y * y) by ring.
    rewrite Zminus_mod, H, Z.sub_diag. apply Z.mod_0_l. lia. }
  destruct (mod_p751_mul_zero _ _ H0) as [E|E]; [left|right].
  - rewrite <- (Z.mod_small s p751) at 1 by exact Hs.
    replace s with ((s - y) + y) at 1 by ring.
    rewrite <- Zplus_mod_idemp_l, E. reflexivity.
  - rewrite <- (Z.mod_small s p751) at 1 by exact Hs.
    replace s with ((s + y) + - y) at 1 by ring.
    rewrite <- Zplus_mod_idemp_l, E. reflexivity.
Qed.

Lemma p751_pred_half_odd : Z.odd ((p751 - 1) / 2) = true.
Proof. vm_compute. reflexivity. Qed.

(** In F_p with p = 3 (mod 4), -1 is not a square: a sum of two squares
    vanishes only when both do. *)
Lemma sum_squares_nonzero a b :
  0 <= a < p751 -> 0 <= b < p751 -> a <> 0 \/ b <> 0 -> (a * a + b * b) mod p751 <> 0.
Proof.
  intros Ha Hb Hab H. pose proof p751_gt_2 as Hp.
  destruct P34_exponent_facts as (_ & _ & _ & Hd).
  set (m := (p751 - 1) / 2) in *.
  assert (Hm : 0 <= m) by lia.
  assert (Hodd : Z.Odd m) by (apply Z.odd_spec, p751_pred_half_odd).
  assert (Hneg : (a * a) mod p751 = (- (b * b)) mod p751).
  { replace (a * a) with ((a * a + b * b) + - (b * b)) by ring.
    rewrite <- Zplus_mod_idemp_l, H. reflexivity. }
  assert (Hz : forall c, 0 <= c < p751 -> (c * c) mod p751 = 0 -> c = 0).
  { intros c Hc H0. destruct (mod_p751_mul_zero _ _ H0) as [E|E];
      rewrite Z.mod_small in E by exact Hc; exact E. }
  destruct (Z.eq_dec a 0) as [->|Hna].
  { destruct Hab as [Hab|Hab]; [congruence|]. apply Hab, Hz; [exact Hb|].
    rewrite Z.mul_0_l, Z.add_0_l in H. exact H. }
  destruct (Z.eq_dec b 0) as [->|Hnb].
  { apply Hna, Hz; [exact Ha|]. rewrite Z.mul_0_l, Z.add_0_r in H. exact H. }
  assert (Hpow : ((a * a) ^ m) mod p751 = ((- (b * b)) ^ m) mod p751).
  { rewrite <- (Z.mod_pow_l (a * a)), Hneg, Z.mod_pow_l. reflexivity. }
  rewrite Z.pow_opp_odd in Hpow by exact Hodd.
  replace (a * a) with (a ^ 2) in Hpow by ring.
  replace (b * b) with (b ^ 2) in Hpow by ring.
  rewrite <- !Z.pow_mul_r in Hpow by lia. rewrite Hd in Hpow.
  rewrite (Z.fermat_nz p751 a p751_prime) in Hpow by (rewrite Z.mod_small; lia).
  rewrite <- Z.sub_0_l, <- Zminus_mod_idemp_r in Hpow.
  rewrite (Z.fermat_nz p751 b p751_prime) in Hpow by (rewrite Z.mod_small; lia).
  assert (Hneg1 : (0 - 1) mod p751 = p751 - 1).
  { replace (0 - 1) with ((p751 - 1) + (-1) * p751) by ring.
    rewrite Z.mod_add by lia. apply Z.mod_small. lia. }
  rewrite Hneg1 in Hpow. lia.
Qed.

(** Fermat: a^(p-1) = 1 for a <> 0; hence a^((p-2)^2) = a for every a. *)
Lemma fermat_inv_inv a : 0 <= a < p751 -> a ^ ((p751 - 2) * (p751 - 2)) mod p751 = a.
Proof.
  intros Ha. pose proof p751_gt_2 as Hp.
  replace ((p751 - 2) * (p751 - 2)) with ((p751 - 1) * (p751 - 3) + 1) by ring.
  rewrite Z.pow_add_r, Z.pow_1_r by nia.
  destruct (Z.eq_dec a 0) as [->|Hnz].
  - rewrite Z.mul_0_r. apply Z.mod_0_l. lia.
  - rewrite <- Zmult_mod_idemp_l, <- powm_pow by lia.
    rewrite (Z.fermat_nz p751 a p751_prime) by (rewrite Z.mod_small; lia).
    rewrite Z.pow_1_l by lia. rewrite Z.mod_1_l by lia.
    rewrite Z.mul_1_l. apply Z.mod_small. exact Ha.
Qed.

(** ** Inversion and square roots in F_p *)

Lemma is_power_compose b y e z f :
  is_power b y e -> is_power (reprP y) z f -> is_power b z (e * f).
Proof.
  intros [He Ey] [Hf Ez]. split; [lia|].
  rewrite Ez, Ey. apply powm_pow; assumption.
Qed.

Lemma is_power_invP x : is_power (reprP x) (invP x) (p751 - 2).
Proof.
  destruct P34_exponent_facts as (H & _). rewrite <- H.
  replace (4 * P34_exponent + 1) with (2 * (2 * P34_exponent) + 1) by ring.
  unfold invP. apply is_power_mulP; [|apply is_power_base].
  apply is_power_squareP.
  apply (is_power_compose _ (squareP x) 2 _ P34_exponent).
  - apply (is_power_squareP _ _ 1), is_power_base.
  - apply is_power_p34P.
Qed.

Lemma is_power_sqrtP x : is_power (reprP x) (sqrtP x) ((p751 + 1) / 4).
Proof.
  destruct P34_exponent_facts as (_ & H & _). rewrite <- H.
  unfold sqrtP. apply is_power_mulP; [apply is_power_p34P|apply is_power_base].
Qed.

Lemma reprP_nonzero x : val (pf_a x) mod p751 <> 0 -> reprP x mod p751 <> 0.
Proof.
  intros H. unfold reprP. rewrite to_Fp_mod. intros H0. apply H, to_Fp_zero_iff, H0.
Qed.

(** The chain and naive square-and-multiply reach one element of F_p. *)
Lemma reprP_p34P_square_and_multiply x :
  reprP (p34P x) = reprP (square_and_multiply x (Z.to_pos P34_exponent)).
Proof.
  destruct (is_power_p34P x) as [_ ->].
  destruct (is_power_square_and_multiply x (Z.to_pos P34_exponent)) as [_ ->].
  rewrite P34_exponent_pos. reflexivity.
Qed.

(** x * x^(p-2) = 1 in F_p for x <> 0. *)
Lemma reprP_mulP_invP x : val (pf_a x) mod p751 <> 0 -> reprP (mulP x (invP x)) = 1.
Proof.
  intros Hx.
  assert (Hp : is_power (reprP x) (mulP x (invP x)) (1 + (p751 - 2)))
    by (apply is_power_mulP; [apply is_power_base|apply is_power_invP]).
  destruct Hp as [_ Hp]. replace (1 + (p751 - 2)) with (p751 - 1) in Hp by ring.
  rewrite (Z.fermat_nz p751 (reprP x) p751_prime (reprP_nonzero x Hx)) in Hp.
  exact Hp.
Qed.

Lemma reprP_invP_zero x : val (pf_a x) mod p751 = 0 -> reprP (invP x) = 0.
Proof.
  intros Hx. pose proof p751_gt_2 as Hp.
  destruct (is_power_invP x) as [_ ->].
  rewrite (proj2 (reprP_zero_iff x) Hx), Z.pow_0_l by lia. apply Z.mod_0_l. lia.
Qed.

Lemma invP_invP x : reprP (invP (invP x)) = reprP x.
Proof.
  destruct (is_power_compose _ _ _ _ _ (is_power_invP x) (is_power_invP (invP x))) as [_ H].
  rewrite H. apply fermat_inv_inv, reprP_range.
Qed.

Lemma reprP_invP_mulP x y : reprP (invP (mulP x y)) = reprP (mulP (invP x) (invP y)).
Proof.
  pose proof p751_gt_2 as Hp.
  destruct (is_power_invP (mulP x y)) as [_ ->].
  rewrite !reprP_mulP.
  destruct (is_power_invP x) as [_ ->]. destruct (is_power_invP y) as [_ ->].
  rewrite Z.mod_pow_l, Z.pow_mul_l. apply Zmult_mod.
Qed.

Lemma p751_succ_quarter : 4 * ((p751 + 1) / 4) = (p751 - 1) + 2.
Proof. vm_compute. reflexivity. Qed.

Lemma reprP_square_sqrtP x :
  quadratic_residue x -> reprP (squareP (sqrtP x)) = reprP x.
Proof.
  intros [r Hr]. fold (reprP x) in Hr.
  destruct (is_power_squareP _ _ _ (is_power_sqrtP x)) as [Hpos ->].
  pose proof p751_range as Hp.
  rewrite <- Hr at 1. rewrite Z.mod_pow_l.
  replace (r * r) with (r ^ 2) by ring.
  rewrite <- Z.pow_mul_r by lia.
  replace (2 * (2 * ((p751 + 1) / 4))) with (4 * ((p751 + 1) / 4)) by ring.
  rewrite p751_succ_quarter, Z.pow_add_r by lia.
  destruct (Z.eq_dec (r mod p751) 0) as [H0|Hnz].
  - rewrite <- Hr. rewrite <- Zmult_mod_idemp_r.
    replace (r ^ 2) with (r * r) by ring. rewrite <- (Zmult_mod_idemp_l r r), H0.
    rewrite Z.mul_0_l. cbn [Z.modulo]. rewrite Z.mod_0_l by lia.
    rewrite Z.mul_0_r. apply Z.mod_0_l. lia.
  - rewrite <- Zmult_mod_idemp_l, (Z.fermat_nz p751 r p751_prime Hnz), Z.mul_1_l.
    rewrite <- Hr. f_equal. ring.
Qed.

Lemma sqrtP_square_sign x :
  reprP (squareP (sqrtP x)) = reprP x \/ reprP (squareP (sqrtP x)) = (- reprP x) mod p751.
Proof.
  pose proof p751_gt_2 as Hp. pose proof (reprP_range x) as Hx.
  destruct P34_exponent_facts as (_ & _ & Hh & Hd).
  destruct (is_power_squareP _ _ _ (is_power_sqrtP x)) as [_ ->].
  rewrite Hh. set (m := (p751 - 1) / 2) in *. set (X := reprP x) in *.
  assert (Hm : 0 <= m) by lia.
  rewrite Z.pow_add_r, Z.pow_1_r by lia.
  destruct (Z.eq_dec X 0) as [->|Hnz].
  - left. rewrite Z.mul_0_r. apply Z.mod_0_l. lia.
  - assert (HE : (X ^ m mod p751 * (X ^ m mod p751)) mod p751 = (1 * 1) mod p751).
    { rewrite <- Zmult_mod, <- Z.pow_add_r by lia.
      replace (m + m) with (p751 - 1) by lia.
      rewrite (Z.fermat_nz p751 X p751_prime) by (rewrite Z.mod_small; lia).
      rewrite Z.mod_1_l by lia. reflexivity. }
    apply mod_p751_square_eq in HE; [|apply mod_p751_range].
    rewrite <- Zmult_mod_idemp_l.
    destruct HE as [->| ->].
    + left. rewrite Zmult_mod_idemp_l, Z.mul_1_l. apply Z.mod_small; exact Hx.
    + right. rewrite Zmult_mod_idemp_l. f_equal; ring.
Qed.

Lemma quadratic_residue_squareP y : quadratic_residue (squareP y).
Proof.
  exists (reprP y). symmetry. apply (reprP_mulP y y).
Qed.

Lemma quadratic_residue_oneP : quadratic_residue oneP.
Proof. exists 1. vm_compute. reflexivity. Defined.

(** ** The prime field, modulo p *)

Lemma mulP_comm x y : mulP x y = mulP y x.
Proof. unfold mulP, fp751Mul. rewrite Z.mul_comm. reflexivity. Qed.

Lemma reprP_mulP_assoc x y z : reprP (mulP (mulP x y) z) = reprP (mulP x (mulP y z)).
Proof. rewrite !reprP_mulP. modp. Qed.

Lemma reprP_mulP_addP_distr x y z :
  reprP (mulP x (addP y z)) = reprP (addP (mulP x y) (mulP x z)).
Proof. rewrite reprP_mulP, !reprP_addP, !reprP_mulP. modp. Qed.

Lemma reprP_mulP_zero_iff x y :
  reprP (mulP x y) = 0 <-> reprP x = 0 \/ reprP y = 0.
Proof.
  pose proof p751_gt_2 as Hp. rewrite reprP_mulP. split.
  - intros H. destruct (mod_p751_mul_zero _ _ H) as [H0|H0]; [left|right];
      unfold reprP in *; rewrite to_Fp_mod in H0; exact H0.
  - intros [H|H]; rewrite H; [rewrite Z.mul_0_l|rewrite Z.mul_0_r]; apply Z.mod_0_l; lia.
Qed.

Lemma canonical_val_eq x y : canonical x -> canonical y -> val x = val y -> x = y.
Proof. intros [_ Ex] [_ Ey] H. rewrite Ex, Ey, H. reflexivity. Qed.

Lemma canonical_mod_eq x y :
  canonical (pf_a x) -> canonical (pf_a y) ->
  val (pf_a x) mod p751 = val (pf_a y) mod p751 -> x = y.
Proof.
  destruct x as [x], y as [y]. cbn [pf_a]. intros Hx Hy H. f_equal.
  apply canonical_val_eq; [exact Hx|exact Hy|].
  destruct Hx as [Hx _], Hy as [Hy _].
  rewrite !Z.mod_small in H by assumption. exact H.
Qed.

(** ** [SetUint64], modulo p *)

Lemma val_set_limb0 x : 0 <= x < word -> val (<[0%nat := x mod word]> fp751Zero) = x.
Proof.
  intros Hx. rewrite Z.mod_small by exact Hx.
  change (<[0%nat := x]> fp751Zero) with (x :: replicate 11 0).
  rewrite val_cons.
  change (val (replicate 11 0)) with 0. ring.
Qed.

Lemma SetUint64_value x :
  0 <= x < word ->
  val (fp751MontgomeryReduce (fp751Mul (<[0%nat := x mod word]> fp751Zero) montgomeryRsq))
    mod p751
  = (x * radix) mod p751
  /\ to_Fp (fp751MontgomeryReduce (fp751Mul (<[0%nat := x mod word]> fp751Zero) montgomeryRsq))
     = x.
Proof.
  intros Hx. pose proof p751_gt_2 as Hp.
  assert (Hv : val (fp751MontgomeryReduce
                      (fp751Mul (<[0%nat := x mod word]> fp751Zero) montgomeryRsq))
               = (x * radix) mod p751).
  { rewrite val_MontgomeryReduce. unfold fp751Mul.
    rewrite (val_set_limb0 x Hx), montgomeryRsq_val.
    rewrite <- Zmult_mod_idemp_l, Zmult_mod_idemp_r, Z.mul_assoc, Zmult_mod_idemp_l.
    apply radix_cancel. }
  split.
  - rewrite Hv. apply Z.mod_mod. lia.
  - unfold to_Fp. rewrite Hv, Zmult_mod_idemp_l, radix_cancel.
    apply Z.mod_small. pose proof word_lt_p751. lia.
Qed.

(** ** The extension field, modulo p *)

Lemma to_Fp_mulE_a x y :
  to_Fp (ef_a (mulE x y))
  = (to_Fp (ef_a x) * to_Fp (ef_a y) - to_Fp (ef_b x) * to_Fp (ef_b y)) mod p751.
Proof.
  unfold mulE. cbn [ef_a]. rewrite to_Fp_MontgomeryReduce.
  unfold fp751X2SubLazy, fp751Mul, to_Fp. modp.
Qed.

Lemma to_Fp_mulE_b x y :
  to_Fp (ef_b (mulE x y))
  = (to_Fp (ef_a x) * to_Fp (ef_b y) + to_Fp (ef_b x) * to_Fp (ef_a y)) mod p751.
Proof.
  unfold mulE. cbn [ef_b]. rewrite to_Fp_MontgomeryReduce.
  unfold fp751X2AddLazy, fp751Mul.
  rewrite (val_SubReduced (ef_b x) (ef_a x)), (val_SubReduced (ef_a y) (ef_b y)).
  unfold to_Fp. modp.
Qed.

Lemma to_Fp_direct_product_a x y :
  to_Fp (ef_a (direct_product x y))
  = (to_Fp (ef_a x) * to_Fp (ef_a y) - to_Fp (ef_b x) * to_Fp (ef_b y)) mod p751.
Proof.
  unfold direct_product, subP, mulP. cbn [ef_a pf_a].
  rewrite to_Fp_SubReduced, !to_Fp_MontgomeryReduce.
  unfold fp751Mul, to_Fp. modp.
Qed.

Lemma to_Fp_direct_product_b x y :
  to_Fp (ef_b (direct_product x y))
  = (to_Fp (ef_a x) * to_Fp (ef_b y) + to_Fp (ef_b x) * to_Fp (ef_a y)) mod p751.
Proof.
  unfold direct_product, addP, mulP. cbn [ef_b pf_a].
  rewrite to_Fp_AddReduced, !to_Fp_MontgomeryReduce.
  unfold fp751Mul, to_Fp. modp.
Qed.

Lemma to_Fp_squareE_a x : to_Fp (ef_a (squareE x)) = to_Fp (ef_a (mulE x x)).
Proof.
  rewrite to_Fp_mulE_a. unfold squareE. cbn [ef_a].
  rewrite to_Fp_MontgomeryReduce. unfold fp751Mul.
  rewrite (val_AddReduced (ef_a x) (ef_b x)), (val_SubReduced (ef_a x) (ef_b x)).
  unfold to_Fp. modp.
Qed.

Lemma to_Fp_squareE_b x : to_Fp (ef_b (squareE x)) = to_Fp (ef_b (mulE x x)).
Proof.
  rewrite to_Fp_mulE_b. unfold squareE. cbn [ef_b].
  rewrite to_Fp_MontgomeryReduce. unfold fp751Mul.
  rewrite (val_AddReduced (ef_a x) (ef_a x)).
  unfold to_Fp. modp.
Qed.

Lemma to_Fp_addE x y :
  to_Fp (ef_a (addE x y)) = (to_Fp (ef_a x) + to_Fp (ef_a y)) mod p751
  /\ to_Fp (ef_b (addE x y)) = (to_Fp (ef_b x) + to_Fp (ef_b y)) mod p751.
Proof. split; apply to_Fp_AddReduced. Qed.

Lemma congruentE_to_Fp x y :
  to_Fp (ef_a x) = to_Fp (ef_a y) -> to_Fp (ef_b x) = to_Fp (ef_b y) -> congruentE x y.
Proof. intros Ha Hb. split; apply congruent_to_Fp; assumption. Qed.

Lemma congruentE_mulE_direct x y : congruentE (mulE x y) (direct_product x y).
Proof.
  apply congruentE_to_Fp.
  - rewrite to_Fp_mulE_a, to_Fp_direct_product_a. reflexivity.
  - rewrite to_Fp_mulE_b, to_Fp_direct_product_b. reflexivity.
Qed.

Lemma congruentE_mulE_one x : congruentE (mulE x oneE) x.
Proof.
  pose proof p751_gt_2 as Hp.
  apply congruentE_to_Fp.
  - rewrite to_Fp_mulE_a.
    change (to_Fp (ef_a oneE)) with (to_Fp montgomeryR).
    change (to_Fp (ef_b oneE)) with (to_Fp fp751Zero).
    rewrite to_Fp_montgomeryR, to_Fp_fp751Zero, Z.mul_1_r, Z.mul_0_r, Z.sub_0_r.
    apply to_Fp_mod.
  - rewrite to_Fp_mulE_b.
    change (to_Fp (ef_a oneE)) with (to_Fp montgomeryR).
    change (to_Fp (ef_b oneE)) with (to_Fp fp751Zero).
    rewrite to_Fp_montgomeryR, to_Fp_fp751Zero, Z.mul_1_r, Z.mul_0_r, Z.add_0_l.
    apply to_Fp_mod.
Qed.

Lemma congruentE_squareE_mulE x : congruentE (squareE x) (mulE x x).
Proof. apply congruentE_to_Fp; [apply to_Fp_squareE_a|apply to_Fp_squareE_b]. Qed.

Lemma congruentE_mulE_comm x y : congruentE (mulE x y) (mulE y x).
Proof.
  apply congruentE_to_Fp.
  - rewrite !to_Fp_mulE_a. modp.
  - rewrite !to_Fp_mulE_b. modp.
Qed.

Lemma congruentE_mulE_assoc x y z : congruentE (mulE (mulE x y) z) (mulE x (mulE y z)).
Proof.
  apply congruentE_to_Fp.
  - rewrite ?to_Fp_mulE_a, ?to_Fp_mulE_b, ?to_Fp_mulE_a. modp.
  - rewrite ?to_Fp_mulE_b, ?to_Fp_mulE_a, ?to_Fp_mulE_b. modp.
Qed.

Lemma congruentE_mulE_addE_distr x y z :
  congruentE (mulE x (addE y z)) (addE (mulE x y) (mulE x z)).
Proof.
  destruct (to_Fp_addE y z) as [Ea Eb].
  destruct (to_Fp_addE (mulE x y) (mulE x z)) as [Fa Fb].
  apply congruentE_to_Fp.
  - rewrite to_Fp_mulE_a, Ea, Eb, Fa, ?to_Fp_mulE_a. modp.
  - rewrite to_Fp_mulE_b, Ea, Eb, Fb, ?to_Fp_mulE_b. modp.
Qed.

(** The coordinates of what [Inv] stores: a/(a^2+b^2) and -b/(a^2+b^2),
    the inverse of the norm being its (p-2)-th power. *)
Lemma to_Fp_invE x :
  to_Fp (ef_a (invE x))
  = (to_Fp (ef_a x)
     * (((to_Fp (ef_a x) * to_Fp (ef_a x) + to_Fp (ef_b x) * to_Fp (ef_b x)) mod p751)
          ^ (p751 - 2) mod p751)) mod p751
  /\ to_Fp (ef_b (invE x))
  = ((0 - to_Fp (ef_b x))
     * (((to_Fp (ef_a x) * to_Fp (ef_a x) + to_Fp (ef_b x) * to_Fp (ef_b x)) mod p751)
          ^ (p751 - 2) mod p751)) mod p751.
Proof.
  unfold invE. cbn [ef_a ef_b].
  set (n := PrimeElt (fp751MontgomeryReduce
                        (fp751X2AddLazy (fp751Mul (ef_a x) (ef_a x))
                                        (fp751Mul (ef_b x) (ef_b x))))).
  assert (Hn : reprP n
    = (to_Fp (ef_a x) * to_Fp (ef_a x) + to_Fp (ef_b x) * to_Fp (ef_b x)) mod p751).
  { unfold reprP, n. cbn [pf_a]. rewrite to_Fp_MontgomeryReduce.
    unfold fp751X2AddLazy, fp751Mul, to_Fp. modp. }
  destruct (is_power_invP n) as [_ Hi]. rewrite Hn in Hi.
  set (i := invP n) in *. clearbody i. clear n Hn.
  split.
  - match goal with
    | |- _ = ?r => change (reprP (mulP (PrimeElt (ef_a x)) i) = r)
    end.
    rewrite reprP_mulP, Hi. reflexivity.
  - match goal with
    | |- _ = ?r => change (reprP (mulP (subP zeroP (PrimeElt (ef_b x))) i) = r)
    end.
    rewrite reprP_mulP, reprP_subP, Hi.
    change (reprP zeroP) with (to_Fp fp751Zero). rewrite to_Fp_fp751Zero.
    unfold reprP. cbn [pf_a]. rewrite Zmult_mod_idemp_l. reflexivity.
Qed.

(** x * (1/x) = 1 + 0i in F_{p^2} for x <> 0. *)
Lemma to_Fp_mulE_invE x :
  val (ef_a x) mod p751 <> 0 \/ val (ef_b x) mod p751 <> 0 ->
  to_Fp (ef_a (mulE x (invE x))) = 1 /\ to_Fp (ef_b (mulE x (invE x))) = 0.
Proof.
  intros Hx. pose proof p751_gt_2 as Hp.
  destruct (to_Fp_invE x) as [Ea Eb].
  pose proof (to_Fp_range (ef_a x)) as Ha. pose proof (to_Fp_range (ef_b x)) as Hb.
  assert (Hab : to_Fp (ef_a x) <> 0 \/ to_Fp (ef_b x) <> 0).
  { destruct Hx as [H|H]; [left|right]; intros H0; apply H, to_Fp_zero_iff, H0. }
  pose proof (sum_squares_nonzero _ _ Ha Hb Hab) as Hn.
  set (A := to_Fp (ef_a x)) in *. set (B := to_Fp (ef_b x)) in *.
  set (N := (A * A + B * B) mod p751) in *.
  assert (HN : (N * (N ^ (p751 - 2) mod p751)) mod p751 = 1).
  { rewrite Zmult_mod_idemp_r. rewrite <- (Z.pow_1_r N) at 1.
    rewrite <- Z.pow_add_r by lia. replace (1 + (p751 - 2)) with (p751 - 1) by ring.
    apply (Z.fermat_nz p751 N p751_prime).
    unfold N. rewrite Z.mod_mod by lia. exact Hn. }
  set (I := N ^ (p751 - 2) mod p751) in *. clearbody I.
  split.
  - rewrite to_Fp_mulE_a, Ea, Eb. fold A B.
    rewrite <- HN. unfold N. modp.
  - rewrite to_Fp_mulE_b, Ea, Eb. fold A B.
    rewrite <- (Z.mod_0_l p751) by lia. modp.
Qed.

Lemma to_Fp_invE_zero x :
  val (ef_a x) mod p751 = 0 -> val (ef_b x) mod p751 = 0 ->
  to_Fp (ef_a (invE x)) = 0 /\ to_Fp (ef_b (invE x)) = 0.
Proof.
  intros Ha Hb. pose proof p751_gt_2 as Hp.
  destruct (to_Fp_invE x) as [Ea Eb].
  apply to_Fp_zero_iff in Ha, Hb. rewrite Ha in Ea. rewrite Hb in Eb.
  rewrite Z.mul_0_l, Z.mod_0_l in Ea by lia.
  rewrite Z.sub_diag, Z.mul_0_l, Z.mod_0_l in Eb by lia.
  split; assumption.
Qed.

(** ** Sequences of calls *)

Lemma exec_seq (m k : M unit) h h1 h2 :
  exec m h tt h1 -> exec k h1 tt h2 -> exec (m;; k) h tt h2.
Proof. intros Hm Hk. eapply exec_bind; [exact Hm|exact Hk]. Qed.

Lemma lookup_other (h : list object) l l' o : l <> l' -> <[l := o]> h !! l' = h !! l'.
Proof. apply list_lookup_insert_ne. Qed.

Lemma lookup_insert_prime (h : list object) t dest v d :
  h !! dest = Some (OPrime d) ->
  exists d', <[t := OPrime v]> h !! dest = Some (OPrime d').
Proof.
  intros Hd. destruct (decide (t = dest)) as [->|Hne].
  - exists v. eapply lookup_written, Hd.
  - exists d. rewrite lookup_other by exact Hne. exact Hd.
Qed.

Lemma lookup_insert_ext (h : list object) t dest v d :
  h !! dest = Some (OExt d) ->
  exists d', <[t := OExt v]> h !! dest = Some (OExt d').
Proof.
  intros Hd. destruct (decide (t = dest)) as [->|Hne].
  - exists v. eapply lookup_written, Hd.
  - exists d. rewrite lookup_other by exact Hne. exact Hd.
Qed.

(** * The properties *)

Ltac in_range_by_computation := vm_compute; split; [discriminate|reflexivity].

(** ** P34 *)

(** C1. For every prime-field element x, [P34(dest, x)] sets dest to
    x^((p-3)/4): the fixed sliding-window chain (the table of the 16 odd
    powers, the accumulator started from the entry for exponent 27, then 137
    rounds of [Pow2k] by [powStrategy[i]] and multiplication by
    [lookup[mulStrategy[i]/2]]) leaves in dest the element of F_p that naive
    square-and-multiply over the exponent (p-3)/4 computes (the two residues
    are congruent modulo p), and that element is x^((p-3)/4). *)
Theorem P34_square_and_multiply (h : list object) (dest x : loc) (vx d : PrimeFieldElement) :
  h !! x = Some (OPrime vx) -> h !! dest = Some (OPrime d) ->
  exec (PrimeFieldElement.P34 dest x) h tt (<[dest := OPrime (p34P vx)]> h)
  /\ Z.pos (Z.to_pos P34_exponent) = (p751 - 3) / 4
  /\ reprP (p34P vx) = reprP (square_and_multiply vx (Z.to_pos P34_exponent))
  /\ val (pf_a (p34P vx)) mod p751
     = val (pf_a (square_and_multiply vx (Z.to_pos P34_exponent))) mod p751
  /\ reprP (p34P vx) = reprP vx ^ ((p751 - 3) / 4) mod p751.
Proof.
  intros Hx Hd. split; [|split; [|split; [|split]]].
  - apply P34_exec with (d := d); assumption.
  - apply P34_exponent_pos.
  - apply reprP_p34P_square_and_multiply.
  - apply reprP_eq_val, reprP_p34P_square_and_multiply.
  - apply is_power_p34P.
Qed.

Lemma P34_square_and_multiply_witness :
  exec (PrimeFieldElement.P34 2 0) prime_store tt
    (<[2%nat := OPrime (p34P twoP)]> prime_store)
  /\ reprP (p34P twoP) = reprP (square_and_multiply twoP (Z.to_pos P34_exponent))
  /\ reprP (p34P twoP) = reprP twoP ^ ((p751 - 3) / 4) mod p751.
Proof.
  destruct (P34_square_and_multiply prime_store 2 0 twoP zeroP eq_refl eq_refl)
    as (E & _ & H & _ & P).
  split; [exact E|]. split; [exact H|exact P].
Defined.

(** ** Inversion *)

(** C2. For every prime-field element x, [Inv(dest, x)] sets dest to
    x^(p-2), computed as ((x^2)^((p-3)/4))^2 * x; consequently, for every
    nonzero x, [Mul(x, Inv(x))] is the one of the field: it stands for 1 in
    F_p, that is, it is congruent modulo p to [montgomeryR], 1 in Montgomery
    form. *)
Theorem Inv_fermat (h : list object) (dest x : loc) (vx d : PrimeFieldElement) :
  h !! x = Some (OPrime vx) -> h !! dest = Some (OPrime d) ->
  exec (PrimeFieldElement.Inv dest x) h tt (<[dest := OPrime (invP vx)]> h)
  /\ invP vx = mulP (squareP (p34P (squareP vx))) vx
  /\ reprP (invP vx) = reprP vx ^ (p751 - 2) mod p751
  /\ (val (pf_a vx) mod p751 <> 0 ->
      reprP (mulP vx (invP vx)) = 1
      /\ val (pf_a (mulP vx (invP vx))) mod p751 = val montgomeryR mod p751
      /\ forall out r, dest <> x -> h !! out = Some (OPrime r) ->
           exec (PrimeFieldElement.Inv dest x;; PrimeFieldElement.Mul out x dest) h tt
             (<[out := OPrime (mulP vx (invP vx))]> (<[dest := OPrime (invP vx)]> h))).
Proof.
  intros Hx Hd. split; [|split; [|split]].
  - apply Inv_exec with (d := d); assumption.
  - reflexivity.
  - apply is_power_invP.
  - intros Hnz. split; [apply reprP_mulP_invP, Hnz|]. split.
    + apply congruent_to_Fp. fold (reprP (mulP vx (invP vx))).
      rewrite (reprP_mulP_invP vx Hnz). symmetry. exact to_Fp_montgomeryR.
    + intros out r Hne Hr.
      eapply exec_bind; [apply (Inv_exec h dest x vx d Hx Hd)|].
      destruct (decide (out = dest)) as [->|Hod].
      * eapply Mul_exec; [|eapply lookup_written, Hd..].
        rewrite list_lookup_insert_ne by exact Hne. exact Hx.
      * eapply Mul_exec.
        -- rewrite list_lookup_insert_ne by exact Hne. exact Hx.
        -- eapply lookup_written, Hd.
        -- rewrite list_lookup_insert_ne by congruence. exact Hr.
Qed.

Lemma Inv_fermat_witness :
  prime_store !! 0%nat = Some (OPrime twoP)
  /\ val (pf_a twoP) mod p751 <> 0
  /\ reprP (mulP twoP (invP twoP)) = 1.
Proof.
  assert (Hnz : val (pf_a twoP) mod p751 <> 0) by (vm_compute; discriminate).
  split; [reflexivity|]. split; [exact Hnz|].
  destruct (Inv_fermat prime_store 2 0 twoP zeroP eq_refl eq_refl) as (_ & _ & _ & H).
  exact (proj1 (H Hnz)).
Defined.

(** C6. [Inv] applied to the zero element, and to any residue that is zero
    modulo p, finishes and returns zero: what it stores stands for 0 in
    F_p, a residue that is zero modulo p.  Inv(0) = 0. *)
Theorem Inv_zero (h : list object) (dest x : loc) (vx d : PrimeFieldElement) :
  h !! x = Some (OPrime vx) -> h !! dest = Some (OPrime d) ->
  val (pf_a vx) mod p751 = 0 ->
  exec (PrimeFieldElement.Inv dest x) h tt (<[dest := OPrime (invP vx)]> h)
  /\ reprP (invP vx) = 0
  /\ val (pf_a (invP vx)) mod p751 = 0.
Proof.
  intros Hx Hd Hz. split; [|split].
  - apply (Inv_exec h dest x vx d Hx Hd).
  - apply reprP_invP_zero, Hz.
  - apply reprP_zero_iff, reprP_invP_zero, Hz.
Qed.

Lemma Inv_zero_witness :
  exec (PrimeFieldElement.Inv 2 2) prime_store tt (<[2%nat := OPrime (invP zeroP)]> prime_store)
  /\ val (pf_a (invP zeroP)) mod p751 = 0.
Proof.
  destruct (Inv_zero prime_store 2 2 zeroP zeroP eq_refl eq_refl eq_refl) as (E & _ & H).
  split; [exact E|exact H].
Defined.

(** ** Square roots *)

(** C3. For every prime-field element x that is a quadratic residue,
    [Sqrt(dest, x)] sets dest to x^((p+1)/4), namely x * x^((p-3)/4) by [P34]
    then [Mul], and squaring the result recovers x: the square stands for
    the same element of F_p as x, that is, it is congruent to x modulo p. *)
Theorem Sqrt_square (h : list object) (dest x : loc) (vx d : PrimeFieldElement) :
  h !! x = Some (OPrime vx) -> h !! dest = Some (OPrime d) ->
  quadratic_residue vx ->
  exec (PrimeFieldElement.Sqrt dest x) h tt (<[dest := OPrime (sqrtP vx)]> h)
  /\ sqrtP vx = mulP (p34P vx) vx
  /\ reprP (sqrtP vx) = reprP vx ^ ((p751 + 1) / 4) mod p751
  /\ reprP (squareP (sqrtP vx)) = reprP vx
  /\ val (pf_a (squareP (sqrtP vx))) mod p751 = val (pf_a vx) mod p751.
Proof.
  intros Hx Hd Hqr. split; [|split; [|split; [|split]]].
  - apply Sqrt_exec with (d := d); assumption.
  - reflexivity.
  - apply is_power_sqrtP.
  - apply reprP_square_sqrtP, Hqr.
  - apply reprP_eq_val, reprP_square_sqrtP, Hqr.
Qed.

Lemma Sqrt_square_witness :
  quadratic_residue oneP /\ reprP (squareP (sqrtP oneP)) = reprP oneP.
Proof.
  split; [exact quadratic_residue_oneP|].
  destruct (Sqrt_square prime_store 2 1 oneP zeroP eq_refl eq_refl quadratic_residue_oneP)
    as (_ & _ & _ & H & _).
  exact H.
Defined.

(** ** The extension field *)

(** C4. For all extension-field elements lhs = a+bi and rhs = c+di with
    coordinates in [0, 2p), [ExtensionFieldElement.Mul(dest, lhs, rhs)],
    computed with three multiplications by Karatsuba's identity
    ad+bc = (b-a)(c-d) + ac + bd, sets dest to the direct four-multiplication
    product (ac-bd) + (ad+bc)i: each coordinate is congruent modulo p to the
    one the direct formula gives, and stands for ac-bd, respectively ad+bc,
    in F_p. *)
Theorem ExtMul_karatsuba (h : list object) (dest lhs rhs : loc) (x y d : ExtensionFieldElement) :
  h !! lhs = Some (OExt x) -> h !! rhs = Some (OExt y) -> h !! dest = Some (OExt d) ->
  in_rangeE x -> in_rangeE y ->
  exec (ExtensionFieldElement.Mul dest lhs rhs) h tt (<[dest := OExt (mulE x y)]> h)
  /\ val (ef_a (mulE x y)) mod p751 = val (ef_a (direct_product x y)) mod p751
  /\ val (ef_b (mulE x y)) mod p751 = val (ef_b (direct_product x y)) mod p751
  /\ to_Fp (ef_a (mulE x y))
     = (to_Fp (ef_a x) * to_Fp (ef_a y) - to_Fp (ef_b x) * to_Fp (ef_b y)) mod p751
  /\ to_Fp (ef_b (mulE x y))
     = (to_Fp (ef_a x) * to_Fp (ef_b y) + to_Fp (ef_b x) * to_Fp (ef_a y)) mod p751.
Proof.
  intros Hl Hr Hd _ _. destruct (congruentE_mulE_direct x y) as [Ca Cb].
  split; [|split; [|split; [|split]]].
  - apply ExtMul_exec with (d := d); assumption.
  - exact Ca.
  - exact Cb.
  - apply to_Fp_mulE_a.
  - apply to_Fp_mulE_b.
Qed.

Lemma ExtMul_karatsuba_witness :
  in_rangeE (ExtElt (pf_a twoP) montgomeryR) /\ in_rangeE oneE
  /\ exec (ExtensionFieldElement.Mul 0 0 1) ext_store tt
       (<[0%nat := OExt (mulE (ExtElt (pf_a twoP) montgomeryR) oneE)]> ext_store)
  /\ val (ef_a (mulE (ExtElt (pf_a twoP) montgomeryR) oneE)) mod p751
     = val (ef_a (direct_product (ExtElt (pf_a twoP) montgomeryR) oneE)) mod p751.
Proof.
  assert (Hx : in_rangeE (ExtElt (pf_a twoP) montgomeryR))
    by (split; in_range_by_computation).
  assert (Hy : in_rangeE oneE) by (split; in_range_by_computation).
  split; [exact Hx|]. split; [exact Hy|].
  destruct (ExtMul_karatsuba ext_store 0 0 1 (ExtElt (pf_a twoP) montgomeryR) oneE
              (ExtElt (pf_a twoP) montgomeryR) eq_refl eq_refl eq_refl Hx Hy)
    as (E & H & _).
  split; [exact E|exact H].
Defined.

(** C7, as stated: the element built from the literal
    [ExtensionFieldElement{1,0}] is not the multiplicative identity.  With x
    the one of the field in Montgomery form, [Mul(x, {1,0})] leaves the
    literal itself in dest, which is not x, and is not congruent to x
    modulo p either. *)
Lemma literal_one_not_identity :
  final (ExtensionFieldElement.Mul 0 1 3) ext_store 0%nat = Some (OExt literal_one)
  /\ ext_store !! 1%nat = Some (OExt oneE)
  /\ ext_store !! 3%nat = Some (OExt literal_one)
  /\ literal_one <> oneE
  /\ val (ef_a literal_one) mod p751 <> val (ef_a oneE) mod p751.
Proof. vm_compute. repeat split; discriminate. Qed.

(** C7, amended.  The multiplicative identity is the element whose [a]
    coordinate is [montgomeryR] (1 in Montgomery form) and whose [b]
    coordinate is zero: for every extension-field element x with
    coordinates in [0, 2p), [Mul(x, one)] leaves in dest an element
    congruent to x modulo p, coordinate by coordinate. *)
Theorem ExtMul_one (h : list object) (dest lhs rhs : loc) (x d : ExtensionFieldElement) :
  h !! lhs = Some (OExt x) -> h !! rhs = Some (OExt oneE) -> h !! dest = Some (OExt d) ->
  in_rangeE x ->
  exec (ExtensionFieldElement.Mul dest lhs rhs) h tt (<[dest := OExt (mulE x oneE)]> h)
  /\ val (ef_a (mulE x oneE)) mod p751 = val (ef_a x) mod p751
  /\ val (ef_b (mulE x oneE)) mod p751 = val (ef_b x) mod p751.
Proof.
  intros Hl Hr Hd _. destruct (congruentE_mulE_one x) as [Ca Cb].
  split; [|split].
  - apply ExtMul_exec with (d := d); assumption.
  - exact Ca.
  - exact Cb.
Qed.

Lemma ExtMul_one_witness :
  in_rangeE (ExtElt (pf_a twoP) montgomeryR)
  /\ exec (ExtensionFieldElement.Mul 2 0 1) ext_store tt
       (<[2%nat := OExt (mulE (ExtElt (pf_a twoP) montgomeryR) oneE)]> ext_store)
  /\ val (ef_a (mulE (ExtElt (pf_a twoP) montgomeryR) oneE)) mod p751
     = val (pf_a twoP) mod p751
  /\ val (ef_b (mulE (ExtElt (pf_a twoP) montgomeryR) oneE)) mod p751
     = val montgomeryR mod p751.
Proof.
  assert (Hx : in_rangeE (ExtElt (pf_a twoP) montgomeryR))
    by (split; in_range_by_computation).
  split; [exact Hx|].
  exact (ExtMul_one ext_store 2 0 1 (ExtElt (pf_a twoP) montgomeryR) oneE
           eq_refl eq_refl eq_refl Hx).
Defined.

(** ** Aliasing *)

Lemma alias_safe_unary_prime op f :
  (forall h dest x vx d,
     h !! x = Some (OPrime vx) -> h !! dest = Some (OPrime d) ->
     exec (op dest x) h tt (<[dest := OPrime (f vx)]> h)) ->
  alias_safe_unary is_prime op.
Proof.
  intros Hex h h' dest x dest' x' vx d d' [v ->] [d0 ->] [d0' ->] Hx Hd Hx' Hd' _.
  rewrite (exec_final _ _ _ _ dest (Hex h dest x v d0 Hx Hd)).
  rewrite (exec_final _ _ _ _ dest' (Hex h' dest' x' v d0' Hx' Hd')).
  rewrite (lookup_written _ _ _ _ Hd), (lookup_written _ _ _ _ Hd'). eauto.
Qed.

Lemma alias_safe_binary_prime op f :
  (forall h dest lhs rhs x y d,
     h !! lhs = Some (OPrime x) -> h !! rhs = Some (OPrime y) -> h !! dest = Some (OPrime d) ->
     exec (op dest lhs rhs) h tt (<[dest := OPrime (f x y)]> h)) ->
  alias_safe_binary is_prime op.
Proof.
  intros Hex h h' dest lhs rhs dest' lhs' rhs' vl vr d d'
    [x ->] [y ->] [d0 ->] [d0' ->] Hl Hr Hd Hl' Hr' Hd' _ _ _.
  rewrite (exec_final _ _ _ _ dest (Hex h dest lhs rhs x y d0 Hl Hr Hd)).
  rewrite (exec_final _ _ _ _ dest' (Hex h' dest' lhs' rhs' x y d0' Hl' Hr' Hd')).
  rewrite (lookup_written _ _ _ _ Hd), (lookup_written _ _ _ _ Hd'). eauto.
Qed.

Lemma alias_safe_unary_ext op f :
  (forall h dest x vx d,
     h !! x = Some (OExt vx) -> h !! dest = Some (OExt d) ->
     exec (op dest x) h tt (<[dest := OExt (f vx)]> h)) ->
  alias_safe_unary is_ext op.
Proof.
  intros Hex h h' dest x dest' x' vx d d' [v ->] [d0 ->] [d0' ->] Hx Hd Hx' Hd' _.
  rewrite (exec_final _ _ _ _ dest (Hex h dest x v d0 Hx Hd)).
  rewrite (exec_final _ _ _ _ dest' (Hex h' dest' x' v d0' Hx' Hd')).
  rewrite (lookup_written _ _ _ _ Hd), (lookup_written _ _ _ _ Hd'). eauto.
Qed.

Lemma alias_safe_binary_ext op f :
  (forall h dest lhs rhs x y d,
     h !! lhs = Some (OExt x) -> h !! rhs = Some (OExt y) -> h !! dest = Some (OExt d) ->
     exec (op dest lhs rhs) h tt (<[dest := OExt (f x y)]> h)) ->
  alias_safe_binary is_ext op.
Proof.
  intros Hex h h' dest lhs rhs dest' lhs' rhs' vl vr d d'
    [x ->] [y ->] [d0 ->] [d0' ->] Hl Hr Hd Hl' Hr' Hd' _ _ _.
  rewrite (exec_final _ _ _ _ dest (Hex h dest lhs rhs x y d0 Hl Hr Hd)).
  rewrite (exec_final _ _ _ _ dest' (Hex h' dest' lhs' rhs' x y d0' Hl' Hr' Hd')).
  rewrite (lookup_written _ _ _ _ Hd), (lookup_written _ _ _ _ Hd'). eauto.
Qed.

(** C5. For every operation [Mul], [Square], [Inv], [Add], [Sub] of
    [PrimeFieldElement] and of [ExtensionFieldElement], and for [Sqrt],
    [Pow2k] and [P34], and for every input: a call whose destination aliases
    one or more of its operands finishes, and leaves in its destination the
    value that a call on distinct, non-aliased storage leaves there for the
    same operand values. *)
Theorem aliasing_safe :
  alias_safe_binary is_prime PrimeFieldElement.Mul
  /\ alias_safe_unary is_prime PrimeFieldElement.Square
  /\ alias_safe_unary is_prime PrimeFieldElement.Inv
  /\ alias_safe_binary is_prime PrimeFieldElement.Add
  /\ alias_safe_binary is_prime PrimeFieldElement.Sub
  /\ alias_safe_unary is_prime PrimeFieldElement.Sqrt
  /\ (forall k, alias_safe_unary is_prime (fun dest x => PrimeFieldElement.Pow2k dest x k))
  /\ alias_safe_unary is_prime PrimeFieldElement.P34
  /\ alias_safe_binary is_ext ExtensionFieldElement.Mul
  /\ alias_safe_unary is_ext ExtensionFieldElement.Square
  /\ alias_safe_unary is_ext ExtensionFieldElement.Inv
  /\ alias_safe_binary is_ext ExtensionFieldElement.Add
  /\ alias_safe_binary is_ext ExtensionFieldElement.Sub.
Proof.
  repeat apply conj.
  - apply (alias_safe_binary_prime _ mulP), Mul_exec.
  - apply (alias_safe_unary_prime _ squareP), Square_exec.
  - apply (alias_safe_unary_prime _ invP), Inv_exec.
  - apply (alias_safe_binary_prime _ addP), Add_exec.
  - apply (alias_safe_binary_prime _ subP), Sub_exec.
  - apply (alias_safe_unary_prime _ sqrtP), Sqrt_exec.
  - intros k. apply (alias_safe_unary_prime _ (fun x => pow2kP x k)).
    intros h dest x vx d. apply Pow2k_exec.
  - apply (alias_safe_unary_prime _ p34P), P34_exec.
  - apply (alias_safe_binary_ext _ mulE), ExtMul_exec.
  - apply (alias_safe_unary_ext _ squareE), ExtSquare_exec.
  - apply (alias_safe_unary_ext _ invE), ExtInv_exec.
  - apply (alias_safe_binary_ext _ addE), ExtAdd_exec.
  - apply (alias_safe_binary_ext _ subE), ExtSub_exec.
Qed.

Lemma aliasing_safe_witness :
  is_Some (final (ExtensionFieldElement.Inv 1 1) ext_store 1%nat)
  /\ final (ExtensionFieldElement.Inv 1 1) ext_store 1%nat
     = final (ExtensionFieldElement.Inv 0 2) ext_store 0%nat.
Proof.
  destruct aliasing_safe as (_ & _ & _ & _ & _ & _ & _ & _ & _ & _ & H & _).
  apply (H ext_store ext_store 1 1 0 2 (OExt oneE) (OExt oneE)
           (OExt (ExtElt (pf_a twoP) montgomeryR)))%nat;
    solve [eexists; reflexivity | reflexivity | discriminate].
Defined.

(** ** Variable-time equality *)

(** C8. For operands whose limb arrays encode values in [0, 2p), the domain
    of [StrongReduce], [PrimeFieldElement.VartimeEq] and
    [ExtensionFieldElement.VartimeEq] return true if and only if the
    operands are congruent modulo p (coordinate by coordinate for the
    extension field), and the store, hence both operands, is left as it
    was: the comparison strong-reduces copies. *)
Theorem VartimeEq_congruent :
  (forall (h : list object) (lhs rhs : loc) (x y : PrimeFieldElement),
     h !! lhs = Some (OPrime x) -> h !! rhs = Some (OPrime y) ->
     0 <= val (pf_a x) < 2 * p751 -> 0 <= val (pf_a y) < 2 * p751 ->
     exists b, exec (PrimeFieldElement.VartimeEq lhs rhs) h b h
       /\ (b = true <-> val (pf_a x) mod p751 = val (pf_a y) mod p751))
  /\ (forall (h : list object) (lhs rhs : loc) (x y : ExtensionFieldElement),
     h !! lhs = Some (OExt x) -> h !! rhs = Some (OExt y) ->
     0 <= val (ef_a x) < 2 * p751 -> 0 <= val (ef_a y) < 2 * p751 ->
     0 <= val (ef_b x) < 2 * p751 -> 0 <= val (ef_b y) < 2 * p751 ->
     exists b, exec (ExtensionFieldElement.VartimeEq lhs rhs) h b h
       /\ (b = true <-> val (ef_a x) mod p751 = val (ef_a y) mod p751
                        /\ val (ef_b x) mod p751 = val (ef_b y) mod p751)).
Proof.
  split.
  - intros h lhs rhs x y Hl Hr Hx Hy. exists (eqP (pf_a x) (pf_a y)). split.
    + apply VartimeEq_exec; assumption.
    + apply eqP_true_iff; assumption.
  - intros h lhs rhs x y Hl Hr Hxa Hya Hxb Hyb.
    exists (eqP (ef_a x) (ef_a y) && eqP (ef_b x) (ef_b y)). split.
    + apply ExtVartimeEq_exec; assumption.
    + rewrite andb_true_iff, !eqP_true_iff by assumption. reflexivity.
Qed.

Lemma VartimeEq_congruent_witness :
  exists b, exec (PrimeFieldElement.VartimeEq 0 1) prime_store b prime_store
    /\ (b = true <-> val (pf_a twoP) mod p751 = val (pf_a oneP) mod p751).
Proof.
  apply (proj1 VartimeEq_congruent prime_store 0 1 twoP oneP)%nat;
    solve [reflexivity | vm_compute; split; [discriminate|reflexivity]].
Defined.

(** ** Pow2k with k = 0 *)

(** C9. For every prime-field element x, [Pow2k(dest, x, 0)] behaves as
    [Pow2k(dest, x, 1)]: it performs exactly one squaring and sets dest to
    x^2, rather than returning x = x^(2^0) unchanged (the square of two is
    not two). *)
Theorem Pow2k_zero (h : list object) (dest x : loc) (vx d : PrimeFieldElement) :
  h !! x = Some (OPrime vx) -> h !! dest = Some (OPrime d) ->
  (forall s, PrimeFieldElement.Pow2k dest x 0 s = PrimeFieldElement.Pow2k dest x 1 s)
  /\ (forall s, PrimeFieldElement.Pow2k dest x 0 s
                = (PrimeFieldElement.Square dest x;; emit (EvBranch false)) s)
  /\ exec (PrimeFieldElement.Pow2k dest x 0) h tt (<[dest := OPrime (squareP vx)]> h)
  /\ exec (PrimeFieldElement.Pow2k dest x 1) h tt (<[dest := OPrime (squareP vx)]> h)
  /\ squareP twoP <> twoP.
Proof.
  intros Hx Hd. split; [|split; [|split; [|split]]].
  - intros s. reflexivity.
  - intros s. unfold PrimeFieldElement.Pow2k, for_, mbind, M_bind. cbn [for_loop Nat.ltb Nat.leb].
    destruct (PrimeFieldElement.Square dest x s) as [[[] s1]|]; reflexivity.
  - apply (Pow2k_exec h dest x 0 vx d Hx Hd).
  - apply (Pow2k_exec h dest x 1 vx d Hx Hd).
  - vm_compute. discriminate.
Qed.

Lemma Pow2k_zero_witness :
  exec (PrimeFieldElement.Pow2k 2 0 0) prime_store tt
    (<[2%nat := OPrime (squareP twoP)]> prime_store).
Proof. apply (Pow2k_zero prime_store 2 0 twoP zeroP); reflexivity. Defined.

(** ** Constant time *)

(** C10. Every operation of the core, the operations named variable-time
    ([VartimeEq]) apart, is constant-time: on stores of one layout its
    control flow (the outcome of every branch and loop test) and its
    memory-access pattern (the addresses read, written, pushed and popped)
    are the same whatever values the operands hold; in particular no
    branch and no loop bound of the exponentiation routine [P34] depends on
    the value of the operand. *)
Theorem core_constant_time :
  (forall dest x1 x2 h1 h2, same_layout h1 h2 ->
     leak (PrimeFieldElement.SetUint64 dest x1) h1
     = leak (PrimeFieldElement.SetUint64 dest x2) h2)
  /\ (forall dest lhs rhs, constant_time (PrimeFieldElement.Mul dest lhs rhs))
  /\ (forall dest x, constant_time (PrimeFieldElement.Square dest x))
  /\ (forall dest x k, constant_time (PrimeFieldElement.Pow2k dest x k))
  /\ (forall dest lhs rhs, constant_time (PrimeFieldElement.Add dest lhs rhs))
  /\ (forall dest lhs rhs, constant_time (PrimeFieldElement.Sub dest lhs rhs))
  /\ (forall dest x, constant_time (PrimeFieldElement.P34 dest x))
  /\ (forall dest x, constant_time (PrimeFieldElement.Sqrt dest x))
  /\ (forall dest x, constant_time (PrimeFieldElement.Inv dest x))
  /\ (forall dest lhs rhs, constant_time (ExtensionFieldElement.Mul dest lhs rhs))
  /\ (forall dest x, constant_time (ExtensionFieldElement.Square dest x))
  /\ (forall dest x, constant_time (ExtensionFieldElement.Inv dest x))
  /\ (forall dest lhs rhs, constant_time (ExtensionFieldElement.Add dest lhs rhs))
  /\ (forall dest lhs rhs, constant_time (ExtensionFieldElement.Sub dest lhs rhs)).
Proof.
  split; [intros dest x1 x2 h1 h2; apply ct_rel_leak, ct_SetUint64|].
  repeat apply conj; intros; apply ct_rel_constant_time.
  - apply ct_Mul.
  - apply ct_Square.
  - apply ct_Pow2k.
  - apply ct_Add.
  - apply ct_Sub.
  - apply ct_P34.
  - apply ct_Sqrt.
  - apply ct_Inv.
  - apply ct_ExtMul.
  - apply ct_ExtSquare.
  - apply ct_ExtInv.
  - apply ct_ExtAdd.
  - apply ct_ExtSub.
Qed.

Lemma core_constant_time_witness :
  leak (PrimeFieldElement.P34 2 0) prime_store
  = leak (PrimeFieldElement.P34 2 0) [OPrime zeroP; OPrime twoP; OPrime oneP].
Proof.
  destruct core_constant_time as (_ & _ & _ & _ & _ & _ & H & _).
  apply (H 2 0 prime_store [OPrime zeroP; OPrime twoP; OPrime oneP])%nat.
  vm_compute. reflexivity.
Defined.

(** The variable-time comparison is observed differently on equal and on
    different operands: its branches follow the limbs compared. *)
Lemma VartimeEq_not_constant_time :
  ~ constant_time (PrimeFieldElement.VartimeEq 0 1).
Proof.
  intros H.
  specialize (H [OPrime oneP; OPrime oneP] [OPrime oneP; OPrime zeroP] eq_refl).
  vm_compute in H. discriminate H.
Qed.

(** * Further properties of the methods

    The field laws the methods obey on the elements their results stand
    for, how the methods compose on a store, what they leave alone and what
    they cost. *)

(** ** [SetUint64] *)

(** X1. [SetUint64(x)] stores x in Montgomery form: a residue congruent to
    x*R modulo p, which stands for x in F_p. *)
Theorem SetUint64_montgomery (h : list object) (dest : loc) (x : Z) (d : PrimeFieldElement) :
  h !! dest = Some (OPrime d) -> 0 <= x < word ->
  exists r, exec (PrimeFieldElement.SetUint64 dest x) h tt (<[dest := OPrime r]> h)
    /\ val (pf_a r) mod p751 = (x * radix) mod p751
    /\ reprP r = x.
Proof.
  intros Hd Hx.
  destruct (SetUint64_value x Hx) as [Hv Hr].
  exists (PrimeElt (fp751MontgomeryReduce
            (fp751Mul (<[0%nat := x mod word]> fp751Zero) montgomeryRsq))).
  split; [|split].
  - apply SetUint64_exec with (d := d). exact Hd.
  - exact Hv.
  - exact Hr.
Qed.

Lemma SetUint64_montgomery_witness :
  exists r, exec (PrimeFieldElement.SetUint64 2 7) prime_store tt (<[2%nat := OPrime r]> prime_store)
    /\ reprP r = 7.
Proof.
  destruct (SetUint64_montgomery prime_store 2 7 zeroP eq_refl) as (r & E & _ & H).
  - unfold word. lia.
  - exists r. split; [exact E|exact H].
Defined.

(** X2. [SetUint64] carries the arithmetic of the integers into the
    field: the product of [SetUint64(x)] and [SetUint64(y)] stands for the
    integer x*y and their sum for x+y, exactly (both are below p, so
    nothing wraps around). *)
Theorem SetUint64_arithmetic (h : list object) (dest a b : loc) (x y : Z)
    (d va vb : PrimeFieldElement) :
  h !! a = Some (OPrime va) -> h !! b = Some (OPrime vb) -> h !! dest = Some (OPrime d) ->
  a <> b -> 0 <= x < word -> 0 <= y < word ->
  exists p s,
    final (PrimeFieldElement.SetUint64 a x;; PrimeFieldElement.SetUint64 b y;;
           PrimeFieldElement.Mul dest a b) h dest = Some (OPrime p)
    /\ reprP p = x * y
    /\ final (PrimeFieldElement.SetUint64 a x;; PrimeFieldElement.SetUint64 b y;;
              PrimeFieldElement.Add dest a b) h dest = Some (OPrime s)
    /\ reprP s = x + y.
Proof.
  intros Ha Hb Hd Hab Hx Hy.
  destruct (SetUint64_value x Hx) as [_ Rx]. destruct (SetUint64_value y Hy) as [_ Ry].
  pose proof (SetUint64_exec h a x va Ha) as Ex.
  set (rx := PrimeElt (fp751MontgomeryReduce
               (fp751Mul (<[0%nat := x mod word]> fp751Zero) montgomeryRsq))) in *.
  set (ry := PrimeElt (fp751MontgomeryReduce
               (fp751Mul (<[0%nat := y mod word]> fp751Zero) montgomeryRsq))) in *.
  assert (Rx' : reprP rx = x) by exact Rx.
  assert (Ry' : reprP ry = y) by exact Ry.
  set (h1 := <[a := OPrime rx]> h) in *.
  assert (Hb1 : h1 !! b = Some (OPrime vb))
    by (unfold h1; rewrite lookup_other by exact Hab; exact Hb).
  pose proof (SetUint64_exec h1 b y vb Hb1) as Ey. fold ry in Ey.
  set (h2 := <[b := OPrime ry]> h1) in *.
  assert (Ha2 : h2 !! a = Some (OPrime rx)).
  { unfold h2. rewrite lookup_other by (apply not_eq_sym; exact Hab).
    unfold h1. eapply lookup_written, Ha. }
  assert (Hb2 : h2 !! b = Some (OPrime ry)) by (unfold h2; eapply lookup_written, Hb1).
  destruct (lookup_insert_prime h a dest rx d Hd) as (d1 & Hd1). fold h1 in Hd1.
  destruct (lookup_insert_prime h1 b dest ry d1 Hd1) as (d2 & Hd2). fold h2 in Hd2.
  pose proof word_sq_lt_p751 as Hw. pose proof word_lt_p751 as Hw1.
  assert (0 < word) by (unfold word; lia).
  exists (mulP rx ry), (addP rx ry). split; [|split; [|split]].
  - erewrite exec_final.
    2:{ eapply exec_seq; [exact Ex|]. eapply exec_seq; [exact Ey|].
        exact (Mul_exec h2 dest a b rx ry d2 Ha2 Hb2 Hd2). }
    eapply lookup_written, Hd2.
  - rewrite reprP_mulP, Rx', Ry'. apply Z.mod_small. nia.
  - erewrite exec_final.
    2:{ eapply exec_seq; [exact Ex|]. eapply exec_seq; [exact Ey|].
        exact (Add_exec h2 dest a b rx ry d2 Ha2 Hb2 Hd2). }
    eapply lookup_written, Hd2.
  - rewrite reprP_addP, Rx', Ry'. apply Z.mod_small. nia.
Qed.

Lemma SetUint64_arithmetic_witness :
  exists p s,
    final (PrimeFieldElement.SetUint64 0 6;; PrimeFieldElement.SetUint64 1 7;;
           PrimeFieldElement.Mul 2 0 1) prime_store 2%nat = Some (OPrime p)
    /\ reprP p = 6 * 7
    /\ final (PrimeFieldElement.SetUint64 0 6;; PrimeFieldElement.SetUint64 1 7;;
              PrimeFieldElement.Add 2 0 1) prime_store 2%nat = Some (OPrime s)
    /\ reprP s = 6 + 7.
Proof.
  apply (SetUint64_arithmetic prime_store 2 0 1 6 7 zeroP twoP oneP eq_refl eq_refl eq_refl);
    unfold word; lia.
Defined.

(** ** [Pow2k] *)

(** X3. [Pow2k(x, k)] for a count 1 <= k <= 255 (k is a [uint8]) stores
    x^(2^k): what it leaves in dest stands for that power in F_p. *)
Theorem Pow2k_power (h : list object) (dest x : loc) (k : nat) (vx d : PrimeFieldElement) :
  h !! x = Some (OPrime vx) -> h !! dest = Some (OPrime d) -> (1 <= k <= 255)%nat ->
  exists r, exec (PrimeFieldElement.Pow2k dest x k) h tt (<[dest := OPrime r]> h)
    /\ reprP r = reprP vx ^ (2 ^ Z.of_nat k) mod p751.
Proof.
  intros Hx Hd Hk. exists (pow2kP vx k). split.
  - apply Pow2k_exec with (d := d); assumption.
  - destruct (is_power_pow2kP _ _ _ k (is_power_base vx)) as [_ H].
    rewrite H. replace (S (k - 1)) with k by lia. rewrite Z.mul_1_l. reflexivity.
Qed.

Lemma Pow2k_power_witness :
  exists r, exec (PrimeFieldElement.Pow2k 2 0 3) prime_store tt (<[2%nat := OPrime r]> prime_store)
    /\ reprP r = reprP twoP ^ (2 ^ Z.of_nat 3) mod p751.
Proof.
  apply (Pow2k_power prime_store 2 0 3 twoP zeroP eq_refl eq_refl). lia.
Defined.

Lemma pow2kP_compose x k1 k2 :
  pow2kP (pow2kP x k1) k2 = pow2kP x (Nat.max 1 k1 + Nat.max 1 k2).
Proof.
  rewrite !pow2kP_iter.
  replace (S (Nat.max 1 k1 + Nat.max 1 k2 - 1)) with (S (k2 - 1) + S (k1 - 1))%nat by lia.
  symmetry. apply Nat.iter_add.
Qed.

(** X4. Two calls of [Pow2k] in a row add their exponents, a count of 0
    standing for 1 (the first squaring is made before [k] is looked at):
    [Pow2k(x, k1)] followed by [Pow2k(dest, k2)] in place leaves what
    [Pow2k(x, max(1,k1) + max(1,k2))] leaves. *)
Theorem Pow2k_compose (h : list object) (dest x : loc) (k1 k2 : nat) (vx d : PrimeFieldElement) :
  h !! x = Some (OPrime vx) -> h !! dest = Some (OPrime d) ->
  (Nat.max 1 k1 + Nat.max 1 k2 <= 255)%nat ->
  exists r,
    exec (PrimeFieldElement.Pow2k dest x k1;; PrimeFieldElement.Pow2k dest dest k2) h tt
      (<[dest := OPrime r]> h)
    /\ exec (PrimeFieldElement.Pow2k dest x (Nat.max 1 k1 + Nat.max 1 k2)) h tt
      (<[dest := OPrime r]> h).
Proof.
  intros Hx Hd _. exists (pow2kP vx (Nat.max 1 k1 + Nat.max 1 k2)). split.
  - eapply exec_seq; [apply Pow2k_exec with (d := d); eassumption|].
    rewrite <- pow2kP_compose.
    pose proof (Pow2k_exec (<[dest := OPrime (pow2kP vx k1)]> h) dest dest k2
                  (pow2kP vx k1) (pow2kP vx k1)
                  (lookup_written _ _ _ _ Hd) (lookup_written _ _ _ _ Hd)) as E.
    rewrite list_insert_insert_eq in E. exact E.
  - apply Pow2k_exec with (d := d); assumption.
Qed.

Lemma Pow2k_compose_witness :
  exists r,
    exec (PrimeFieldElement.Pow2k 2 0 0;; PrimeFieldElement.Pow2k 2 2 4) prime_store tt
      (<[2%nat := OPrime r]> prime_store)
    /\ exec (PrimeFieldElement.Pow2k 2 0 5) prime_store tt (<[2%nat := OPrime r]> prime_store).
Proof.
  apply (Pow2k_compose prime_store 2 0 0 4 twoP zeroP eq_refl eq_refl). cbn. lia.
Defined.

(** ** The prime field is a field *)

(** X5. [Mul] is commutative: exchanging the operands leaves the same
    store. *)
Theorem PrimeMul_commutative (h : list object) (dest lhs rhs : loc) (x y d : PrimeFieldElement) :
  h !! lhs = Some (OPrime x) -> h !! rhs = Some (OPrime y) -> h !! dest = Some (OPrime d) ->
  exists r, exec (PrimeFieldElement.Mul dest lhs rhs) h tt (<[dest := OPrime r]> h)
    /\ exec (PrimeFieldElement.Mul dest rhs lhs) h tt (<[dest := OPrime r]> h).
Proof.
  intros Hl Hr Hd. exists (mulP x y). split.
  - apply Mul_exec with (d := d); assumption.
  - rewrite mulP_comm. apply Mul_exec with (d := d); assumption.
Qed.

Lemma PrimeMul_commutative_witness :
  exists r, exec (PrimeFieldElement.Mul 2 0 1) prime_store tt (<[2%nat := OPrime r]> prime_store)
    /\ exec (PrimeFieldElement.Mul 2 1 0) prime_store tt (<[2%nat := OPrime r]> prime_store).
Proof.
  exact (PrimeMul_commutative prime_store 2 0 1 twoP oneP zeroP eq_refl eq_refl eq_refl).
Defined.

(** X6. [Mul] is associative in F_p: (a*b)*c and a*(b*c), each computed in
    place in [dest], leave residues that stand for one element of F_p
    (congruent modulo p). *)
Theorem PrimeMul_associative (h : list object) (dest a b c : loc) (va vb vc d : PrimeFieldElement) :
  h !! a = Some (OPrime va) -> h !! b = Some (OPrime vb) -> h !! c = Some (OPrime vc) ->
  h !! dest = Some (OPrime d) -> dest <> a -> dest <> c ->
  exists r1 r2,
    exec (PrimeFieldElement.Mul dest a b;; PrimeFieldElement.Mul dest dest c) h tt
      (<[dest := OPrime r1]> h)
    /\ exec (PrimeFieldElement.Mul dest b c;; PrimeFieldElement.Mul dest a dest) h tt
      (<[dest := OPrime r2]> h)
    /\ reprP r1 = reprP r2
    /\ val (pf_a r1) mod p751 = val (pf_a r2) mod p751.
Proof.
  intros Ha Hb Hc Hd Hda Hdc.
  exists (mulP (mulP va vb) vc), (mulP va (mulP vb vc)). split; [|split; [|split]].
  - eapply exec_seq; [apply Mul_exec with (d := d); eassumption|].
    pose proof (Mul_exec (<[dest := OPrime (mulP va vb)]> h) dest dest c
                  (mulP va vb) vc (mulP va vb)
                  (lookup_written _ _ _ _ Hd)
                  (eq_trans (lookup_other _ _ _ _ Hdc) Hc)
                  (lookup_written _ _ _ _ Hd)) as E.
    rewrite list_insert_insert_eq in E. exact E.
  - eapply exec_seq; [apply Mul_exec with (d := d); eassumption|].
    pose proof (Mul_exec (<[dest := OPrime (mulP vb vc)]> h) dest a dest
                  va (mulP vb vc) (mulP vb vc)
                  (eq_trans (lookup_other _ _ _ _ Hda) Ha)
                  (lookup_written _ _ _ _ Hd)
                  (lookup_written _ _ _ _ Hd)) as E.
    rewrite list_insert_insert_eq in E. exact E.
  - apply reprP_mulP_assoc.
  - apply reprP_eq_val, reprP_mulP_assoc.
Qed.

Lemma PrimeMul_associative_witness :
  exists r1 r2,
    exec (PrimeFieldElement.Mul 2 0 0;; PrimeFieldElement.Mul 2 2 1) prime_store tt
      (<[2%nat := OPrime r1]> prime_store)
    /\ exec (PrimeFieldElement.Mul 2 0 1;; PrimeFieldElement.Mul 2 0 2) prime_store tt
      (<[2%nat := OPrime r2]> prime_store)
    /\ reprP r1 = reprP r2.
Proof.
  destruct (PrimeMul_associative prime_store 2 0 0 1 twoP twoP oneP zeroP
              eq_refl eq_refl eq_refl eq_refl) as (r1 & r2 & E1 & E2 & H & _).
  - lia.
  - lia.
  - exists r1, r2. split; [exact E1|]. split; [exact E2|exact H].
Defined.

(** X7. [Mul] distributes over [Add] in F_p: x*(y+z), with the sum in a
    temporary [t], and x*y + x*z, with the first product in [t], leave in
    [dest] residues that stand for one element of F_p (congruent modulo p). *)
Theorem PrimeMul_Add_distributive (h : list object) (dest t x y z : loc)
    (vx vy vz d vt : PrimeFieldElement) :
  h !! x = Some (OPrime vx) -> h !! y = Some (OPrime vy) -> h !! z = Some (OPrime vz) ->
  h !! dest = Some (OPrime d) -> h !! t = Some (OPrime vt) ->
  t <> x -> t <> z -> t <> dest ->
  exists r1 r2,
    final (PrimeFieldElement.Add t y z;; PrimeFieldElement.Mul dest x t) h dest
      = Some (OPrime r1)
    /\ final (PrimeFieldElement.Mul t x y;; PrimeFieldElement.Mul dest x z;;
              PrimeFieldElement.Add dest t dest) h dest
      = Some (OPrime r2)
    /\ reprP r1 = reprP r2
    /\ val (pf_a r1) mod p751 = val (pf_a r2) mod p751.
Proof.
  intros Hx Hy Hz Hd Ht Htx Htz Htd.
  exists (mulP vx (addP vy vz)), (addP (mulP vx vy) (mulP vx vz)).
  split; [|split; [|split]].
  - erewrite exec_final.
    2:{ eapply exec_seq; [apply Add_exec with (d := vt); eassumption|].
        eapply (Mul_exec _ dest x t vx (addP vy vz) d).
        - rewrite lookup_other by exact Htx. exact Hx.
        - eapply lookup_written, Ht.
        - rewrite lookup_other by exact Htd. exact Hd. }
    eapply lookup_written. rewrite lookup_other by exact Htd. exact Hd.
  - erewrite exec_final.
    2:{ eapply exec_seq; [apply Mul_exec with (d := vt); eassumption|].
        eapply exec_seq.
        - eapply (Mul_exec _ dest x z vx vz d).
          + rewrite lookup_other by exact Htx. exact Hx.
          + rewrite lookup_other by exact Htz. exact Hz.
          + rewrite lookup_other by exact Htd. exact Hd.
        - eapply (Add_exec _ dest t dest (mulP vx vy) (mulP vx vz) (mulP vx vz)).
          + rewrite lookup_other by (apply not_eq_sym; exact Htd).
            eapply lookup_written, Ht.
          + eapply lookup_written. rewrite lookup_other by exact Htd. exact Hd.
          + eapply lookup_written. rewrite lookup_other by exact Htd. exact Hd. }
    eapply lookup_written, lookup_written.
    rewrite lookup_other by exact Htd. exact Hd.
  - apply reprP_mulP_addP_distr.
  - apply reprP_eq_val, reprP_mulP_addP_distr.
Qed.

Lemma PrimeMul_Add_distributive_witness :
  exists r1 r2,
    final (PrimeFieldElement.Add 2 0 1;; PrimeFieldElement.Mul 3 0 2)
      (prime_store ++ [OPrime zeroP]) 3%nat = Some (OPrime r1)
    /\ final (PrimeFieldElement.Mul 2 0 0;; PrimeFieldElement.Mul 3 0 1;;
              PrimeFieldElement.Add 3 2 3)
      (prime_store ++ [OPrime zeroP]) 3%nat = Some (OPrime r2)
    /\ reprP r1 = reprP r2.
Proof.
  destruct (PrimeMul_Add_distributive (prime_store ++ [OPrime zeroP]) 3 2 0 0 1
              twoP twoP oneP zeroP zeroP eq_refl eq_refl eq_refl eq_refl eq_refl)
    as (r1 & r2 & E1 & E2 & H & _).
  - lia.
  - lia.
  - lia.
  - exists r1, r2. split; [exact E1|]. split; [exact E2|exact H].
Defined.

(** X8. [Add] and [Sub] undo one another: adding y and then subtracting
    it, or the reverse, leaves x reduced modulo p, and x itself when x is
    in canonical range. *)
Theorem PrimeAdd_Sub_round_trip (h : list object) (dest x y : loc) (vx vy d : PrimeFieldElement) :
  h !! x = Some (OPrime vx) -> h !! y = Some (OPrime vy) -> h !! dest = Some (OPrime d) ->
  dest <> y ->
  exists r,
    exec (PrimeFieldElement.Add dest x y;; PrimeFieldElement.Sub dest dest y) h tt
      (<[dest := OPrime r]> h)
    /\ exec (PrimeFieldElement.Sub dest x y;; PrimeFieldElement.Add dest dest y) h tt
      (<[dest := OPrime r]> h)
    /\ val (pf_a r) = val (pf_a vx) mod p751
    /\ (canonical (pf_a vx) -> r = vx).
Proof.
  intros Hx Hy Hd Hdy.
  assert (E1 : subP (addP vx vy) vy = PrimeElt (of_Z (val (pf_a vx) mod p751))).
  { unfold subP, addP, fp751SubReduced. cbn [pf_a]. rewrite val_AddReduced.
    do 2 f_equal. modp. }
  assert (E2 : addP (subP vx vy) vy = PrimeElt (of_Z (val (pf_a vx) mod p751))).
  { unfold subP, addP, fp751AddReduced. cbn [pf_a]. rewrite val_SubReduced.
    do 2 f_equal. modp. }
  exists (PrimeElt (of_Z (val (pf_a vx) mod p751))). split; [|split; [|split]].
  - rewrite <- E1.
    eapply exec_seq; [apply Add_exec with (d := d); eassumption|].
    pose proof (Sub_exec (<[dest := OPrime (addP vx vy)]> h) dest dest y
                  (addP vx vy) vy (addP vx vy)
                  (lookup_written _ _ _ _ Hd)
                  (eq_trans (lookup_other _ _ _ _ Hdy) Hy)
                  (lookup_written _ _ _ _ Hd)) as E.
    rewrite list_insert_insert_eq in E. exact E.
  - rewrite <- E2.
    eapply exec_seq; [apply Sub_exec with (d := d); eassumption|].
    pose proof (Add_exec (<[dest := OPrime (subP vx vy)]> h) dest dest y
                  (subP vx vy) vy (subP vx vy)
                  (lookup_written _ _ _ _ Hd)
                  (eq_trans (lookup_other _ _ _ _ Hdy) Hy)
                  (lookup_written _ _ _ _ Hd)) as E.
    rewrite list_insert_insert_eq in E. exact E.
  - cbn [pf_a]. apply val_reduced.
  - intros Hc. apply canonical_mod_eq; [apply canonical_reduced|exact Hc|].
    cbn [pf_a]. rewrite val_reduced. apply Z.mod_mod. pose proof p751_range. lia.
Qed.

Lemma PrimeAdd_Sub_round_trip_witness :
  exists r,
    exec (PrimeFieldElement.Add 2 0 1;; PrimeFieldElement.Sub 2 2 1) prime_store tt
      (<[2%nat := OPrime r]> prime_store)
    /\ val (pf_a r) = val (pf_a twoP) mod p751.
Proof.
  destruct (PrimeAdd_Sub_round_trip prime_store 2 0 1 twoP oneP zeroP eq_refl eq_refl eq_refl)
    as (r & E & _ & H & _).
  - lia.
  - exists r. split; [exact E|exact H].
Defined.

(** X9. The prime field has no zero divisors: what [Mul] stores is zero
    modulo p exactly when one of its operands is zero modulo p. *)
Theorem PrimeMul_zero_iff (h : list object) (dest lhs rhs : loc) (x y d : PrimeFieldElement) :
  h !! lhs = Some (OPrime x) -> h !! rhs = Some (OPrime y) -> h !! dest = Some (OPrime d) ->
  exists r, exec (PrimeFieldElement.Mul dest lhs rhs) h tt (<[dest := OPrime r]> h)
    /\ (val (pf_a r) mod p751 = 0
        <-> val (pf_a x) mod p751 = 0 \/ val (pf_a y) mod p751 = 0).
Proof.
  intros Hl Hr Hd. exists (mulP x y). split.
  - apply Mul_exec with (d := d); assumption.
  - rewrite <- !reprP_zero_iff. apply reprP_mulP_zero_iff.
Qed.

Lemma PrimeMul_zero_iff_witness :
  exists r, exec (PrimeFieldElement.Mul 2 0 1) prime_store tt (<[2%nat := OPrime r]> prime_store)
    /\ (val (pf_a r) mod p751 = 0
        <-> val (pf_a twoP) mod p751 = 0 \/ val (pf_a oneP) mod p751 = 0).
Proof.
  exact (PrimeMul_zero_iff prime_store 2 0 1 twoP oneP zeroP eq_refl eq_refl eq_refl).
Defined.

(** X10. [SetUint64(1)] is the one of [Mul]: multiplying x by it leaves a
    residue congruent to x modulo p, which stands for the same element of
    F_p as x. *)
Theorem SetUint64_one_identity (h : list object) (dest t x : loc)
    (vx d vt : PrimeFieldElement) :
  h !! x = Some (OPrime vx) -> h !! dest = Some (OPrime d) -> h !! t = Some (OPrime vt) ->
  t <> x ->
  exists r,
    final (PrimeFieldElement.SetUint64 t 1;; PrimeFieldElement.Mul dest x t) h dest
      = Some (OPrime r)
    /\ reprP r = reprP vx
    /\ val (pf_a r) mod p751 = val (pf_a vx) mod p751.
Proof.
  intros Hx Hd Ht Htx.
  assert (H1 : 0 <= 1 < word) by (unfold word; lia).
  destruct (SetUint64_value 1 H1) as [_ R1].
  pose proof (SetUint64_exec h t 1 vt Ht) as E1.
  set (one := PrimeElt (fp751MontgomeryReduce
                (fp751Mul (<[0%nat := 1 mod word]> fp751Zero) montgomeryRsq))) in *.
  assert (R1' : reprP one = 1) by exact R1.
  destruct (lookup_insert_prime h t dest one d Hd) as (d' & Hd').
  assert (Hr : reprP (mulP vx one) = reprP vx).
  { rewrite reprP_mulP, R1', Z.mul_1_r. apply to_Fp_mod. }
  exists (mulP vx one). split; [|split].
  - erewrite exec_final.
    2:{ eapply exec_seq; [exact E1|].
        eapply (Mul_exec _ dest x t vx one d').
        - rewrite lookup_other by exact Htx. exact Hx.
        - eapply lookup_written, Ht.
        - exact Hd'. }
    eapply lookup_written, Hd'.
  - exact Hr.
  - apply reprP_eq_val, Hr.
Qed.

Lemma SetUint64_one_identity_witness :
  exists r,
    final (PrimeFieldElement.SetUint64 2 1;; PrimeFieldElement.Mul 1 0 2) prime_store 1%nat
      = Some (OPrime r)
    /\ reprP r = reprP twoP.
Proof.
  destruct (SetUint64_one_identity prime_store 1 2 0 twoP oneP zeroP eq_refl eq_refl eq_refl)
    as (r & E & H & _).
  - lia.
  - exists r. split; [exact E|exact H].
Defined.

(** ** [Inv] and [Sqrt] *)

(** X11. [Inv] is an involution of F_p: inverting twice in place leaves a
    residue congruent to x modulo p (zero included). *)
Theorem Inv_involutive (h : list object) (dest x : loc) (vx d : PrimeFieldElement) :
  h !! x = Some (OPrime vx) -> h !! dest = Some (OPrime d) ->
  exists r,
    exec (PrimeFieldElement.Inv dest x;; PrimeFieldElement.Inv dest dest) h tt
      (<[dest := OPrime r]> h)
    /\ reprP r = reprP vx
    /\ val (pf_a r) mod p751 = val (pf_a vx) mod p751.
Proof.
  intros Hx Hd. exists (invP (invP vx)). split; [|split].
  - eapply exec_seq; [apply Inv_exec with (d := d); eassumption|].
    pose proof (Inv_exec (<[dest := OPrime (invP vx)]> h) dest dest (invP vx) (invP vx)
                  (lookup_written _ _ _ _ Hd) (lookup_written _ _ _ _ Hd)) as E.
    rewrite list_insert_insert_eq in E. exact E.
  - apply invP_invP.
  - apply reprP_eq_val, invP_invP.
Qed.

Lemma Inv_involutive_witness :
  exists r,
    exec (PrimeFieldElement.Inv 2 0;; PrimeFieldElement.Inv 2 2) prime_store tt
      (<[2%nat := OPrime r]> prime_store)
    /\ reprP r = reprP twoP.
Proof.
  destruct (Inv_involutive prime_store 2 0 twoP zeroP eq_refl eq_refl) as (r & E & H & _).
  exists r. split; [exact E|exact H].
Defined.

(** X12. [Inv] is multiplicative in F_p: the inverse of a product, and the
    product of the inverses, leave in [dest] residues that stand for one
    element of F_p (congruent modulo p). *)
Theorem Inv_multiplicative (h : list object) (dest t x y : loc)
    (vx vy d vt : PrimeFieldElement) :
  h !! x = Some (OPrime vx) -> h !! y = Some (OPrime vy) ->
  h !! dest = Some (OPrime d) -> h !! t = Some (OPrime vt) ->
  t <> y -> t <> dest ->
  exists r1 r2,
    final (PrimeFieldElement.Mul t x y;; PrimeFieldElement.Inv dest t) h dest
      = Some (OPrime r1)
    /\ final (PrimeFieldElement.Inv t x;; PrimeFieldElement.Inv dest y;;
              PrimeFieldElement.Mul dest t dest) h dest
      = Some (OPrime r2)
    /\ reprP r1 = reprP r2
    /\ val (pf_a r1) mod p751 = val (pf_a r2) mod p751.
Proof.
  intros Hx Hy Hd Ht Hty Htd.
  exists (invP (mulP vx vy)), (mulP (invP vx) (invP vy)). split; [|split; [|split]].
  - erewrite exec_final.
    2:{ eapply exec_seq; [apply Mul_exec with (d := vt); eassumption|].
        eapply (Inv_exec _ dest t (mulP vx vy) d).
        - eapply lookup_written, Ht.
        - rewrite lookup_other by exact Htd. exact Hd. }
    eapply lookup_written. rewrite lookup_other by exact Htd. exact Hd.
  - erewrite exec_final.
    2:{ eapply exec_seq; [apply Inv_exec with (d := vt); eassumption|].
        eapply exec_seq.
        - eapply (Inv_exec _ dest y vy d).
          + rewrite lookup_other by exact Hty. exact Hy.
          + rewrite lookup_other by exact Htd. exact Hd.
        - eapply (Mul_exec _ dest t dest (invP vx) (invP vy) (invP vy)).
          + rewrite lookup_other by (apply not_eq_sym; exact Htd).
            eapply lookup_written, Ht.
          + eapply lookup_written. rewrite lookup_other by exact Htd. exact Hd.
          + eapply lookup_written. rewrite lookup_other by exact Htd. exact Hd. }
    eapply lookup_written, lookup_written.
    rewrite lookup_other by exact Htd. exact Hd.
  - apply reprP_invP_mulP.
  - apply reprP_eq_val, reprP_invP_mulP.
Qed.

Lemma Inv_multiplicative_witness :
  exists r1 r2,
    final (PrimeFieldElement.Mul 2 0 1;; PrimeFieldElement.Inv 3 2)
      (prime_store ++ [OPrime zeroP]) 3%nat = Some (OPrime r1)
    /\ final (PrimeFieldElement.Inv 2 0;; PrimeFieldElement.Inv 3 1;;
              PrimeFieldElement.Mul 3 2 3)
      (prime_store ++ [OPrime zeroP]) 3%nat = Some (OPrime r2)
    /\ reprP r1 = reprP r2.
Proof.
  destruct (Inv_multiplicative (prime_store ++ [OPrime zeroP]) 3 2 0 1
              twoP oneP zeroP zeroP eq_refl eq_refl eq_refl eq_refl)
    as (r1 & r2 & E1 & E2 & H & _).
  - lia.
  - lia.
  - exists r1, r2. split; [exact E1|]. split; [exact E2|exact H].
Defined.

(** X13. [Sqrt] followed by [Square] gives back x or -x, whatever x is,
    and x exactly when x is a square of F_p: squaring the result tells
    whether x had a square root, and for a non-square x the value [Sqrt]
    stores is a square root of -x. *)
Theorem Square_of_Sqrt_sign (h : list object) (dest x : loc) (vx d : PrimeFieldElement) :
  h !! x = Some (OPrime vx) -> h !! dest = Some (OPrime d) ->
  exists r,
    exec (PrimeFieldElement.Sqrt dest x;; PrimeFieldElement.Square dest dest) h tt
      (<[dest := OPrime r]> h)
    /\ (reprP r = reprP vx \/ reprP r = (- reprP vx) mod p751)
    /\ (reprP r = reprP vx <-> quadratic_residue vx).
Proof.
  intros Hx Hd. exists (squareP (sqrtP vx)). split; [|split].
  - eapply exec_seq; [apply Sqrt_exec with (d := d); eassumption|].
    pose proof (Square_exec (<[dest := OPrime (sqrtP vx)]> h) dest dest (sqrtP vx) (sqrtP vx)
                  (lookup_written _ _ _ _ Hd) (lookup_written _ _ _ _ Hd)) as E.
    rewrite list_insert_insert_eq in E. exact E.
  - apply sqrtP_square_sign.
  - split.
    + intros H. exists (reprP (sqrtP vx)). fold (reprP vx). rewrite <- H.
      symmetry. apply (reprP_mulP (sqrtP vx) (sqrtP vx)).
    + apply reprP_square_sqrtP.
Qed.

Lemma Square_of_Sqrt_sign_witness :
  exists r,
    exec (PrimeFieldElement.Sqrt 2 0;; PrimeFieldElement.Square 2 2) prime_store tt
      (<[2%nat := OPrime r]> prime_store)
    /\ (reprP r = reprP twoP \/ reprP r = (- reprP twoP) mod p751).
Proof.
  destruct (Square_of_Sqrt_sign prime_store 2 0 twoP zeroP eq_refl eq_refl) as (r & E & H & _).
  exists r. split; [exact E|exact H].
Defined.

(** X14. [Sqrt] of a square: [Square] followed by [Sqrt] gives back y or
    -y. *)
Theorem Sqrt_of_square (h : list object) (dest y : loc) (vy d : PrimeFieldElement) :
  h !! y = Some (OPrime vy) -> h !! dest = Some (OPrime d) ->
  exists r,
    exec (PrimeFieldElement.Square dest y;; PrimeFieldElement.Sqrt dest dest) h tt
      (<[dest := OPrime r]> h)
    /\ (reprP r = reprP vy \/ reprP r = (- reprP vy) mod p751).
Proof.
  intros Hy Hd. exists (sqrtP (squareP vy)). split.
  - eapply exec_seq; [apply Square_exec with (d := d); eassumption|].
    pose proof (Sqrt_exec (<[dest := OPrime (squareP vy)]> h) dest dest (squareP vy) (squareP vy)
                  (lookup_written _ _ _ _ Hd) (lookup_written _ _ _ _ Hd)) as E.
    rewrite list_insert_insert_eq in E. exact E.
  - pose proof (reprP_square_sqrtP _ (quadratic_residue_squareP vy)) as H.
    unfold squareP at 1 3 in H. rewrite !reprP_mulP in H.
    apply mod_p751_square_eq in H; [|apply reprP_range].
    rewrite (Z.mod_small (reprP vy)) in H by apply reprP_range. exact H.
Qed.

Lemma Sqrt_of_square_witness :
  exists r,
    exec (PrimeFieldElement.Square 2 0;; PrimeFieldElement.Sqrt 2 2) prime_store tt
      (<[2%nat := OPrime r]> prime_store)
    /\ (reprP r = reprP twoP \/ reprP r = (- reprP twoP) mod p751).
Proof.
  exact (Sqrt_of_square prime_store 2 0 twoP zeroP eq_refl eq_refl).
Defined.

(** ** The extension field *)

(** X15. [ExtensionFieldElement.Square] agrees with [Mul] in F_{p^2}: for x
    with coordinates in [0, 2p), squaring x by the formula
    (a+b)(a-b) + 2ab*i and multiplying x by itself leave elements congruent
    modulo p, coordinate by coordinate. *)
Theorem ExtSquare_is_Mul (h : list object) (dest x : loc) (vx d : ExtensionFieldElement) :
  h !! x = Some (OExt vx) -> h !! dest = Some (OExt d) -> in_rangeE vx ->
  exists r1 r2,
    exec (ExtensionFieldElement.Square dest x) h tt (<[dest := OExt r1]> h)
    /\ exec (ExtensionFieldElement.Mul dest x x) h tt (<[dest := OExt r2]> h)
    /\ congruentE r1 r2.
Proof.
  intros Hx Hd _. exists (squareE vx), (mulE vx vx). split; [|split].
  - apply ExtSquare_exec with (d := d); assumption.
  - apply ExtMul_exec with (d := d); assumption.
  - apply congruentE_squareE_mulE.
Qed.

Lemma ExtSquare_is_Mul_witness :
  in_rangeE (ExtElt (pf_a twoP) montgomeryR)
  /\ exists r1 r2,
       exec (ExtensionFieldElement.Square 1 0) ext_store tt (<[1%nat := OExt r1]> ext_store)
       /\ exec (ExtensionFieldElement.Mul 1 0 0) ext_store tt (<[1%nat := OExt r2]> ext_store)
       /\ congruentE r1 r2.
Proof.
  assert (Hx : in_rangeE (ExtElt (pf_a twoP) montgomeryR))
    by (split; in_range_by_computation).
  split; [exact Hx|].
  exact (ExtSquare_is_Mul ext_store 1 0 (ExtElt (pf_a twoP) montgomeryR) oneE
           eq_refl eq_refl Hx).
Defined.

(** X16. [ExtensionFieldElement.Inv] inverts: for x nonzero modulo p, with
    coordinates in [0, 2p), the inverse stored in [t], multiplied by x,
    stands for 1 + 0i in F_{p^2}: it is congruent modulo p to the one of the
    extension field in Montgomery form, [{montgomeryR, 0}]. *)
Theorem ExtInv_inverse (h : list object) (dest t x : loc) (vx d vt : ExtensionFieldElement) :
  h !! x = Some (OExt vx) -> h !! dest = Some (OExt d) -> h !! t = Some (OExt vt) ->
  t <> x -> in_rangeE vx ->
  val (ef_a vx) mod p751 <> 0 \/ val (ef_b vx) mod p751 <> 0 ->
  exists r,
    final (ExtensionFieldElement.Inv t x;; ExtensionFieldElement.Mul dest x t) h dest
      = Some (OExt r)
    /\ to_Fp (ef_a r) = 1
    /\ to_Fp (ef_b r) = 0
    /\ congruentE r oneE.
Proof.
  intros Hx Hd Ht Htx _ Hnz.
  destruct (lookup_insert_ext h t dest (invE vx) d Hd) as (d' & Hd').
  destruct (to_Fp_mulE_invE vx Hnz) as [Ra Rb].
  exists (mulE vx (invE vx)). split; [|split; [|split]].
  - erewrite exec_final.
    2:{ eapply exec_seq; [apply ExtInv_exec with (d := vt); eassumption|].
        eapply (ExtMul_exec _ dest x t vx (invE vx) d').
        - rewrite lookup_other by exact Htx. exact Hx.
        - eapply lookup_written, Ht.
        - exact Hd'. }
    eapply lookup_written, Hd'.
  - exact Ra.
  - exact Rb.
  - apply congruentE_to_Fp.
    + rewrite Ra. symmetry. exact to_Fp_montgomeryR.
    + rewrite Rb. symmetry. exact to_Fp_fp751Zero.
Qed.

Lemma ExtInv_inverse_witness :
  in_rangeE (ExtElt (pf_a twoP) montgomeryR)
  /\ val (ef_b (ExtElt (pf_a twoP) montgomeryR)) mod p751 <> 0
  /\ exists r,
       final (ExtensionFieldElement.Inv 2 0;; ExtensionFieldElement.Mul 1 0 2) ext_store 1%nat
         = Some (OExt r)
       /\ congruentE r oneE.
Proof.
  assert (Hx : in_rangeE (ExtElt (pf_a twoP) montgomeryR))
    by (split; in_range_by_computation).
  assert (Hnz : val (ef_b (ExtElt (pf_a twoP) montgomeryR)) mod p751 <> 0)
    by (vm_compute; discriminate).
  split; [exact Hx|]. split; [exact Hnz|].
  destruct (ExtInv_inverse ext_store 1 2 0 (ExtElt (pf_a twoP) montgomeryR) oneE oneE
              eq_refl eq_refl eq_refl) as (r & E & _ & _ & H).
  - lia.
  - exact Hx.
  - right. exact Hnz.
  - exists r. split; [exact E|exact H].
Defined.

(** X17. [ExtensionFieldElement.Inv] of zero is zero: for an element whose
    two coordinates are zero modulo p, [Inv] finishes (no panic, no
    division) and stores an element whose two coordinates are zero modulo
    p. *)
Theorem ExtInv_of_zero (h : list object) (dest x : loc) (vx d : ExtensionFieldElement) :
  h !! x = Some (OExt vx) -> h !! dest = Some (OExt d) -> in_rangeE vx ->
  val (ef_a vx) mod p751 = 0 -> val (ef_b vx) mod p751 = 0 ->
  exists r,
    exec (ExtensionFieldElement.Inv dest x) h tt (<[dest := OExt r]> h)
    /\ val (ef_a r) mod p751 = 0
    /\ val (ef_b r) mod p751 = 0.
Proof.
  intros Hx Hd _ Ha Hb. destruct (to_Fp_invE_zero vx Ha Hb) as [Za Zb].
  exists (invE vx). split; [|split].
  - apply ExtInv_exec with (d := d); assumption.
  - apply to_Fp_zero_iff, Za.
  - apply to_Fp_zero_iff, Zb.
Qed.

Lemma ExtInv_of_zero_witness :
  in_rangeE (ExtElt fp751Zero fp751Zero)
  /\ exists r,
       exec (ExtensionFieldElement.Inv 1 0)
         [OExt (ExtElt fp751Zero fp751Zero); OExt oneE] tt
         (<[1%nat := OExt r]> [OExt (ExtElt fp751Zero fp751Zero); OExt oneE])
       /\ val (ef_a r) mod p751 = 0
       /\ val (ef_b r) mod p751 = 0.
Proof.
  assert (Hx : in_rangeE (ExtElt fp751Zero fp751Zero))
    by (split; in_range_by_computation).
  split; [exact Hx|].
  exact (ExtInv_of_zero [OExt (ExtElt fp751Zero fp751Zero); OExt oneE] 1 0
           (ExtElt fp751Zero fp751Zero) oneE eq_refl eq_refl Hx eq_refl eq_refl).
Defined.

(** X18. [ExtensionFieldElement.Mul] is commutative in F_{p^2}: for operands
    with coordinates in [0, 2p), exchanging them leaves elements congruent
    modulo p, coordinate by coordinate. *)
Theorem ExtMul_commutative (h : list object) (dest lhs rhs : loc)
    (x y d : ExtensionFieldElement) :
  h !! lhs = Some (OExt x) -> h !! rhs = Some (OExt y) -> h !! dest = Some (OExt d) ->
  in_rangeE x -> in_rangeE y ->
  exists r1 r2,
    exec (ExtensionFieldElement.Mul dest lhs rhs) h tt (<[dest := OExt r1]> h)
    /\ exec (ExtensionFieldElement.Mul dest rhs lhs) h tt (<[dest := OExt r2]> h)
    /\ congruentE r1 r2.
Proof.
  intros Hl Hr Hd _ _. exists (mulE x y), (mulE y x). split; [|split].
  - apply ExtMul_exec with (d := d); assumption.
  - apply ExtMul_exec with (d := d); assumption.
  - apply congruentE_mulE_comm.
Qed.

Lemma ExtMul_commutative_witness :
  in_rangeE (ExtElt (pf_a twoP) montgomeryR) /\ in_rangeE literal_one
  /\ exists r1 r2,
       exec (ExtensionFieldElement.Mul 2 0 3) ext_store tt (<[2%nat := OExt r1]> ext_store)
       /\ exec (ExtensionFieldElement.Mul 2 3 0) ext_store tt (<[2%nat := OExt r2]> ext_store)
       /\ congruentE r1 r2.
Proof.
  assert (Hx : in_rangeE (ExtElt (pf_a twoP) montgomeryR))
    by (split; in_range_by_computation).
  assert (Hy : in_rangeE literal_one) by (split; in_range_by_computation).
  split; [exact Hx|]. split; [exact Hy|].
  exact (ExtMul_commutative ext_store 2 0 3 (ExtElt (pf_a twoP) montgomeryR) literal_one oneE
           eq_refl eq_refl eq_refl Hx Hy).
Defined.

(** X19. [ExtensionFieldElement.Mul] is associative in F_{p^2}: for operands
    with coordinates in [0, 2p), (a*b)*c and a*(b*c), each computed in place
    in [dest], leave elements congruent modulo p, coordinate by
    coordinate. *)
Theorem ExtMul_associative (h : list object) (dest a b c : loc)
    (va vb vc d : ExtensionFieldElement) :
  h !! a = Some (OExt va) -> h !! b = Some (OExt vb) -> h !! c = Some (OExt vc) ->
  h !! dest = Some (OExt d) -> dest <> a -> dest <> c ->
  in_rangeE va -> in_rangeE vb -> in_rangeE vc ->
  exists r1 r2,
    exec (ExtensionFieldElement.Mul dest a b;; ExtensionFieldElement.Mul dest dest c) h tt
      (<[dest := OExt r1]> h)
    /\ exec (ExtensionFieldElement.Mul dest b c;; ExtensionFieldElement.Mul dest a dest) h tt
      (<[dest := OExt r2]> h)
    /\ congruentE r1 r2.
Proof.
  intros Ha Hb Hc Hd Hda Hdc _ _ _.
  exists (mulE (mulE va vb) vc), (mulE va (mulE vb vc)). split; [|split].
  - eapply exec_seq; [apply ExtMul_exec with (d := d); eassumption|].
    pose proof (ExtMul_exec (<[dest := OExt (mulE va vb)]> h) dest dest c
                  (mulE va vb) vc (mulE va vb)
                  (lookup_written _ _ _ _ Hd)
                  (eq_trans (lookup_other _ _ _ _ Hdc) Hc)
                  (lookup_written _ _ _ _ Hd)) as E.
    rewrite list_insert_insert_eq in E. exact E.
  - eapply exec_seq; [apply ExtMul_exec with (d := d); eassumption|].
    pose proof (ExtMul_exec (<[dest := OExt (mulE vb vc)]> h) dest a dest
                  va (mulE vb vc) (mulE vb vc)
                  (eq_trans (lookup_other _ _ _ _ Hda) Ha)
                  (lookup_written _ _ _ _ Hd)
                  (lookup_written _ _ _ _ Hd)) as E.
    rewrite list_insert_insert_eq in E. exact E.
  - apply congruentE_mulE_assoc.
Qed.

Lemma ExtMul_associative_witness :
  in_rangeE (ExtElt (pf_a twoP) montgomeryR) /\ in_rangeE literal_one
  /\ exists r1 r2,
       exec (ExtensionFieldElement.Mul 2 0 0;; ExtensionFieldElement.Mul 2 2 3) ext_store tt
         (<[2%nat := OExt r1]> ext_store)
       /\ exec (ExtensionFieldElement.Mul 2 0 3;; ExtensionFieldElement.Mul 2 0 2) ext_store tt
         (<[2%nat := OExt r2]> ext_store)
       /\ congruentE r1 r2.
Proof.
  assert (Hx : in_rangeE (ExtElt (pf_a twoP) montgomeryR))
    by (split; in_range_by_computation).
  assert (Hy : in_rangeE literal_one) by (split; in_range_by_computation).
  split; [exact Hx|]. split; [exact Hy|].
  apply (ExtMul_associative ext_store 2 0 0 3
           (ExtElt (pf_a twoP) montgomeryR) (ExtElt (pf_a twoP) montgomeryR) literal_one oneE
           eq_refl eq_refl eq_refl eq_refl); [lia|lia|exact Hx|exact Hx|exact Hy].
Defined.

(** X20. [ExtensionFieldElement.Mul] distributes over [Add] in F_{p^2}: for
    operands with coordinates in [0, 2p), x*(y+z), with the sum in a
    temporary [t], and x*y + x*z, with the first product in [t], leave in
    [dest] elements congruent modulo p, coordinate by coordinate. *)
Theorem ExtMul_Add_distributive (h : list object) (dest t x y z : loc)
    (vx vy vz d vt : ExtensionFieldElement) :
  h !! x = Some (OExt vx) -> h !! y = Some (OExt vy) -> h !! z = Some (OExt vz) ->
  h !! dest = Some (OExt d) -> h !! t = Some (OExt vt) ->
  t <> x -> t <> z -> t <> dest ->
  in_rangeE vx -> in_rangeE vy -> in_rangeE vz ->
  exists r1 r2,
    final (ExtensionFieldElement.Add t y z;; ExtensionFieldElement.Mul dest x t) h dest
      = Some (OExt r1)
    /\ final (ExtensionFieldElement.Mul t x y;; ExtensionFieldElement.Mul dest x z;;
              ExtensionFieldElement.Add dest t dest) h dest
      = Some (OExt r2)
    /\ congruentE r1 r2.
Proof.
  intros Hx Hy Hz Hd Ht Htx Htz Htd _ _ _.
  exists (mulE vx (addE vy vz)), (addE (mulE vx vy) (mulE vx vz)). split; [|split].
  - erewrite exec_final.
    2:{ eapply exec_seq; [apply ExtAdd_exec with (d := vt); eassumption|].
        eapply (ExtMul_exec _ dest x t vx (addE vy vz) d).
        - rewrite lookup_other by exact Htx. exact Hx.
        - eapply lookup_written, Ht.
        - rewrite lookup_other by exact Htd. exact Hd. }
    eapply lookup_written. rewrite lookup_other by exact Htd. exact Hd.
  - erewrite exec_final.
    2:{ eapply exec_seq; [apply ExtMul_exec with (d := vt); eassumption|].
        eapply exec_seq.
        - eapply (ExtMul_exec _ dest x z vx vz d).
          + rewrite lookup_other by exact Htx. exact Hx.
          + rewrite lookup_other by exact Htz. exact Hz.
          + rewrite lookup_other by exact Htd. exact Hd.
        - eapply (ExtAdd_exec _ dest t dest (mulE vx vy) (mulE vx vz) (mulE vx vz)).
          + rewrite lookup_other by (apply not_eq_sym; exact Htd).
            eapply lookup_written, Ht.
          + eapply lookup_written. rewrite lookup_other by exact Htd. exact Hd.
          + eapply lookup_written. rewrite lookup_other by exact Htd. exact Hd. }
    eapply lookup_written, lookup_written.
    rewrite lookup_other by exact Htd. exact Hd.
  - apply congruentE_mulE_addE_distr.
Qed.

Lemma ExtMul_Add_distributive_witness :
  in_rangeE (ExtElt (pf_a twoP) montgomeryR) /\ in_rangeE oneE /\ in_rangeE literal_one
  /\ exists r1 r2,
       final (ExtensionFieldElement.Add 2 1 3;; ExtensionFieldElement.Mul 1 0 2) ext_store 1%nat
         = Some (OExt r1)
       /\ final (ExtensionFieldElement.Mul 2 0 1;; ExtensionFieldElement.Mul 1 0 3;;
                 ExtensionFieldElement.Add 1 2 1) ext_store 1%nat
         = Some (OExt r2)
       /\ congruentE r1 r2.
Proof.
  assert (Hx : in_rangeE (ExtElt (pf_a twoP) montgomeryR))
    by (split; in_range_by_computation).
  assert (Hy : in_rangeE oneE) by (split; in_range_by_computation).
  assert (Hz : in_rangeE literal_one) by (split; in_range_by_computation).
  split; [exact Hx|]. split; [exact Hy|]. split; [exact Hz|].
  apply (ExtMul_Add_distributive ext_store 1 2 0 1 3
           (ExtElt (pf_a twoP) montgomeryR) oneE literal_one oneE oneE
           eq_refl eq_refl eq_refl eq_refl eq_refl);
    [lia|lia|lia|exact Hx|exact Hy|exact Hz].
Defined.

(** X21. [ExtensionFieldElement.Add] and [Sub] undo one another,
    coordinate by coordinate: adding y and then subtracting it, or the
    reverse, leaves x reduced modulo p, and x itself when x is in canonical
    range. *)
Theorem ExtAdd_Sub_round_trip (h : list object) (dest x y : loc)
    (vx vy d : ExtensionFieldElement) :
  h !! x = Some (OExt vx) -> h !! y = Some (OExt vy) -> h !! dest = Some (OExt d) ->
  dest <> y ->
  exists r,
    exec (ExtensionFieldElement.Add dest x y;; ExtensionFieldElement.Sub dest dest y) h tt
      (<[dest := OExt r]> h)
    /\ exec (ExtensionFieldElement.Sub dest x y;; ExtensionFieldElement.Add dest dest y) h tt
      (<[dest := OExt r]> h)
    /\ val (ef_a r) = val (ef_a vx) mod p751
    /\ val (ef_b r) = val (ef_b vx) mod p751
    /\ (canonical (ef_a vx) -> canonical (ef_b vx) -> r = vx).
Proof.
  intros Hx Hy Hd Hdy.
  set (r := ExtElt (of_Z (val (ef_a vx) mod p751)) (of_Z (val (ef_b vx) mod p751))).
  assert (E1 : subE (addE vx vy) vy = r).
  { unfold subE, addE, fp751SubReduced, r. cbn [ef_a ef_b]. rewrite !val_AddReduced.
    f_equal; f_equal; modp. }
  assert (E2 : addE (subE vx vy) vy = r).
  { unfold subE, addE, fp751AddReduced, r. cbn [ef_a ef_b]. rewrite !val_SubReduced.
    f_equal; f_equal; modp. }
  exists r. split; [|split; [|split; [|split]]].
  - rewrite <- E1.
    eapply exec_seq; [apply ExtAdd_exec with (d := d); eassumption|].
    pose proof (ExtSub_exec (<[dest := OExt (addE vx vy)]> h) dest dest y
                  (addE vx vy) vy (addE vx vy)
                  (lookup_written _ _ _ _ Hd)
                  (eq_trans (lookup_other _ _ _ _ Hdy) Hy)
                  (lookup_written _ _ _ _ Hd)) as E.
    rewrite list_insert_insert_eq in E. exact E.
  - rewrite <- E2.
    eapply exec_seq; [apply ExtSub_exec with (d := d); eassumption|].
    pose proof (ExtAdd_exec (<[dest := OExt (subE vx vy)]> h) dest dest y
                  (subE vx vy) vy (subE vx vy)
                  (lookup_written _ _ _ _ Hd)
                  (eq_trans (lookup_other _ _ _ _ Hdy) Hy)
                  (lookup_written _ _ _ _ Hd)) as E.
    rewrite list_insert_insert_eq in E. exact E.
  - apply val_reduced.
  - apply val_reduced.
  - intros [Ra Ea] [Rb Eb]. destruct vx as [a b]. unfold r. cbn [ef_a ef_b] in *.
    rewrite !Z.mod_small by assumption. rewrite <- Ea, <- Eb. reflexivity.
Qed.

Lemma ExtAdd_Sub_round_trip_witness :
  exists r,
    exec (ExtensionFieldElement.Add 2 0 1;; ExtensionFieldElement.Sub 2 2 1) ext_store tt
      (<[2%nat := OExt r]> ext_store)
    /\ val (ef_a r) = val (pf_a twoP) mod p751.
Proof.
  destruct (ExtAdd_Sub_round_trip ext_store 2 0 1 (ExtElt (pf_a twoP) montgomeryR) oneE oneE
              eq_refl eq_refl eq_refl) as (r & E & _ & H & _).
  - lia.
  - exists r. split; [exact E|exact H].
Defined.

(** ** What the methods leave alone *)

Lemma writes_dest_only_unary_prime op f :
  (forall h dest x vx d,
     h !! x = Some (OPrime vx) -> h !! dest = Some (OPrime d) ->
     exec (op dest x) h tt (<[dest := OPrime (f vx)]> h)) ->
  writes_dest_only_unary is_prime op.
Proof.
  intros Hop h dest x l vx d [vx' ->] [d' ->] Hx Hd Hl.
  rewrite (exec_final _ _ _ _ _ (Hop h dest x vx' d' Hx Hd)).
  apply lookup_other. apply not_eq_sym, Hl.
Qed.

Lemma writes_dest_only_binary_prime op f :
  (forall h dest lhs rhs x y d,
     h !! lhs = Some (OPrime x) -> h !! rhs = Some (OPrime y) -> h !! dest = Some (OPrime d) ->
     exec (op dest lhs rhs) h tt (<[dest := OPrime (f x y)]> h)) ->
  writes_dest_only_binary is_prime op.
Proof.
  intros Hop h dest lhs rhs l vl vr d [x ->] [y ->] [d' ->] Hlhs Hrhs Hd Hl.
  rewrite (exec_final _ _ _ _ _ (Hop h dest lhs rhs x y d' Hlhs Hrhs Hd)).
  apply lookup_other. apply not_eq_sym, Hl.
Qed.

Lemma writes_dest_only_unary_ext op f :
  (forall h dest x vx d,
     h !! x = Some (OExt vx) -> h !! dest = Some (OExt d) ->
     exec (op dest x) h tt (<[dest := OExt (f vx)]> h)) ->
  writes_dest_only_unary is_ext op.
Proof.
  intros Hop h dest x l vx d [vx' ->] [d' ->] Hx Hd Hl.
  rewrite (exec_final _ _ _ _ _ (Hop h dest x vx' d' Hx Hd)).
  apply lookup_other. apply not_eq_sym, Hl.
Qed.

Lemma writes_dest_only_binary_ext op f :
  (forall h dest lhs rhs x y d,
     h !! lhs = Some (OExt x) -> h !! rhs = Some (OExt y) -> h !! dest = Some (OExt d) ->
     exec (op dest lhs rhs) h tt (<[dest := OExt (f x y)]> h)) ->
  writes_dest_only_binary is_ext op.
Proof.
  intros Hop h dest lhs rhs l vl vr d [x ->] [y ->] [d' ->] Hlhs Hrhs Hd Hl.
  rewrite (exec_final _ _ _ _ _ (Hop h dest lhs rhs x y d' Hlhs Hrhs Hd)).
  apply lookup_other. apply not_eq_sym, Hl.
Qed.

(** X22. Every arithmetic method writes to its destination only: the
    operands (unless they alias the destination) and every other cell keep
    their values, and the methods with locals ([P34], [Sqrt], [Inv], the
    extension [Inv]) leave none of them on the stack. *)
Theorem dest_only_written :
  writes_dest_only_binary is_prime PrimeFieldElement.Mul
  /\ writes_dest_only_unary is_prime PrimeFieldElement.Square
  /\ (forall k, writes_dest_only_unary is_prime (fun dest x => PrimeFieldElement.Pow2k dest x k))
  /\ writes_dest_only_binary is_prime PrimeFieldElement.Add
  /\ writes_dest_only_binary is_prime PrimeFieldElement.Sub
  /\ writes_dest_only_unary is_prime PrimeFieldElement.P34
  /\ writes_dest_only_unary is_prime PrimeFieldElement.Sqrt
  /\ writes_dest_only_unary is_prime PrimeFieldElement.Inv
  /\ writes_dest_only_binary is_ext ExtensionFieldElement.Mul
  /\ writes_dest_only_unary is_ext ExtensionFieldElement.Square
  /\ writes_dest_only_unary is_ext ExtensionFieldElement.Inv
  /\ writes_dest_only_binary is_ext ExtensionFieldElement.Add
  /\ writes_dest_only_binary is_ext ExtensionFieldElement.Sub.
Proof.
  repeat apply conj.
  - exact (writes_dest_only_binary_prime _ mulP Mul_exec).
  - exact (writes_dest_only_unary_prime _ squareP Square_exec).
  - intros k. exact (writes_dest_only_unary_prime _ (fun v => pow2kP v k)
                       (fun h dest x => Pow2k_exec h dest x k)).
  - exact (writes_dest_only_binary_prime _ addP Add_exec).
  - exact (writes_dest_only_binary_prime _ subP Sub_exec).
  - exact (writes_dest_only_unary_prime _ p34P P34_exec).
  - exact (writes_dest_only_unary_prime _ sqrtP Sqrt_exec).
  - exact (writes_dest_only_unary_prime _ invP Inv_exec).
  - exact (writes_dest_only_binary_ext _ mulE ExtMul_exec).
  - exact (writes_dest_only_unary_ext _ squareE ExtSquare_exec).
  - exact (writes_dest_only_unary_ext _ invE ExtInv_exec).
  - exact (writes_dest_only_binary_ext _ addE ExtAdd_exec).
  - exact (writes_dest_only_binary_ext _ subE ExtSub_exec).
Qed.

Lemma dest_only_written_witness :
  final (PrimeFieldElement.Inv 2 0) prime_store 0%nat = prime_store !! 0%nat
  /\ final (PrimeFieldElement.Inv 2 0) prime_store 3%nat = None.
Proof.
  destruct dest_only_written as (_ & _ & _ & _ & _ & _ & _ & H & _).
  split.
  - apply (H prime_store 2 0 0 (OPrime twoP) (OPrime zeroP))%nat;
      [eexists; reflexivity|eexists; reflexivity|reflexivity|reflexivity|lia].
  - apply (H prime_store 2 0 3 (OPrime twoP) (OPrime zeroP))%nat;
      [eexists; reflexivity|eexists; reflexivity|reflexivity|reflexivity|lia].
Defined.

(** ** The cost of [P34] *)

Lemma tally_eta c : Tally (seen c) (loads c) (stores c) (products c) (copies c) = c.
Proof. destruct c; reflexivity. Qed.

Lemma adds_eq {A : Type} (m : M A) ph ph' l s p c l' s' p' c' :
  adds m ph ph' l s p c -> l = l' -> s = s' -> p = p' -> c = c' ->
  adds m ph ph' l' s' p' c'.
Proof. intros H <- <- <- <-. exact H. Qed.

Lemma adds_ret {A : Type} (a : A) ph : adds (mret a) ph ph 0 0 0 0.
Proof.
  intros st a' st' E. injection E as <- <-. exists []. split.
  - rewrite app_nil_r. reflexivity.
  - intros c0 <-. cbn [fold_left]. rewrite !Nat.add_0_r. symmetry. apply tally_eta.
Qed.

Lemma adds_panic {A : Type} ph ph' l s p c : adds (@panic A) ph ph' l s p c.
Proof. intros st a st' E. discriminate E. Qed.

Lemma adds_bind {A B : Type} (m : M A) (k : A -> M B) ph1 ph2 ph3 l1 s1 p1 c1 l2 s2 p2 c2 :
  adds m ph1 ph2 l1 s1 p1 c1 -> (forall a, adds (k a) ph2 ph3 l2 s2 p2 c2) ->
  adds (m ≫= k) ph1 ph3 (l1 + l2) (s1 + s2) (p1 + p2) (c1 + c2).
Proof.
  intros Hm Hk st b st' E. unfold mbind, M_bind in E.
  destruct (m st) as [[a st1]|] eqn:Em; [|discriminate E].
  destruct (Hm _ _ _ Em) as (t1 & T1 & F1).
  destruct (Hk a _ _ _ E) as (t2 & T2 & F2).
  exists (t1 ++ t2). split.
  - rewrite T2, T1, <- app_assoc. reflexivity.
  - intros c0 H0. rewrite fold_left_app, (F1 c0 H0). rewrite F2 by reflexivity.
    cbn [loads stores products copies]. f_equal; lia.
Qed.

(** An event that is no load and no store starts afresh. *)
Lemma adds_emit_branch b ph : adds (emit (EvBranch b)) ph Idle 0 0 0 0.
Proof.
  intros st a st' E. injection E as _ <-. exists [EvBranch b]. split; [reflexivity|].
  intros c0 _. cbn [fold_left tally_step]. rewrite !Nat.add_0_r. reflexivity.
Qed.

Lemma adds_emit_read p ph :
  adds (emit (EvRead p)) ph (match ph with Idle => Loaded1 | _ => Loaded2 end) 1 0 0 0.
Proof.
  intros st a st' E. injection E as _ <-. exists [EvRead p]. split; [reflexivity|].
  intros c0 <-. cbn [fold_left tally_step]. rewrite !Nat.add_0_r. f_equal. lia.
Qed.

Lemma adds_emit_write p ph :
  adds (emit (EvWrite p)) ph Idle 0 1
    (match ph with Loaded2 => 1 | _ => 0 end) (match ph with Loaded1 => 1 | _ => 0 end).
Proof.
  intros st a st' E. injection E as _ <-. exists [EvWrite p]. split; [reflexivity|].
  intros c0 <-. cbn [fold_left tally_step]. rewrite !Nat.add_0_r.
  destruct (seen c0); f_equal; lia.
Qed.

Lemma adds_get_obj l ph : adds (get_obj l) ph ph 0 0 0 0.
Proof.
  intros st a st' E. unfold get_obj in E. destruct (heap st !! l); [|discriminate E].
  injection E as _ <-. exists []. split; [rewrite app_nil_r; reflexivity|].
  intros c0 <-. cbn [fold_left]. rewrite !Nat.add_0_r. symmetry. apply tally_eta.
Qed.

Lemma adds_put_obj l o ph : adds (put_obj l o) ph ph 0 0 0 0.
Proof.
  intros st a st' E. unfold put_obj in E. destruct (decide _); [|discriminate E].
  injection E as _ <-. exists []. cbn [trace]. split; [rewrite app_nil_r; reflexivity|].
  intros c0 <-. cbn [fold_left]. rewrite !Nat.add_0_r. symmetry. apply tally_eta.
Qed.

Lemma adds_load p ph :
  adds (load p) ph (match ph with Idle => Loaded1 | _ => Loaded2 end) 1 0 0 0.
Proof.
  unfold load.
  apply (adds_bind _ _ _ _ _ 1 0 0 0 0 0 0 0 (adds_emit_read p ph)). intros _.
  apply (adds_bind _ _ _ _ _ 0 0 0 0 0 0 0 0 (adds_get_obj _ _)). intros o.
  destruct p, o; first [apply adds_ret|apply adds_panic].
Qed.

Lemma adds_store p v ph :
  adds (store p v) ph Idle 0 1
    (match ph with Loaded2 => 1 | _ => 0 end) (match ph with Loaded1 => 1 | _ => 0 end).
Proof.
  unfold store.
  eapply adds_eq.
  - apply (adds_bind _ _ _ _ _ _ _ _ _ 0 0 0 0 (adds_emit_write p ph)). intros _.
    apply (adds_bind _ _ _ _ _ 0 0 0 0 0 0 0 0 (adds_get_obj _ _)). intros o.
    destruct p, o; first [apply adds_put_obj|apply adds_panic].
  - reflexivity.
  - reflexivity.
  - lia.
  - lia.
Qed.

Lemma adds_load_prime l ph :
  adds (load_prime l) ph (match ph with Idle => Loaded1 | _ => Loaded2 end) 1 0 0 0.
Proof.
  unfold load_prime.
  apply (adds_bind _ _ _ _ _ 1 0 0 0 0 0 0 0 (adds_load _ _)). intros v. apply adds_ret.
Qed.

(** [*dest = v] right after [v = *x]: a copy. *)
Lemma adds_store_prime_copy l v : adds (store_prime l v) Loaded1 Idle 0 1 0 1.
Proof. exact (adds_store (Pa l) (pf_a v) Loaded1). Qed.

Lemma adds_alloc o ph : adds (alloc o) ph Idle 0 0 0 0.
Proof.
  intros st a st' E. injection E as _ <-. eexists. cbn [trace]. split; [reflexivity|].
  intros c0 _. cbn [fold_left tally_step]. rewrite !Nat.add_0_r. reflexivity.
Qed.

Lemma adds_alloc_array n o ph : adds (alloc_array n o) ph Idle 0 0 0 0.
Proof.
  intros st a st' E. injection E as _ <-. eexists. cbn [trace]. split; [reflexivity|].
  intros c0 _. cbn [fold_left tally_step]. rewrite !Nat.add_0_r. reflexivity.
Qed.

Lemma adds_release n ph : adds (release n) ph Idle 0 0 0 0.
Proof.
  intros st a st' E. injection E as _ <-. eexists. cbn [trace]. split; [reflexivity|].
  intros c0 _. cbn [fold_left tally_step]. rewrite !Nat.add_0_r. reflexivity.
Qed.

Lemma adds_elem base n i ph : adds (elem base n i) ph ph 0 0 0 0.
Proof.
  unfold elem. destruct (decide _); [apply adds_ret|apply adds_panic].
Qed.

(** A table entry is a constant: what follows is counted for the entry
    the table holds. *)
Lemma adds_index_bind {A B : Type} (tbl : list A) i (k : A -> M B) ph ph' l s p c :
  (forall v, tbl !! i = Some v -> adds (k v) ph ph' l s p c) ->
  adds (index tbl i ≫= k) ph ph' l s p c.
Proof.
  intros Hk st b st' E. unfold mbind, M_bind, index in E.
  destruct (tbl !! i) as [v|] eqn:Ei; [|discriminate E].
  exact (Hk v eq_refl _ _ _ E).
Qed.

Lemma adds_for_loop {A : Type} (body : nat -> A -> M A) bound (cl cs cp cc : nat -> nat) :
  (forall i acc, (i < bound)%nat -> adds (body i acc) Idle Idle (cl i) (cs i) (cp i) (cc i)) ->
  forall fuel i acc, (bound - i < fuel)%nat ->
    adds (for_loop fuel i bound body acc) Idle Idle
      (sum_from cl i (bound - i)) (sum_from cs i (bound - i))
      (sum_from cp i (bound - i)) (sum_from cc i (bound - i)).
Proof.
  intros Hbody. induction fuel as [|fuel IH]; intros i acc Hf; [lia|].
  cbn [for_loop].
  apply (adds_eq _ _ _
           (0 + sum_from cl i (bound - i)) (0 + sum_from cs i (bound - i))
           (0 + sum_from cp i (bound - i)) (0 + sum_from cc i (bound - i)));
    [|reflexivity..].
  apply adds_bind with (ph2 := Idle); [apply adds_emit_branch|]. intros _.
  destruct (i <? bound)%nat eqn:Ei.
  - apply Nat.ltb_lt in Ei.
    replace (bound - i)%nat with (S (bound - S i)) by lia. cbn [sum_from].
    apply adds_bind with (ph2 := Idle); [apply Hbody; exact Ei|]. intros acc'.
    apply IH. lia.
  - apply Nat.ltb_ge in Ei. replace (bound - i)%nat with 0%nat by lia.
    apply adds_ret.
Qed.

Lemma adds_for {A : Type} (body : nat -> A -> M A) start bound (cl cs cp cc : nat -> nat) acc :
  (forall i acc, (i < bound)%nat -> adds (body i acc) Idle Idle (cl i) (cs i) (cp i) (cc i)) ->
  adds (for_ start bound body acc) Idle Idle
    (sum_from cl start (bound - start)) (sum_from cs start (bound - start))
    (sum_from cp start (bound - start)) (sum_from cc start (bound - start)).
Proof. intros Hbody. apply adds_for_loop; [exact Hbody|lia]. Qed.

Lemma sum_from_const c n : forall i, sum_from (fun _ => c) i n = (n * c)%nat.
Proof. induction n as [|n IH]; intros i; cbn [sum_from]; [reflexivity|rewrite IH; lia]. Qed.

(** [Mul] and [Square]: two loads, then a store. *)
Lemma adds_Mul dest lhs rhs : adds (PrimeFieldElement.Mul dest lhs rhs) Idle Idle 2 1 1 0.
Proof.
  unfold PrimeFieldElement.Mul.
  apply (adds_bind _ _ Idle Loaded1 Idle 1 0 0 0 1 1 1 0 (adds_load _ Idle)). intros va.
  apply (adds_bind _ _ Loaded1 Loaded2 Idle 1 0 0 0 0 1 1 0 (adds_load _ Loaded1)). intros vb.
  exact (adds_store _ _ Loaded2).
Qed.

Lemma adds_Square dest x : adds (PrimeFieldElement.Square dest x) Idle Idle 2 1 1 0.
Proof.
  unfold PrimeFieldElement.Square.
  apply (adds_bind _ _ Idle Loaded1 Idle 1 0 0 0 1 1 1 0 (adds_load _ Idle)). intros va.
  apply (adds_bind _ _ Loaded1 Loaded2 Idle 1 0 0 0 0 1 1 0 (adds_load _ Loaded1)). intros vb.
  exact (adds_store _ _ Loaded2).
Qed.

(** [Pow2k(x, k)] makes max(1,k) products. *)
Lemma adds_Pow2k dest x k :
  adds (PrimeFieldElement.Pow2k dest x k) Idle Idle (2 * S (k - 1)) (S (k - 1)) (S (k - 1)) 0.
Proof.
  unfold PrimeFieldElement.Pow2k.
  apply (adds_eq _ _ _ (2 + sum_from (fun _ => 2%nat) 1 (k - 1))
                       (1 + sum_from (fun _ => 1%nat) 1 (k - 1))
                       (1 + sum_from (fun _ => 1%nat) 1 (k - 1))
                       (0 + sum_from (fun _ => 0%nat) 1 (k - 1))).
  - apply adds_bind with (ph2 := Idle); [apply adds_Square|]. intros _.
    apply adds_for. intros i acc _. apply adds_Square.
  - rewrite sum_from_const. lia.
  - rewrite sum_from_const. lia.
  - rewrite sum_from_const. lia.
  - rewrite sum_from_const. lia.
Qed.

Lemma adds_P34 dest x : adds (PrimeFieldElement.P34 dest x) Idle Idle 1796 899 897 2.
Proof.
  unfold PrimeFieldElement.P34.
  apply (adds_bind _ _ Idle Idle Idle 0 0 0 0 1796 899 897 2 (adds_alloc_array _ _ _)).
  intros lookup.
  apply (adds_bind _ _ Idle Idle Idle 0 0 0 0 1796 899 897 2 (adds_alloc _ _)). intros xx.
  apply (adds_bind _ _ Idle Idle Idle 2 1 1 0 1794 898 896 2 (adds_Square _ _)). intros _.
  apply (adds_bind _ _ Idle Idle Idle 0 0 0 0 1794 898 896 2 (adds_elem _ _ _ _)). intros l0.
  apply (adds_bind _ _ Idle Loaded1 Idle 1 0 0 0 1793 898 896 2 (adds_load_prime _ Idle)).
  intros vx.
  apply (adds_bind _ _ Loaded1 Idle Idle 0 1 0 1 1793 897 896 1 (adds_store_prime_copy _ _)).
  intros _.
  apply (adds_bind _ _ Idle Idle Idle 30 15 15 0 1763 882 881 1).
  { apply (adds_for _ 1 16 (fun _ => 2%nat) (fun _ => 1%nat) (fun _ => 1%nat) (fun _ => 0%nat)).
    intros i acc _.
    apply (adds_bind _ _ Idle Idle Idle 0 0 0 0 2 1 1 0 (adds_elem _ _ _ _)). intros li.
    apply (adds_bind _ _ Idle Idle Idle 0 0 0 0 2 1 1 0 (adds_elem _ _ _ _)). intros lp.
    apply adds_Mul. }
  intros _.
  apply (adds_bind _ _ Idle Idle Idle 0 0 0 0 1763 882 881 1 (adds_elem _ _ _ _)). intros l.
  apply (adds_bind _ _ Idle Loaded1 Idle 1 0 0 0 1762 882 881 1 (adds_load_prime _ Idle)).
  intros v.
  apply (adds_bind _ _ Loaded1 Idle Idle 0 1 0 1 1762 881 881 0 (adds_store_prime_copy _ _)).
  intros _.
  apply (adds_bind _ _ Idle Idle Idle 1762 881 881 0 0 0 0 0);
    [|intros _; apply adds_release].
  apply (adds_eq _ _ _
           (sum_from (fun i => 2 * S (nth i powStrategy 0 - 1) + 2)%nat 0 (137 - 0))
           (sum_from (fun i => S (nth i powStrategy 0 - 1) + 1)%nat 0 (137 - 0))
           (sum_from (fun i => S (nth i powStrategy 0 - 1) + 1)%nat 0 (137 - 0))
           (sum_from (fun i => 0 + 0)%nat 0 (137 - 0)));
    [|vm_compute; reflexivity..].
  apply adds_for. intros i acc _.
  apply adds_index_bind. intros k Hk.
  rewrite (nth_lookup_Some _ _ 0%nat _ Hk).
  apply (adds_bind _ _ Idle Idle Idle (2 * S (k - 1)) (S (k - 1)) (S (k - 1)) 0 2 1 1 0
           (adds_Pow2k _ _ _)).
  intros _.
  apply adds_index_bind. intros m Hm.
  apply (adds_bind _ _ Idle Idle Idle 0 0 0 0 2 1 1 0 (adds_elem _ _ _ _)). intros lm.
  apply adds_Mul.
Qed.

(** X23. The cost of [P34], whatever the operand and the store: a call
    makes 1796 loads and 899 stores of field elements, in 897 products (two
    loads, then a store: the access pattern of each call of [Square] or
    [Mul], the 897 multiplications in total of its comment) and 2 copies (a
    load, then a store: [lookup[0] = *x] and [*dest = lookup[13]]). *)
Theorem P34_operation_count (h : list object) (dest x : loc) (vx d : PrimeFieldElement) :
  h !! x = Some (OPrime vx) -> h !! dest = Some (OPrime d) ->
  exists t, leak (PrimeFieldElement.P34 dest x) h = Some t
    /\ tally_of t = Tally Idle 1796 899 897 2.
Proof.
  intros Hx Hd.
  destruct (P34_exec h dest x vx d Hx Hd []) as (t & E).
  destruct (adds_P34 dest x _ _ _ E) as (t' & T & F).
  cbn [trace app] in T. subst t'.
  exists t. unfold leak. rewrite E. cbn [trace]. split; [reflexivity|].
  exact (F (Tally Idle 0 0 0 0) eq_refl).
Qed.

Lemma P34_operation_count_witness :
  exists t, leak (PrimeFieldElement.P34 2 0) prime_store = Some t
    /\ tally_of t = Tally Idle 1796 899 897 2.
Proof.
  exact (P34_operation_count prime_store 2 0 twoP zeroP eq_refl eq_refl).
Defined.
